(** * jemi: a fixed-arena JSON tree builder and resumable emitter

    Shallow embedding of [jemi.c] / [jemi.h].

    - The node pool handed to [jemi_reset] is a [list jemi_node_t]; a
      [jemi_node_t *] is [Some i] for [&pool[i]] and [None] for [NULL].
    - A [const char *] is [Some s] for a NUL-terminated string with contents
      [s] and [None] for [NULL].
    - Code that dereferences [NULL], reads a union member other than the one
      last stored, or converts an out-of-range double has no defined
      behaviour; the embedding returns [None] there (the [option] monad).
    - Loops whose trip count depends on the links in the pool take a fuel
      argument; running out of fuel is [None] as well.
    - [jemi_reset] counts its loop in an [int]; it is modelled for pools of
      at most [INT_MAX] slots, where that counter does not overflow. *)

From Stdlib Require Import ZArith QArith Qround Qabs String Ascii List Bool Lia.
From stdpp Require Import base option list strings pretty.

Local Open Scope string_scope.
Local Open Scope Z_scope.
Local Open Scope nat_scope.

(** ** Types of [jemi.h] *)

Inductive jemi_type_t :=
| JEMI_NULL | JEMI_OBJECT | JEMI_ARRAY | JEMI_INTEGER
| JEMI_FLOAT | JEMI_STRING | JEMI_TRUE | JEMI_FALSE.

Inductive jemi_state_t :=
| JEMI_NODE_UNUSED | JEMI_CONTAINER_BEGUN | JEMI_KEY_USED
| JEMI_VAL_USED | JEMI_CHILDREN_USED | JEMI_NODE_USED.

(** The integer values of the enumerators, in declaration order. *)
Definition type_code (t : jemi_type_t) : Z :=
  match t with
  | JEMI_NULL => 0 | JEMI_OBJECT => 1 | JEMI_ARRAY => 2 | JEMI_INTEGER => 3
  | JEMI_FLOAT => 4 | JEMI_STRING => 5 | JEMI_TRUE => 6 | JEMI_FALSE => 7
  end%Z.

Definition state_code (s : jemi_state_t) : Z :=
  match s with
  | JEMI_NODE_UNUSED => 0 | JEMI_CONTAINER_BEGUN => 1 | JEMI_KEY_USED => 2
  | JEMI_VAL_USED => 3 | JEMI_CHILDREN_USED => 4 | JEMI_NODE_USED => 5
  end%Z.

#[global] Instance jemi_type_eq_dec : EqDecision jemi_type_t.
Proof. solve_decision. Defined.

#[global] Instance jemi_state_eq_dec : EqDecision jemi_state_t.
Proof. solve_decision. Defined.

Definition ptr := option nat.
Definition cstr := option string.

(** The anonymous union of [jemi_node_t].  [Zeroed] is the all-zero storage
    left by [memset]: it reads as [0], [0.0] and [NULL] through every
    member.  A finite [double] is represented by the rational it denotes. *)
Inductive payload_t :=
| Zeroed
| Integer (i : Z)
| Number (d : Q)
| Str (s : cstr)
| Children (c : ptr).

Record jemi_node_t := mk_node {
  sibling : ptr;
  parent : ptr;
  type : jemi_type_t;
  state : jemi_state_t;
  key : cstr;
  payload : payload_t;
  update : option nat  (* [ObjUpdate]: index of the callback, or [NULL] *)
}.

Definition set_sibling (v : ptr) (x : jemi_node_t) : jemi_node_t :=
  mk_node v (parent x) (type x) (state x) (key x) (payload x) (update x).
Definition set_parent (v : ptr) (x : jemi_node_t) : jemi_node_t :=
  mk_node (sibling x) v (type x) (state x) (key x) (payload x) (update x).
Definition set_type (v : jemi_type_t) (x : jemi_node_t) : jemi_node_t :=
  mk_node (sibling x) (parent x) v (state x) (key x) (payload x) (update x).
Definition set_state (v : jemi_state_t) (x : jemi_node_t) : jemi_node_t :=
  mk_node (sibling x) (parent x) (type x) v (key x) (payload x) (update x).
Definition set_key (v : cstr) (x : jemi_node_t) : jemi_node_t :=
  mk_node (sibling x) (parent x) (type x) (state x) v (payload x) (update x).
Definition set_payload (v : payload_t) (x : jemi_node_t) : jemi_node_t :=
  mk_node (sibling x) (parent x) (type x) (state x) (key x) v (update x).
Definition set_update (v : option nat) (x : jemi_node_t) : jemi_node_t :=
  mk_node (sibling x) (parent x) (type x) (state x) (key x) (payload x) v.

(** Reads through the union members. *)
Definition get_integer (x : jemi_node_t) : option Z :=
  match payload x with Zeroed => Some 0%Z | Integer i => Some i | _ => None end.
Definition get_number (x : jemi_node_t) : option Q :=
  match payload x with Zeroed => Some 0%Q | Number d => Some d | _ => None end.
Definition get_string (x : jemi_node_t) : option cstr :=
  match payload x with Zeroed => Some None | Str s => Some s | _ => None end.
Definition get_children (x : jemi_node_t) : option ptr :=
  match payload x with Zeroed => Some None | Children c => Some c | _ => None end.

(** A node slot after [memset(pool, 0, ...)]. *)
Definition zero_node : jemi_node_t :=
  mk_node None None JEMI_NULL JEMI_NODE_UNUSED None Zeroed None.

(** ** The arena

    [pool] is the caller's array, [s_jemi_freelist] the file-scope
    variable of [jemi.c]. *)
Record store := mk_store {
  pool : list jemi_node_t;
  s_jemi_freelist : ptr
}.

(** [node->field = v] for a non-null [node]. *)
Definition poke (p : nat) (f : jemi_node_t → jemi_node_t) (s : store)
  : option store :=
  x ← pool s !! p;
  Some (mk_store (<[p := f x]> (pool s)) (s_jemi_freelist s)).

Definition peek (p : nat) (s : store) : option jemi_node_t := pool s !! p.

(** The largest [int]. *)
Definition INT_MAX : Z := 2147483647.

(** The [for] loop of [jemi_reset]: [i] counts up, [n] iterations remain.
    The counter of the source is an [int] compared with the [size_t]
    [pool_size]: the loop is defined for [pool_size ≤ INT_MAX], where the
    counter does not overflow, and that is the range the theorems about
    [jemi_reset] on an arbitrary pool size are stated for. *)
Fixpoint reset_loop (n i : nat) (next : ptr) (pl : list jemi_node_t)
  : list jemi_node_t * ptr :=
  match n with
  | O => (pl, next)
  | S n' => reset_loop n' (S i) (Some i) (alter (set_sibling next) i pl)
  end.

Definition jemi_reset (pool_size : nat) : store :=
  let '(pl, next) :=
    reset_loop pool_size 0 None (replicate pool_size zero_node) in
  mk_store pl next.

Definition jemi_alloc (ty : jemi_type_t) (s : store) : option (store * ptr) :=
  match s_jemi_freelist s with
  | None => Some (s, None)
  | Some p =>
      x ← pool s !! p;
      let x' := set_state JEMI_NODE_UNUSED (set_type ty (set_sibling None x)) in
      Some (mk_store (<[p := x']> (pool s)) (sibling x), Some p)
  end.

(** The [while] loop of [jemi_available]. *)
Fixpoint available_loop (fuel : nat) (pl : list jemi_node_t) (node : ptr)
    (count : nat) : option nat :=
  match node with
  | None => Some count
  | Some p =>
      match fuel with
      | O => None
      | S fuel' =>
          x ← pl !! p;
          available_loop fuel' pl (sibling x) (count + 1)
      end
  end.

Definition jemi_available (fuel : nat) (s : store) : option nat :=
  available_loop fuel (pool s) (s_jemi_freelist s) 0.

(** A run of allocation requests, with the pointer each one returned. *)
Fixpoint alloc_all (tys : list jemi_type_t) (s : store)
  : option (store * list ptr) :=
  match tys with
  | [] => Some (s, [])
  | ty :: tys' =>
      '(s1, p) ← jemi_alloc ty s;
      '(s2, ps) ← alloc_all tys' s1;
      Some (s2, p :: ps)
  end.

Fixpoint successes (ps : list ptr) : nat :=
  match ps with
  | [] => 0
  | Some _ :: ps' => S (successes ps')
  | None :: ps' => successes ps'
  end.

(** The freelist built by [jemi_reset] and consumed by [jemi_alloc] is the
    descending chain [m-1 → m-2 → … → 0 → NULL] over the first [m] slots. *)
Definition pred_ptr (j : nat) : ptr :=
  match j with O => None | S j' => Some j' end.

Definition free_chain (m : nat) (s : store) : Prop :=
  s_jemi_freelist s = pred_ptr m ∧
  ∀ j, j < m → ∃ x, pool s !! j = Some x ∧ sibling x = pred_ptr j.

(** ** Constructors

    A variadic constructor receives its elements as the list of the
    non-null arguments that precede the terminating [NULL]. *)

(** The [while (element != NULL)] loop shared by [jemi_array],
    [jemi_array_updateable] and [jemi_object]. *)
Fixpoint link_elements (root : ptr) (elements : list nat) (s : store)
  : option store :=
  match elements with
  | [] => Some s
  | e :: rest =>
      s ← poke e (set_sibling (head rest)) s;
      s ← poke e (set_parent root) s;
      link_elements root rest s
  end.

Definition jemi_array (k : cstr) (elements : list nat) (s : store)
  : option (store * ptr) :=
  '(s, root) ← jemi_alloc JEMI_ARRAY s;
  r ← root;                                   (* root->key = key *)
  s ← poke r (set_key k) s;
  s ← poke r (set_payload (Children (head elements))) s;
  s ← link_elements (Some r) elements s;
  Some (s, Some r).

Definition jemi_array_updateable (k : cstr) (upd : option nat) (len : Z)
    (elements : list nat) (s : store) : option (store * ptr) :=
  '(s, root) ← jemi_alloc JEMI_ARRAY s;
  r ← root;
  s ← poke r (set_key k) s;
  s ← poke r (set_update upd) s;
  s ← poke r (set_payload (Children (head elements))) s;
  s ← link_elements (Some r) elements s;
  Some (s, Some r).

Definition jemi_object (k : cstr) (elements : list nat) (s : store)
  : option (store * ptr) :=
  '(s, root) ← jemi_alloc JEMI_OBJECT s;
  r ← root;
  s ← poke r (set_key k) s;
  s ← poke r (set_payload (Children (head elements))) s;
  s ← link_elements (Some r) elements s;
  Some (s, Some r).

(** The loop of [jemi_list]: sibling links only. *)
Fixpoint list_elements (elements : list nat) (s : store) : option store :=
  match elements with
  | [] => Some s
  | e :: rest =>
      s ← poke e (set_sibling (head rest)) s;
      list_elements rest s
  end.

Definition jemi_list (elements : list nat) (s : store) : option (store * ptr) :=
  s ← list_elements elements s;
  Some (s, head elements).

Definition jemi_integer (k : cstr) (integer : Z) (s : store)
  : option (store * ptr) :=
  '(s, node) ← jemi_alloc JEMI_INTEGER s;
  match node with
  | Some n =>
      s ← poke n (set_key k) s;
      s ← poke n (set_payload (Integer integer)) s;
      Some (s, node)
  | None => Some (s, node)
  end.

Definition jemi_string (k : cstr) (str : cstr) (s : store)
  : option (store * ptr) :=
  '(s, node) ← jemi_alloc JEMI_STRING s;
  match node with
  | Some n =>
      s ← poke n (set_key k) s;
      s ← poke n (set_payload (Str str)) s;
      Some (s, node)
  | None => Some (s, node)
  end.

Definition jemi_true (s : store) : option (store * ptr) :=
  jemi_alloc JEMI_TRUE s.

Definition jemi_false (s : store) : option (store * ptr) :=
  jemi_alloc JEMI_FALSE s.

Definition jemi_null (s : store) : option (store * ptr) :=
  jemi_alloc JEMI_NULL s.

Definition jemi_bool (k : cstr) (boolean : bool) (s : store)
  : option (store * ptr) :=
  '(s, node) ← (if boolean then jemi_true s else jemi_false s);
  n ← node;                                   (* node->key = key *)
  s ← poke n (set_key k) s;
  Some (s, node).

(** ** Setters *)

(** Conversion of an [int64_t] to [int]: reduction modulo [2^32]. *)
Definition wrap_int (z : Z) : Z := ((z + 2 ^ 31) mod 2 ^ 32 - 2 ^ 31)%Z.

Definition jemi_float_set (node : ptr) (number : Q) (s : store)
  : option (store * ptr) :=
  match node with
  | Some n => s ← poke n (set_payload (Number number)) s; Some (s, node)
  | None => Some (s, node)
  end.

Definition jemi_integer_set (node : ptr) (integer : Z) (s : store)
  : option (store * ptr) :=
  match node with
  | Some n =>
      s ← poke n (set_payload (Integer (wrap_int integer))) s; Some (s, node)
  | None => Some (s, node)
  end.

Definition jemi_string_set (node : ptr) (str : cstr) (s : store)
  : option (store * ptr) :=
  match node with
  | Some n => s ← poke n (set_payload (Str str)) s; Some (s, node)
  | None => Some (s, node)
  end.

Definition jemi_bool_set (node : ptr) (boolean : bool) (s : store)
  : option (store * ptr) :=
  match node with
  | Some n =>
      s ← poke n (set_type (if boolean then JEMI_TRUE else JEMI_FALSE)) s;
      Some (s, node)
  | None => Some (s, node)
  end.

(** ** Appending *)

(** The [while (node)] loop of [jemi_list_append]; returns the final
    [prev]. *)
Fixpoint last_loop (fuel : nat) (pl : list jemi_node_t) (prev node : ptr)
  : option ptr :=
  match node with
  | None => Some prev
  | Some n =>
      match fuel with
      | O => None
      | S fuel' => x ← pl !! n; last_loop fuel' pl (Some n) (sibling x)
      end
  end.

Definition jemi_list_append (fuel : nat) (lst items : ptr) (s : store)
  : option (store * ptr) :=
  match lst with
  | None => Some (s, items)
  | Some _ =>
      prev ← last_loop fuel (pool s) None lst;
      s ← match prev with
          | Some p => poke p (set_sibling items) s
          | None => Some s
          end;
      Some (s, lst)
  end.

Definition jemi_array_append (fuel : nat) (array items : ptr) (s : store)
  : option (store * ptr) :=
  i ← items;                                  (* items->parent = array *)
  s ← poke i (set_parent array) s;
  match array with
  | Some a =>
      x ← peek a s;
      c ← get_children x;
      '(s, l) ← jemi_list_append fuel c items s;
      s ← poke a (set_payload (Children l)) s;
      Some (s, array)
  | None => Some (s, array)
  end.

Definition jemi_object_append (fuel : nat) (object items : ptr) (s : store)
  : option (store * ptr) :=
  i ← items;                                  (* items->parent = object *)
  s ← poke i (set_parent object) s;
  match object with
  | Some o =>
      x ← peek o s;
      c ← get_children x;
      '(s, l) ← jemi_list_append fuel c items s;
      s ← poke o (set_payload (Children l)) s;
      Some (s, object)
  | None => Some (s, object)
  end.

(** ** Copying

    [jemi_copy] and [copy_node] call each other; [fuel] bounds the total
    number of calls and loop iterations. *)
Fixpoint copy_loop (fuel : nat) (root r2 prev : ptr) (s : store)
  : option (store * ptr) :=
  match fuel with
  | O => None
  | S fuel' =>
      '(s, node) ← copy_node fuel' root s;
      match node with
      | None => Some (s, r2)
      | Some n =>
          let r2 := match r2 with None => node | Some _ => r2 end in
          s ← match prev with
              | Some p => poke p (set_sibling node) s
              | None => Some s
              end;
          r ← root;                           (* root = root->sibling *)
          x ← peek r s;
          copy_loop fuel' (sibling x) r2 node s
      end
  end
with copy_node (fuel : nat) (node : ptr) (s : store) : option (store * ptr) :=
  match node with
  | None => Some (s, None)
  | Some n =>
      x ← peek n s;
      '(s, copy) ← jemi_alloc (type x) s;
      x ← peek n s;
      match type x with
      | JEMI_ARRAY | JEMI_OBJECT =>
          match fuel with
          | O => None
          | S fuel' =>
              c ← get_children x;
              '(s, cc) ← copy_loop fuel' c None None s;
              cp ← copy;                      (* copy->children = ... *)
              s ← poke cp (set_payload (Children cc)) s;
              Some (s, copy)
          end
      | JEMI_STRING =>
          str ← get_string x;
          cp ← copy;                          (* copy->string = ... *)
          s ← poke cp (set_payload (Str str)) s;
          Some (s, copy)
      | JEMI_INTEGER =>
          i ← get_integer x;
          cp ← copy;                          (* copy->integer = ... *)
          s ← poke cp (set_payload (Integer i)) s;
          Some (s, copy)
      | _ => Some (s, copy)
      end
  end.

Definition jemi_copy (fuel : nat) (root : ptr) (s : store)
  : option (store * ptr) :=
  copy_loop fuel root None None s.

(** ** Emission

    [buf] holds the contents of the C string in [output->buf].  The caller's
    [writer_fn] stores one character after the current contents; the
    terminator written by [jemi_emit] leaves the contents as they are.
    [trace] is a history of what a call did, in order: every character
    handed to [writer_fn], every assignment [output->full = true], every
    assignment to a node's [state] and every call of a generator. *)
Record jemi_out_buf_t := mk_out {
  buf : string;
  bufLen : Z;          (* uint16_t *)
  full : bool
}.

Inductive event :=
| Ewrite (c : ascii)
| Efull
| Estate (p : nat) (st : jemi_state_t)
| Eupdate (p : nat).

(** The state [emit_aux] works on: the node it was called with (a local
    copy [nd] of the slot [addr], stored back when the call leaves), the
    function-static [left], the output descriptor and the history. *)
Record frame := mk_frame {
  addr : nat;
  nd : jemi_node_t;
  lft : Z;
  out : jemi_out_buf_t;
  tr : list event
}.

Definition dquote : string :=
  String (Ascii false true false false false true false false) EmptyString.

Definition NUL : ascii := Ascii.zero.

(** [snprintf(buf, n, ...)] keeps the first [n - 1] characters. *)
Definition snprintf (n : nat) (text : string) : string :=
  substring 0 (n - 1) text.

(** [%d]. *)
Definition fmt_d (i : Z) : string := pretty i.

(** [%lf]: six decimals, the exact value rounded to nearest, ties to even. *)
Definition round_half_even (q : Q) : Z :=
  let fl := Qfloor q in
  let r := (q - inject_Z fl)%Q in
  match (r ?= 1 # 2)%Q with
  | Lt => fl
  | Gt => (fl + 1)%Z
  | Eq => if Z.even fl then fl else (fl + 1)%Z
  end.

Definition pad6 (s : string) : string :=
  string_of_list_ascii
    (replicate (6 - String.length s) "0"%char) +:+ s.

Definition fmt_lf (d : Q) : string :=
  let n := round_half_even (Qabs d * inject_Z 1000000)%Q in
  (if Qlt_le_dec d 0 then "-" else "") +:+
  pretty (n / 1000000)%Z +:+ "." +:+ pad6 (pretty (n mod 1000000)%Z).

(** [int i = node->number]: truncation towards zero, defined when the
    result is an [int]. *)
Definition double_to_int (d : Q) : option Z :=
  let t := Z.quot (Qnum d) (Zpos (Qden d)) in
  if ((- 2 ^ 31 <=? t) && (t <? 2 ^ 31))%Z then Some t else None.

(** The test of [emit_string].  The comparison is on [size_t] (64 bits):
    the [int] value [bufLen - 1] is converted to [size_t], so that a
    [bufLen] of [0] compares as [2^64 - 1].  The sum on the left is the sum
    of the lengths of two strings in memory and does not wrap. *)
Definition overflows (o : jemi_out_buf_t) (data : string) : bool :=
  (Z.of_nat (String.length (buf o)) + Z.of_nat (String.length data)
     >? (bufLen o - 1) mod 2 ^ 64)%Z.

Definition writer_fn (ch : ascii) (b : string) : string :=
  b +:+ String ch EmptyString.

(** The character loop of [emit_string]. *)
Fixpoint write_loop (data : string) (b : string) (t : list event)
  : string * list event :=
  match data with
  | EmptyString => (b, t)
  | String ch rest => write_loop rest (writer_fn ch b) (t ++ [Ewrite ch])
  end.

Definition emit_string (data : string) (f : frame) : frame * bool :=
  if overflows (out f) data then
    (mk_frame (addr f) (nd f) (lft f)
       (mk_out (buf (out f)) (bufLen (out f)) true) (tr f ++ [Efull]),
     true)
  else
    let '(b, t) := write_loop data (buf (out f)) (tr f) in
    (mk_frame (addr f) (nd f) (lft f)
       (mk_out b (bufLen (out f)) (full (out f))) t,
     false).

(** [node->state = st]. *)
Definition goto (st : jemi_state_t) (f : frame) : frame :=
  mk_frame (addr f) (set_state st (nd f)) (lft f) (out f)
    (tr f ++ [Estate (addr f) st]).

(** [if (!emit_string(writer_fn, output, text)) node->state = st;] *)
Definition attempt (text : string) (st : jemi_state_t) (f : frame) : frame :=
  let '(f', failed) := emit_string text f in
  if failed then f' else goto st f'.

(** [if (st == node->state) { body }] *)
Definition on_state (st : jemi_state_t) (body : frame → option frame)
    (f : frame) : option frame :=
  if decide (state (nd f) = st) then body f else Some f.

(** The block every case starts with; [n] is [sizeof(buf)] there. *)
Definition key_block (n : nat) : frame → option frame :=
  on_state JEMI_NODE_UNUSED (λ f,
    match key (nd f) with
    | Some k =>
        Some (attempt (snprintf n (dquote +:+ k +:+ dquote +:+ ":"))
                JEMI_KEY_USED f)
    | None => Some (goto JEMI_KEY_USED f)
    end).

(** The block every scalar case ends with. *)
Definition comma_block : frame → option frame :=
  on_state JEMI_VAL_USED (λ f,
    match sibling (nd f) with
    | Some _ => Some (attempt "," JEMI_NODE_USED f)
    | None => Some (goto JEMI_NODE_USED f)
    end).

(** The closing bracket of a container, [c] being ["}"] or ["]"]. *)
Definition close_block (c : string) (f : frame) : frame :=
  attempt (snprintf 3 (match sibling (nd f) with
                       | Some _ => c +:+ ","
                       | None => c
                       end)) JEMI_NODE_USED f.

(** How a case of the [switch] is left. *)
Inductive flow :=
| Break                     (* to the code after the [switch] *)
| Return (r : ptr)          (* [return r;] *)
| Generate (u : nat).       (* about to call [node->update] *)

Definition case_object (f : frame) : option (frame * flow) :=
  f ← key_block 22 f;
  f ← on_state JEMI_KEY_USED
        (λ f, Some (attempt "{" JEMI_CONTAINER_BEGUN f)) f;
  if decide (state (nd f) = JEMI_CONTAINER_BEGUN) then
    let f := goto JEMI_CHILDREN_USED f in
    c ← get_children (nd f);
    Some (f, Return c)
  else
    f ← on_state JEMI_CHILDREN_USED (λ f, Some (close_block "}" f)) f;
    Some (f, Break).

Definition case_array (f : frame) : option (frame * flow) :=
  f ← key_block 22 f;
  f ← on_state JEMI_KEY_USED
        (λ f, Some (attempt "[" JEMI_CONTAINER_BEGUN f)) f;
  if decide (state (nd f) = JEMI_CONTAINER_BEGUN) then
    let f := goto JEMI_CHILDREN_USED f in
    c ← get_children (nd f);
    Some (f, Return c)
  else if decide (state (nd f) = JEMI_CHILDREN_USED) then
    match update (nd f) with
    | Some u =>
        if decide (lft f ≠ 0%Z) then
          let '(f, failed) := emit_string "," f in
          if failed then Some (f, Return (Some (addr f)))
          else Some (f, Generate u)
        else
          let f := mk_frame (addr f) (nd f) (-1)%Z (out f) (tr f) in
          Some (close_block "]" f, Break)
    | None => Some (close_block "]" f, Break)
    end
  else Some (f, Break).

Definition case_integer (f : frame) : option frame :=
  f ← key_block 22 f;
  f ← on_state JEMI_KEY_USED (λ f,
        i ← get_integer (nd f);
        Some (attempt (snprintf 22 (fmt_d i)) JEMI_VAL_USED f)) f;
  comma_block f.

Definition case_float (f : frame) : option frame :=
  f ← key_block 22 f;
  f ← on_state JEMI_KEY_USED (λ f,
        d ← get_number (nd f);
        i ← double_to_int d;
        let text := if Qeq_bool (inject_Z i) d then fmt_d i else fmt_lf d in
        Some (attempt (snprintf 22 text) JEMI_VAL_USED f)) f;
  comma_block f.

Definition case_string (f : frame) : option frame :=
  f ← key_block 30 f;
  f ← on_state JEMI_KEY_USED (λ f,
        str ← get_string (nd f);
        s ← str;                              (* %s of a null pointer *)
        Some (attempt (snprintf 30 (dquote +:+ s +:+ dquote))
                JEMI_VAL_USED f)) f;
  comma_block f.

Definition case_bool (f : frame) : option frame :=
  f ← key_block 22 f;
  f ← on_state JEMI_KEY_USED (λ f,
        Some (attempt
                (if (type_code JEMI_TRUE =? state_code (state (nd f)))%Z
                 then "true" else "false")
                JEMI_VAL_USED f)) f;
  comma_block f.

Definition case_null (f : frame) : option frame :=
  f ← key_block 22 f;
  f ← on_state JEMI_KEY_USED
        (λ f, Some (attempt "null" JEMI_VAL_USED f)) f;
  comma_block f.

(** The [switch (node->type)].  The [JEMI_FLOAT] case has no [break] and
    runs into the [JEMI_STRING] case. *)
Definition switch_type (f : frame) : option (frame * flow) :=
  match type (nd f) with
  | JEMI_OBJECT => case_object f
  | JEMI_ARRAY => case_array f
  | JEMI_INTEGER => f ← case_integer f; Some (f, Break)
  | JEMI_FLOAT => f ← case_float f; f ← case_string f; Some (f, Break)
  | JEMI_STRING => f ← case_string f; Some (f, Break)
  | JEMI_TRUE | JEMI_FALSE => f ← case_bool f; Some (f, Break)
  | JEMI_NULL => f ← case_null f; Some (f, Break)
  end.

(** The code after the [switch]. *)
Definition after_switch (f : frame) : ptr :=
  if decide (state (nd f) ≠ JEMI_NODE_USED) then Some (addr f)
  else match sibling (nd f) with
       | Some sb => Some sb
       | None => parent (nd f)
       end.

(** The whole state of an emission. *)
Record emitter := mk_emitter {
  mem : store;
  left : Z;            (* [static int left] of [emit_aux] *)
  output : jemi_out_buf_t;
  trace : list event
}.

Definition load (p : nat) (e : emitter) : option frame :=
  x ← peek p (mem e);
  Some (mk_frame p x (left e) (output e) (trace e)).

Definition unload (f : frame) (s : store) : emitter :=
  mk_emitter (mk_store (<[addr f := nd f]> (pool s)) (s_jemi_freelist s))
    (lft f) (out f) (tr f).

Section Emit.

(** [call_update u s c] is the effect of calling generator [u] with
    argument [c]: the store it leaves and the value it returns. *)
Variable call_update : nat → store → ptr → store * Z.

Definition emit_aux (node : nat) (e : emitter) : option (emitter * ptr) :=
  f ← load node e;
  '(f, fl) ← switch_type f;
  let e := unload f (mem e) in
  match fl with
  | Break => Some (e, after_switch f)
  | Return r => Some (e, r)
  | Generate u =>
      c ← get_children (nd f);
      let '(s, v) := call_update u (mem e) c in
      let lf := (v mod 256)%Z in              (* the callback returns uint8_t *)
      let e := mk_emitter s lf (output e) (trace e ++ [Eupdate node]) in
      if decide (lf ≠ (-1)%Z) then
        x ← peek node s;
        c ← get_children x;
        Some (e, c)
      else
        f ← load node e;
        let f := close_block "]" f in
        Some (unload f (mem e), after_switch f)
  end.

(** The [do ... while] loop of [jemi_emit]. *)
Fixpoint emit_loop (fuel : nat) (next_node : ptr) (e : emitter)
  : option (emitter * ptr) :=
  match fuel with
  | O => None
  | S fuel' =>
      n ← next_node;
      '(e, next_node) ← emit_aux n e;
      if bool_decide (next_node ≠ None) && negb (full (output e))
      then emit_loop fuel' next_node e
      else Some (e, next_node)
  end.

Definition jemi_emit (fuel : nat) (root : ptr) (e : emitter)
  : option (emitter * ptr) :=
  '(e, next_node) ← emit_loop fuel root e;
  Some (mk_emitter (mem e) (left e) (output e) (trace e ++ [Ewrite NUL]),
        next_node).

End Emit.

(** The characters of a string, as [writer_fn] receives them. *)
Definition chars (s : string) : list event :=
  map Ewrite (list_ascii_of_string s).

(** ** The caller of [jemi_emit] *)

(** A fresh emission of the tree in [s] into an empty sink of [bufLen]
    [cap]; [left] has its initial value. *)
Definition start (s : store) (cap : Z) : emitter :=
  mk_emitter s (-1) (mk_out "" cap false) [].

(** The caller's part between two calls of [jemi_emit]: an empty sink of
    [bufLen] [cap]. *)
Definition refill (e : emitter) (cap : Z) : emitter :=
  mk_emitter (mem e) (left e) (mk_out "" cap false) (trace e).

(** The caller's side of section 4.3: [jemi_emit] is called once per sink
    capacity in [caps], each time with an empty sink and the node the
    previous call returned, until a call returns the null pointer.  The
    result lists the contents of the sink after each call. *)
Fixpoint emit_chunks (g : nat → store → ptr → store * Z) (fuel : nat)
    (caps : list Z) (node : ptr) (e : emitter)
  : option (list string * ptr) :=
  match caps with
  | [] => Some ([], node)
  | cap :: caps' =>
      match node with
      | None => Some ([], None)
      | Some _ =>
          '(e1, next) ← jemi_emit g fuel node (refill e cap);
          '(outs, fin) ← emit_chunks g fuel caps' next e1;
          Some (buf (output e1) :: outs, fin)
      end
  end.

Fixpoint concat_all (l : list string) : string :=
  match l with
  | [] => ""
  | s :: l' => s +:+ concat_all l'
  end.

(** ** The automaton of the specification

    Section 4.3 of the specification describes the emission of a node as a
    walk through its states in which every transition writes at most one
    fragment, atomically.  [plan] lists the transitions one call of the
    automaton makes for a node in its current state: [Emit text st] writes
    the fragment [text] and moves to [st], [Quiet st] moves to [st] and
    writes nothing.  [run_plan] performs them in order and stops at the
    first fragment the sink rejects.  The fragment texts are the ones the
    code formats. *)
Inductive action :=
| Quiet (st : jemi_state_t)
| Emit (text : string) (st : jemi_state_t).

Definition key_action (n : nat) (x : jemi_node_t) : action :=
  match key x with
  | Some k => Emit (snprintf n (dquote +:+ k +:+ dquote +:+ ":")) JEMI_KEY_USED
  | None => Quiet JEMI_KEY_USED
  end.

Definition comma_action (x : jemi_node_t) : action :=
  match sibling x with
  | Some _ => Emit "," JEMI_NODE_USED
  | None => Quiet JEMI_NODE_USED
  end.

Definition close_action (c : string) (x : jemi_node_t) : action :=
  Emit (snprintf 3 (match sibling x with
                    | Some _ => c +:+ ","
                    | None => c
                    end)) JEMI_NODE_USED.

(** The literal of a scalar node, and the size of the buffer its key is
    formatted in. *)
Definition literal (x : jemi_node_t) : option string :=
  match type x with
  | JEMI_INTEGER => i ← get_integer x; Some (snprintf 22 (fmt_d i))
  | JEMI_STRING =>
      str ← get_string x; s ← str;
      Some (snprintf 30 (dquote +:+ s +:+ dquote))
  | JEMI_TRUE | JEMI_FALSE => Some "false"
  | JEMI_NULL => Some "null"
  | _ => None
  end.

Definition key_size (x : jemi_node_t) : nat :=
  match type x with JEMI_STRING => 30 | _ => 22 end.

Definition is_container (x : jemi_node_t) : bool :=
  match type x with JEMI_OBJECT | JEMI_ARRAY => true | _ => false end.

Definition brackets (x : jemi_node_t) : string * string :=
  match type x with JEMI_OBJECT => ("{", "}") | _ => ("[", "]") end.

(** Whether this call ends by handing control to the first child. *)
Definition descends (x : jemi_node_t) : bool :=
  is_container x &&
  match state x with
  | JEMI_NODE_UNUSED | JEMI_KEY_USED | JEMI_CONTAINER_BEGUN => true
  | _ => false
  end.

Definition plan (x : jemi_node_t) : option (list action) :=
  if is_container x then
    match state x with
    | JEMI_NODE_UNUSED =>
        _ ← get_children x;
        Some [key_action 22 x; Emit (brackets x).1 JEMI_CONTAINER_BEGUN;
              Quiet JEMI_CHILDREN_USED]
    | JEMI_KEY_USED =>
        _ ← get_children x;
        Some [Emit (brackets x).1 JEMI_CONTAINER_BEGUN;
              Quiet JEMI_CHILDREN_USED]
    | JEMI_CONTAINER_BEGUN =>
        _ ← get_children x;
        Some [Quiet JEMI_CHILDREN_USED]
    | JEMI_CHILDREN_USED => Some [close_action (brackets x).2 x]
    | _ => Some []
    end
  else
    match state x with
    | JEMI_NODE_UNUSED =>
        l ← literal x;
        Some [key_action (key_size x) x; Emit l JEMI_VAL_USED; comma_action x]
    | JEMI_KEY_USED =>
        l ← literal x;
        Some [Emit l JEMI_VAL_USED; comma_action x]
    | JEMI_VAL_USED => Some [comma_action x]
    | _ => Some []
    end.

Fixpoint run_plan (acts : list action) (f : frame) : frame * bool :=
  match acts with
  | [] => (f, false)
  | Quiet st :: rest => run_plan rest (goto st f)
  | Emit text st :: rest =>
      let '(f', failed) := emit_string text f in
      if failed then (f', true) else run_plan rest (goto st f')
  end.

(** The fragments of a list of transitions, concatenated, and the state
    they lead to from [st]. *)
Fixpoint texts (acts : list action) : string :=
  match acts with
  | [] => ""
  | Quiet _ :: rest => texts rest
  | Emit t _ :: rest => t +:+ texts rest
  end.

Fixpoint state_after (st : jemi_state_t) (acts : list action) : jemi_state_t :=
  match acts with
  | [] => st
  | Quiet st' :: rest => state_after st' rest
  | Emit _ st' :: rest => state_after st' rest
  end.

(** The number of transitions of [acts] completed before the sink [o]
    rejects a fragment, and the history they leave for the node at [p]. *)
Fixpoint accepted (acts : list action) (o : jemi_out_buf_t) : nat :=
  match acts with
  | [] => 0
  | Quiet _ :: rest => S (accepted rest o)
  | Emit t _ :: rest =>
      if overflows o t then 0
      else S (accepted rest (mk_out (buf o +:+ t) (bufLen o) (full o)))
  end.

Fixpoint events (p : nat) (acts : list action) : list event :=
  match acts with
  | [] => []
  | Quiet st :: rest => Estate p st :: events p rest
  | Emit t st :: rest => chars t ++ Estate p st :: events p rest
  end.

(** Where [emit_aux] continues after a call in which no fragment was
    rejected: [x] is the node before the call, [x'] after it. *)
Definition continue (p : nat) (x x' : jemi_node_t) : ptr :=
  if descends x then default None (get_children x)
  else if decide (state x' ≠ JEMI_NODE_USED) then Some p
       else match sibling x' with
            | Some sb => Some sb
            | None => parent x'
            end.

(** The nodes the specification's automaton covers: no [JEMI_FLOAT] (whose
    case runs into the string case) and no array with a generator. *)
Definition plain (x : jemi_node_t) : Prop :=
  type x ≠ JEMI_FLOAT ∧ (type x = JEMI_ARRAY → update x = None).

(** A node the automaton of the specification can emit: it is [plain] and
    its union holds the member its type reads. *)
Definition emittable (x : jemi_node_t) : Prop :=
  plain x ∧
  if is_container x then is_Some (get_children x) else is_Some (literal x).

(** From node [p] in store [s], with [acc] already in a sink of [bufLen]
    [B], the loop of [jemi_emit] runs to the end of the tree in at most [k]
    calls of [emit_aux], without filling the sink, and leaves [OUT] in
    it. *)
Definition completes (g : nat → store → ptr → store * Z) (B : Z)
    (OUT : string) (k : nat) (s : store) (l : Z) (p : ptr) (acc : string)
  : Prop :=
  match p with
  | None => acc = OUT
  | Some n =>
      ∃ t eF,
        emit_loop g k (Some n) (mk_emitter s l (mk_out acc B false) t)
          = Some (eF, None) ∧
        full (output eF) = false ∧ buf (output eF) = OUT
  end.

(** The number of transitions the node at [n] has left in the current call
    of [emit_aux], and a sink that is empty and has room for any one
    fragment (a fragment has at most 29 characters). *)
Definition todo (s : store) (n : nat) : nat :=
  match peek n s with
  | Some x => length (default [] (plan x))
  | None => 0
  end.

Definition roomy (o : jemi_out_buf_t) : Prop :=
  buf o = "" ∧ (30 ≤ bufLen o < 2 ^ 64)%Z.

(** The nodes of a tree.  [linked s p q]: in store [s] the node at [p] has
    [q] as its sibling, its parent or its first child.  [reach s p q]: [q]
    is [p] or can be reached from [p] through such links; these are the
    nodes an emission that starts at [p] can visit. *)
Definition linked (s : store) (p q : nat) : Prop :=
  ∃ x, peek p s = Some x ∧
       (sibling x = Some q ∨ parent x = Some q ∨
        get_children x = Some (Some q)).

Inductive reach (s : store) (p : nat) : nat → Prop :=
| reach_here : reach s p p
| reach_step q r : reach s p q → linked s q r → reach s p r.

(** The set [P] of slots is closed under the links of [s] and every node
    of it is emittable. *)
Definition sound (P : nat → Prop) (s : store) : Prop :=
  ∀ q x, P q → peek q s = Some x →
    emittable x ∧
    ∀ r, sibling x = Some r ∨ parent x = Some r ∨
         get_children x = Some (Some r) → P r.

(** The first fragment a plan writes. *)
Fixpoint next_fragment (acts : list action) : option string :=
  match acts with
  | [] => None
  | Quiet _ :: rest => next_fragment rest
  | Emit t _ :: _ => Some t
  end.

(** ** Quiescence

    [no_full t]: the history [t] has no assignment [output->full = true].
    [all_full t]: it has nothing else.  [calm t]: from the first such
    assignment on it has nothing else, that is, once the sink is marked
    full no character is written, no state is assigned and no generator is
    called. *)
Fixpoint no_full (t : list event) : Prop :=
  match t with
  | [] => True
  | Efull :: _ => False
  | _ :: rest => no_full rest
  end.

Fixpoint all_full (t : list event) : Prop :=
  match t with
  | [] => True
  | Efull :: rest => all_full rest
  | _ :: _ => False
  end.

Fixpoint calm (t : list event) : Prop :=
  match t with
  | [] => True
  | Efull :: rest => all_full rest
  | _ :: rest => calm rest
  end.

(** ** Fixtures *)

(** The generator table of a tree without streaming arrays. *)
Definition no_update : nat → store → ptr → store * Z := λ _ s _, (s, 0%Z).

(** A generator for an array with one integer child: it puts the next
    integer into the child, makes the child emittable again and reports
    that nothing is left after this one. *)
Definition gen_last : nat → store → ptr → store * Z := λ _ s c,
  match c with
  | Some n =>
      match poke n (λ x, set_state JEMI_NODE_UNUSED
                           (set_payload
                              (Integer (default 0%Z (get_integer x) + 1)) x)) s
      with
      | Some s' => (s', 0%Z)
      | None => (s, 0%Z)
      end
  | None => (s, 0%Z)
  end.

(** An arena of two slots after two integer constructions: the freelist is
    empty. *)
Definition exhausted : option store :=
  '(s, _) ← jemi_integer None 1 (jemi_reset 2);
  '(s, _) ← jemi_integer None 2 s;
  Some s.

(** [arr = jemi_array(NULL, NULL);
     jemi_array_append(arr, jemi_list(jemi_integer(NULL, 1),
                                      jemi_integer(NULL, 2), NULL));]
    Returns the store, [arr] and the two elements. *)
Definition appended : option (store * ptr * nat * nat) :=
  '(s, a) ← jemi_integer None 1 (jemi_reset 3);
  '(s, b) ← jemi_integer None 2 s;
  a ← a; b ← b;
  '(s, l) ← jemi_list [a; b] s;
  '(s, arr) ← jemi_array None [] s;
  '(s, arr) ← jemi_array_append 3 arr l s;
  Some (s, arr, a, b).

(** The same with [jemi_object] and [jemi_object_append]. *)
Definition appended_object : option (store * ptr * nat * nat) :=
  '(s, a) ← jemi_integer (Some "a") 1 (jemi_reset 3);
  '(s, b) ← jemi_integer (Some "b") 2 s;
  a ← a; b ← b;
  '(s, l) ← jemi_list [a; b] s;
  '(s, obj) ← jemi_object None [] s;
  '(s, obj) ← jemi_object_append 3 obj l s;
  Some (s, obj, a, b).

(** A [JEMI_FLOAT] node holding [1.5], cloned by [jemi_copy].  Returns the
    store, the source and the clone. *)
Definition float_copy : option (store * nat * ptr) :=
  '(s, f) ← jemi_alloc JEMI_FLOAT (jemi_reset 2);
  '(s, f) ← jemi_float_set f (3 # 2) s;
  f' ← f;
  '(s, c) ← jemi_copy 2 f s;
  Some (s, f', c).

(** [{"a":1,"b":"x"}], emitted in full and then cloned with [jemi_copy].
    Returns the store and the clone. *)
Definition copied_object : option (store * ptr) :=
  '(s, a) ← jemi_integer (Some "a") 1 (jemi_reset 6);
  '(s, b) ← jemi_string (Some "b") (Some "x") s;
  a ← a; b ← b;
  '(s, o) ← jemi_object None [a; b] s;
  '(e, _) ← jemi_emit no_update 20 o (start s 100);
  jemi_copy 10 o (mem e).

(** [jemi_true()] as the whole tree. *)
Definition lone_true : option (store * ptr) := jemi_true (jemi_reset 1).

(** [jemi_string(NULL, ...)] with a string of 28 characters. *)
Definition long_string : option (store * ptr) :=
  jemi_string None (Some "abcdefghijklmnopqrstuvwxyz01") (jemi_reset 1).

(** A lone [JEMI_TRUE] node whose key phase is over, and an empty sink. *)
Definition true_key_used : emitter :=
  start (mk_store [mk_node None None JEMI_TRUE JEMI_KEY_USED None Zeroed None]
           None) 100.

(** A lone string node holding a string of 28 characters whose key phase
    is over. *)
Definition long_string_key_used : emitter :=
  start (mk_store [mk_node None None JEMI_STRING JEMI_KEY_USED None
                     (Str (Some "abcdefghijklmnopqrstuvwxyz01")) None]
           None) 100.

(** [jemi_array_updateable(NULL, gen, 1, jemi_integer(NULL, 1), NULL)]. *)
Definition streaming : option (store * ptr) :=
  '(s, c) ← jemi_integer None 1 (jemi_reset 2);
  c ← c;
  jemi_array_updateable None (Some 0) 1 [c] s.

(** The streaming array after a first call with room for two characters:
    the array is in [JEMI_CHILDREN_USED] and was returned for resumption. *)
Definition streaming_suspended : option (emitter * ptr) :=
  '(s, r) ← streaming;
  jemi_emit gen_last 5 r (start s 3).

(** A streaming array whose last batch has been emitted: the array is in
    [JEMI_CHILDREN_USED], its child is used, [left] is zero and the sink has
    room for the bracket. *)
Definition streaming_closing : emitter :=
  mk_emitter
    (mk_store [mk_node None None JEMI_ARRAY JEMI_CHILDREN_USED None
                 (Children (Some 1)) (Some 0);
               mk_node None (Some 0) JEMI_INTEGER JEMI_NODE_USED None
                 (Integer 2) None] None)
    0 (mk_out "[1,2" 100 false) [].

(** The suspended streaming array with a fresh sink of 100 bytes. *)
Definition streaming_resumed : emitter :=
  Eval vm_compute in
  match streaming_suspended with
  | Some (e, _) => refill e 100
  | None => start (jemi_reset 0) 100
  end.

(** [{"a":1,"b":2}] (scenario 3 of the specification). *)
Definition object_ab : option (store * ptr) :=
  '(s, a) ← jemi_integer (Some "a") 1 (jemi_reset 4);
  '(s, b) ← jemi_integer (Some "b") 2 s;
  a ← a; b ← b;
  jemi_object None [a; b] s.

(** The first member of [object_ab], its plan, and the emission after the
    first call of [emit_aux] into a sink of five bytes: the brace is
    written and four characters of room are left. *)
Definition member_a : jemi_node_t :=
  mk_node (Some 2) (Some 1) JEMI_INTEGER JEMI_NODE_UNUSED (Some "a")
    (Integer 1) None.

Definition plan_a : list action :=
  Eval vm_compute in default [] (plan member_a).

Definition object_ab_opened : emitter :=
  Eval vm_compute in
  match object_ab with
  | Some (s, Some r) =>
      match emit_aux no_update r (start s 5) with
      | Some (e, _) => e
      | None => start s 5
      end
  | _ => start (jemi_reset 0) 5
  end.

(** [object_ab] before emission, the emission after one call of
    [jemi_emit] into a sink of 100 bytes, the emission after one call into
    a sink of 5 bytes, which stops in front of the first key with the sink
    marked full, and the sink contents of five resumed calls into sinks of
    5 bytes (scenario 4 of the specification). *)
Definition object_ab_start : emitter :=
  Eval vm_compute in
  match object_ab with
  | Some (s, _) => start s 0
  | None => start (jemi_reset 0) 0
  end.

Definition object_ab_single : emitter :=
  Eval vm_compute in
  match jemi_emit no_update 20 (Some 1) (refill object_ab_start 100) with
  | Some (e, _) => e
  | None => object_ab_start
  end.

Definition object_ab_suspended : emitter :=
  Eval vm_compute in
  match jemi_emit no_update 20 (Some 1) (refill object_ab_start 5) with
  | Some (e, _) => e
  | None => object_ab_start
  end.

Definition object_ab_chunks : list string :=
  Eval vm_compute in
  match emit_chunks no_update 20 [5; 5; 5; 5; 5]%Z (Some 1) object_ab_start with
  | Some (outs, _) => outs
  | None => []
  end.

(** [object_ab] built after a [JEMI_FLOAT] node holding [1.5], in a pool of
    five slots: the Float node in slot 4 is no part of the tree, whose
    nodes are in slots 1, 3 and 2.  Before emission, and after one call of
    [jemi_emit] into a sink of 100 bytes. *)
Definition beside_float : emitter :=
  Eval vm_compute in
  match ('(s, f) ← jemi_alloc JEMI_FLOAT (jemi_reset 5);
         '(s, _) ← jemi_float_set f (3 # 2) s;
         '(s, a) ← jemi_integer (Some "a") 1 s;
         '(s, b) ← jemi_integer (Some "b") 2 s;
         a ← a; b ← b;
         '(s, _) ← jemi_object None [a; b] s; Some s) with
  | Some s => start s 0
  | None => start (jemi_reset 0) 0
  end.

Definition beside_float_single : emitter :=
  Eval vm_compute in
  match jemi_emit no_update 4 (Some 1) (refill beside_float 100) with
  | Some (e, _) => e
  | None => beside_float
  end.

(** A lone [JEMI_FLOAT] node holding [1.5], not yet emitted, and a sink of
    four bytes: the literal has eight characters. *)
Definition float_node : jemi_node_t :=
  mk_node None None JEMI_FLOAT JEMI_NODE_UNUSED None (Number (3 # 2)) None.

Definition float_tight : emitter :=
  start (mk_store [float_node] None) 4.

(** [f] with the union of its node holding the string [s]. *)
Definition holding (s : string) (f : frame) : frame :=
  mk_frame (addr f) (set_payload (Str (Some s)) (nd f)) (lft f) (out f) (tr f).

(** ** Allocation order

    The pointers a run of [k] allocation requests returns after
    [jemi_reset] on [n] slots, as read off the freelist that [jemi_reset]
    builds: the highest slot first. *)
Definition alloc_order (n k : nat) : list ptr :=
  map (λ i, if decide (i < n) then Some (n - 1 - i) else None) (seq 0 k).

(** The freelist of [free_chain] with every slot on it still as [memset]
    left it. *)
Definition fresh_chain (m : nat) (s : store) : Prop :=
  s_jemi_freelist s = pred_ptr m ∧
  ∀ j, j < m → pool s !! j = Some (set_sibling (pred_ptr j) zero_node).

(** ** Trees

    A [forest] describes a chain of siblings in the pool as a user of the
    library sees it: every node with the slot it lives in, its key and its
    value, a container with the forest of its children.  [render] is the
    text a recursive printer writes for it, with the fragments formatted as
    [emit_aux] formats them (a key in a buffer of 22 bytes, 30 for a string
    node; both boolean types as [false]). *)
Inductive scalar :=
| SInt (i : Z)
| SStr (s : string)
| STrue
| SFalse
| SNull.

Inductive bracket := Obj | Arr.

Inductive forest :=
| Nil
| Leaf (a : nat) (k : cstr) (v : scalar) (rest : forest)
| Box (a : nat) (k : cstr) (b : bracket) (children rest : forest).

Definition first (f : forest) : ptr :=
  match f with
  | Nil => None
  | Leaf a _ _ _ | Box a _ _ _ _ => Some a
  end.

Fixpoint addrs (f : forest) : list nat :=
  match f with
  | Nil => []
  | Leaf a _ _ rest => a :: addrs rest
  | Box a _ _ ch rest => a :: addrs ch ++ addrs rest
  end.

Definition scalar_type (v : scalar) : jemi_type_t :=
  match v with
  | SInt _ => JEMI_INTEGER
  | SStr _ => JEMI_STRING
  | STrue => JEMI_TRUE
  | SFalse => JEMI_FALSE
  | SNull => JEMI_NULL
  end.

Definition bracket_type (b : bracket) : jemi_type_t :=
  match b with Obj => JEMI_OBJECT | Arr => JEMI_ARRAY end.

(** The node [x] holds the scalar [v]. *)
Definition holds (x : jemi_node_t) (v : scalar) : Prop :=
  type x = scalar_type v ∧
  match v with
  | SInt i => get_integer x = Some i
  | SStr s => get_string x = Some (Some s)
  | _ => True
  end.

(** The forest [f] is in the store, not yet emitted, below the node
    [par]: every node is in its slot with its links as the constructors
    set them. *)
Fixpoint laid (s : store) (par : ptr) (f : forest) : Prop :=
  match f with
  | Nil => True
  | Leaf a k v rest =>
      (∃ x, peek a s = Some x ∧ sibling x = first rest ∧ parent x = par ∧
            state x = JEMI_NODE_UNUSED ∧ key x = k ∧ holds x v) ∧
      laid s par rest
  | Box a k b ch rest =>
      (∃ x, peek a s = Some x ∧ sibling x = first rest ∧ parent x = par ∧
            state x = JEMI_NODE_UNUSED ∧ key x = k ∧
            type x = bracket_type b ∧ get_children x = Some (first ch) ∧
            update x = None) ∧
      laid s (Some a) ch ∧ laid s par rest
  end.

(** No container of the forest is empty. *)
Fixpoint inhabited (f : forest) : Prop :=
  match f with
  | Nil => True
  | Leaf _ _ _ rest => inhabited rest
  | Box _ _ _ ch rest => ch ≠ Nil ∧ inhabited ch ∧ inhabited rest
  end.

Definition key_text (n : nat) (k : cstr) : string :=
  match k with
  | Some k => snprintf n (dquote +:+ k +:+ dquote +:+ ":")
  | None => ""
  end.

Definition scalar_text (v : scalar) : string :=
  match v with
  | SInt i => snprintf 22 (fmt_d i)
  | SStr s => snprintf 30 (dquote +:+ s +:+ dquote)
  | STrue | SFalse => "false"
  | SNull => "null"
  end.

Definition scalar_key_size (v : scalar) : nat :=
  match v with SStr _ => 30 | _ => 22 end.

Definition comma (rest : forest) : string :=
  match rest with Nil => "" | _ => "," end.

Definition opening (b : bracket) : string :=
  match b with Obj => "{" | Arr => "[" end.

Definition closing (b : bracket) : string :=
  match b with Obj => "}" | Arr => "]" end.

Fixpoint render (f : forest) : string :=
  match f with
  | Nil => ""
  | Leaf _ k v rest =>
      key_text (scalar_key_size v) k +:+ scalar_text v +:+ comma rest +:+
      render rest
  | Box _ k b ch rest =>
      key_text 22 k +:+ opening b +:+ render ch +:+ closing b +:+
      comma rest +:+ render rest
  end.

(** The number of calls of [emit_aux] the forest takes: one for a scalar,
    two for a container besides those of its children. *)
Fixpoint steps (f : forest) : nat :=
  match f with
  | Nil => 0
  | Leaf _ _ _ rest => 1 + steps rest
  | Box _ _ _ ch rest => 2 + steps ch + steps rest
  end.

(** [object_ab] as a forest: the object in slot 1, its members in slots 3
    and 2. *)
Definition object_ab_forest : forest :=
  Box 1 None Obj
    (Leaf 3 (Some "a") (SInt 1) (Leaf 2 (Some "b") (SInt 2) Nil)) Nil.

(** [{"a":[],"b":1}]: an object whose first member is an empty array, and
    the emission of it by one call of [jemi_emit] into a sink of 100
    bytes. *)
Definition nested_empty : option (store * ptr) :=
  '(s, arr) ← jemi_array (Some "a") [] (jemi_reset 3);
  '(s, b) ← jemi_integer (Some "b") 1 s;
  arr ← arr; b ← b;
  jemi_object None [arr; b] s.

Definition nested_empty_start : emitter :=
  Eval vm_compute in
  match nested_empty with
  | Some (s, _) => start s 100
  | None => start (jemi_reset 0) 100
  end.

(** ** The sink

    The contents of the sink [o] and their terminator fit in the [bufLen]
    bytes the caller announced. *)
Definition within (o : jemi_out_buf_t) : Prop :=
  (1 ≤ bufLen o < 2 ^ 64)%Z ∧
  (Z.of_nat (String.length (buf o)) ≤ bufLen o - 1)%Z.

(** ** Building trees

    [single t]: the forest [t] is one tree.  [join ts] is the forest of
    the trees [ts] as siblings, in order, and [tops ts] lists the slots of
    their roots: the arguments a variadic constructor receives. *)
Definition single (t : forest) : Prop :=
  match t with
  | Leaf _ _ _ Nil | Box _ _ _ _ Nil => True
  | _ => False
  end.

Fixpoint join (ts : list forest) : forest :=
  match ts with
  | [] => Nil
  | Nil :: ts' => join ts'
  | Leaf a k v _ :: ts' => Leaf a k v (join ts')
  | Box a k b ch _ :: ts' => Box a k b ch (join ts')
  end.

Definition tops (ts : list forest) : list nat := omap first ts.

(** The result [r] of a scalar constructor called in store [s]: the node
    is in slot [m], a tree of its own holding [v] under key [k]; the
    freelist keeps its [m] fresh slots and no other slot has changed. *)
Definition leaf_built (r : option (store * ptr)) (m : nat) (s : store)
    (k : cstr) (v : scalar) : Prop :=
  ∃ s', r = Some (s', Some m) ∧
        laid s' None (Leaf m k v Nil) ∧
        fresh_chain m s' ∧
        ∀ q, q ≠ m → peek q s' = peek q s.

(** The store after [jemi_integer("a", 1)] and [jemi_integer("b", 2)] on a
    pool of four slots, and the two nodes as trees. *)
Definition two_integers : store :=
  Eval vm_compute in
  match ('(s, _) ← jemi_integer (Some "a") 1 (jemi_reset 4);
         '(s, _) ← jemi_integer (Some "b") 2 s; Some s) with
  | Some s => s
  | None => jemi_reset 0
  end.

Definition integer_a : forest := Leaf 3 (Some "a") (SInt 1) Nil.
Definition integer_b : forest := Leaf 2 (Some "b") (SInt 2) Nil.

(** ** Appending

    [fapp f1 f2]: the siblings [f1] followed by the siblings [f2].
    [last_from prev f]: the slot of the last sibling of [f], or [prev] when
    [f] is empty.  [width f]: the number of siblings. *)
Fixpoint fapp (f1 f2 : forest) : forest :=
  match f1 with
  | Nil => f2
  | Leaf a k v rest => Leaf a k v (fapp rest f2)
  | Box a k b ch rest => Box a k b ch (fapp rest f2)
  end.

Fixpoint last_from (prev : ptr) (f : forest) : ptr :=
  match f with
  | Nil => prev
  | Leaf a _ _ rest | Box a _ _ _ rest => last_from (Some a) rest
  end.

Fixpoint width (f : forest) : nat :=
  match f with
  | Nil => 0
  | Leaf _ _ _ rest | Box _ _ _ _ rest => S (width rest)
  end.

(** ** Copies

    [clone m f]: the forest [jemi_copy] builds for [f] when the freelist
    holds [m] fresh slots: the nodes of [f] in the order [copy_node] meets
    them, in slots [m - 1], [m - 2], ..., without their keys.
    [orphaned s f]: the forest [f] is in the store as [laid] has it, except
    that no node has a parent. *)
Fixpoint clone (m : nat) (f : forest) : forest :=
  match f with
  | Nil => Nil
  | Leaf _ _ v rest => Leaf (m - 1) None v (clone (m - 1) rest)
  | Box _ _ b ch rest =>
      Box (m - 1) None b (clone (m - 1) ch)
        (clone (m - 1 - length (addrs ch)) rest)
  end.

Fixpoint orphaned (s : store) (f : forest) : Prop :=
  match f with
  | Nil => True
  | Leaf a k v rest =>
      (∃ x, peek a s = Some x ∧ sibling x = first rest ∧ parent x = None ∧
            state x = JEMI_NODE_UNUSED ∧ key x = k ∧ holds x v) ∧
      orphaned s rest
  | Box a k b ch rest =>
      (∃ x, peek a s = Some x ∧ sibling x = first rest ∧ parent x = None ∧
            state x = JEMI_NODE_UNUSED ∧ key x = k ∧
            type x = bracket_type b ∧ get_children x = Some (first ch) ∧
            update x = None) ∧
      orphaned s ch ∧ orphaned s rest
  end.

(** What the loop of [jemi_copy] does for the forest [f], from any point
    of the loop: with [f] in the store, [m] fresh slots on the freelist
    below the slots of [f], room for the clone and enough fuel, the loop
    returns [r2], or the first node of the clone when [r2] is null; the
    clone is in the store without parents, the node [prev] has the clone as
    its sibling, and no other slot from [m] on has changed. *)
Definition clones (f : forest) : Prop :=
  ∀ s par m fuel r2 prev,
    laid s par f → fresh_chain m s → length (addrs f) ≤ m →
    (∀ q, q ∈ addrs f → m ≤ q) → steps f < fuel →
    (∀ p, prev = Some p → m ≤ p ∧ (p ∉ addrs f) ∧ is_Some (pool s !! p)) →
    ∃ s',
      copy_loop fuel (first f) r2 prev s =
        Some (s', match r2 with Some _ => r2 | None => first (clone m f) end) ∧
      fresh_chain (m - length (addrs f)) s' ∧
      orphaned s' (clone m f) ∧
      (∀ q, m ≤ q → prev ≠ Some q → pool s' !! q = pool s !! q) ∧
      (∀ p, prev = Some p →
            pool s' !! p =
            match first f with
            | Some _ => set_sibling (first (clone m f)) <$> pool s !! p
            | None => pool s !! p
            end).

(** ** Setters on a tree

    [value_at a f]: the scalar of the leaf of [f] in slot [a].
    [fset a v f]: the forest [f] with that scalar replaced by [v]. *)
Fixpoint value_at (a : nat) (f : forest) : option scalar :=
  match f with
  | Nil => None
  | Leaf a' _ v rest => if decide (a' = a) then Some v else value_at a rest
  | Box _ _ _ ch rest =>
      match value_at a ch with
      | Some v => Some v
      | None => value_at a rest
      end
  end.

Fixpoint fset (a : nat) (v : scalar) (f : forest) : forest :=
  match f with
  | Nil => Nil
  | Leaf a' k v' rest =>
      Leaf a' k (if decide (a' = a) then v else v') (fset a v rest)
  | Box a' k b ch rest => Box a' k b (fset a v ch) (fset a v rest)
  end.

(** The store after [jemi_integer(NULL, 1)], [jemi_integer(NULL, 2)],
    [jemi_array] of the two and [jemi_integer(NULL, 7)] on a pool of five
    slots: the array in slot 2 with its children in slots 4 and 3, the
    lone integer in slot 1. *)
Definition array_12_and_item : store :=
  Eval vm_compute in
  match ('(s, a) ← jemi_integer None 1 (jemi_reset 5);
         '(s, b) ← jemi_integer None 2 s;
         a ← a; b ← b;
         '(s, _) ← jemi_array None [a; b] s;
         '(s, _) ← jemi_integer None 7 s; Some s) with
  | Some s => s
  | None => jemi_reset 0
  end.

Definition children_12 : forest :=
  Leaf 4 None (SInt 1) (Leaf 3 None (SInt 2) Nil).

(** An object with an integer, a string and a boolean member on a pool of
    four slots, as a store and as a forest: the object in slot 0, its
    members in slots 3, 2 and 1. *)
Definition object_nsb : store :=
  Eval vm_compute in
  match ('(s, n) ← jemi_integer (Some "n") 1 (jemi_reset 4);
         '(s, t) ← jemi_string (Some "s") (Some "x") s;
         '(s, b) ← jemi_bool (Some "b") false s;
         n ← n; t ← t; b ← b;
         '(s, _) ← jemi_object None [n; t; b] s; Some s) with
  | Some s => s
  | None => jemi_reset 0
  end.

Definition object_nsb_forest : forest :=
  Box 0 None Obj
    (Leaf 3 (Some "n") (SInt 1)
       (Leaf 2 (Some "s") (SStr "x") (Leaf 1 (Some "b") SFalse Nil))) Nil.

(** An object of three members whose text has 42 characters: before
    emission, after one call of [jemi_emit] into a sink of 30 bytes, and as
    a forest: the object in slot 0, its members in slots 3, 2 and 1. *)
Definition object_abg : emitter :=
  Eval vm_compute in
  match ('(s, a) ← jemi_integer (Some "alpha") 11111 (jemi_reset 4);
         '(s, b) ← jemi_integer (Some "beta") 22222 s;
         '(s, c) ← jemi_integer (Some "gamma") 33333 s;
         a ← a; b ← b; c ← c;
         '(s, _) ← jemi_object None [a; b; c] s; Some s) with
  | Some s => start s 0
  | None => start (jemi_reset 0) 0
  end.

Definition object_abg_suspended : emitter :=
  Eval vm_compute in
  match jemi_emit no_update 5 (Some 0) (refill object_abg 30) with
  | Some (e, _) => e
  | None => object_abg
  end.

Definition object_abg_forest : forest :=
  Box 0 None Obj
    (Leaf 3 (Some "alpha") (SInt 11111)
       (Leaf 2 (Some "beta") (SInt 22222)
          (Leaf 1 (Some "gamma") (SInt 33333) Nil))) Nil.

(** The object of [object_ab] built in a pool of seven slots, as a store
    and as a forest, and the store after [jemi_copy] of it. *)
Definition object_ab_roomy : store :=
  Eval vm_compute in
  match ('(s, a) ← jemi_integer (Some "a") 1 (jemi_reset 7);
         '(s, b) ← jemi_integer (Some "b") 2 s;
         a ← a; b ← b;
         '(s, _) ← jemi_object None [a; b] s; Some s) with
  | Some s => s
  | None => jemi_reset 0
  end.

Definition members_ab : forest :=
  Leaf 6 (Some "a") (SInt 1) (Leaf 5 (Some "b") (SInt 2) Nil).

Definition object_ab_copied : store :=
  Eval vm_compute in
  match jemi_copy 20 (Some 4) object_ab_roomy with
  | Some (s, _) => s
  | None => jemi_reset 0
  end.

(** [jemi_integer] with a key of nineteen characters, before emission
    into a sink of 100 bytes. *)
Definition long_key_start : emitter :=
  Eval vm_compute in
  match jemi_integer (Some "abcdefghijklmnopqrs") 1 (jemi_reset 1) with
  | Some (s, _) => start s 100
  | None => start (jemi_reset 0) 100
  end.

(** [flat f]: the forest [f] has scalar nodes only. *)
Fixpoint flat (f : forest) : Prop :=
  match f with
  | Nil => True
  | Leaf _ _ _ rest => flat rest
  | Box _ _ _ _ _ => False
  end.

(** ** What emission changes

    [marked x x']: the node [x'] is the node [x] with another progress
    marker. *)
Definition marked (x x' : jemi_node_t) : Prop := ∃ st, x' = set_state st x.

(* ================================================================== *)
(** * Theorems *)

(** ** Arena *)

Lemma reset_loop_spec n i next pl :
  next = pred_ptr i →
  i + n ≤ length pl →
  (∀ j, j < i → ∃ x, pl !! j = Some x ∧ sibling x = pred_ptr j) →
  let '(pl', next') := reset_loop n i next pl in
  next' = pred_ptr (i + n) ∧ length pl' = length pl ∧
  ∀ j, j < i + n → ∃ x, pl' !! j = Some x ∧ sibling x = pred_ptr j.
Proof.
  revert i next pl. induction n as [|n IH]; intros i next pl Hn Hlen Hch; simpl.
  - rewrite Nat.add_0_r. auto.
  - specialize (IH (S i) (Some i) (alter (set_sibling next) i pl)).
    destruct (reset_loop n (S i) (Some i) (alter (set_sibling next) i pl))
      as [pl' next'] eqn:E.
    rewrite length_alter in IH.
    replace (i + S n) with (S i + n) by lia.
    destruct IH as (H1 & H2 & H3); [done | lia | | by auto].
    intros j Hj. destruct (decide (j = i)) as [->|Hne].
    + destruct (lookup_lt_is_Some_2 pl i) as [x Hx]; [lia|].
      exists (set_sibling next x). split; [|by subst].
      by rewrite list_lookup_alter_eq, Hx.
    + rewrite list_lookup_alter_ne by done. apply Hch. lia.
Qed.

Lemma jemi_reset_free_chain n :
  free_chain n (jemi_reset n) ∧ length (pool (jemi_reset n)) = n.
Proof.
  unfold jemi_reset.
  pose proof (reset_loop_spec n 0 None (replicate n zero_node)) as H.
  destruct (reset_loop n 0 None (replicate n zero_node)) as [pl next].
  rewrite length_replicate in H.
  destruct H as (H1 & H2 & H3); [done | simpl; lia | intros; lia |].
  split; [split|]; simpl; auto.
Qed.

Lemma available_loop_chain pl m fuel c :
  (∀ j, j < m → ∃ x, pl !! j = Some x ∧ sibling x = pred_ptr j) →
  m ≤ fuel →
  available_loop fuel pl (pred_ptr m) c = Some (c + m).
Proof.
  revert fuel c. induction m as [|m IH]; intros fuel c Hch Hf.
  - destruct fuel; simpl; f_equal; lia.
  - destruct fuel as [|fuel]; [lia|]. simpl.
    destruct (Hch m) as (x & Hx & Hs); [lia|].
    rewrite Hx. simpl. rewrite Hs, IH; [f_equal; lia | intros; apply Hch; lia | lia].
Qed.

Lemma free_chain_available m s fuel :
  free_chain m s → m ≤ fuel → jemi_available fuel s = Some m.
Proof.
  intros [Hf Hch] Hle. unfold jemi_available. rewrite Hf.
  by rewrite (available_loop_chain _ m).
Qed.

Lemma jemi_alloc_empty ty s :
  free_chain 0 s → jemi_alloc ty s = Some (s, None).
Proof. intros [Hf _]. unfold jemi_alloc. by rewrite Hf. Qed.

Lemma jemi_alloc_chain ty m s :
  free_chain (S m) s →
  ∃ s', jemi_alloc ty s = Some (s', Some m) ∧ free_chain m s' ∧
        length (pool s') = length (pool s).
Proof.
  intros [Hf Hch]. unfold jemi_alloc. rewrite Hf. simpl.
  destruct (Hch m) as (x & Hx & Hs); [lia|]. rewrite Hx. simpl.
  eexists. split; [done|]. split; [split|]; simpl.
  - done.
  - intros j Hj. rewrite list_lookup_insert_ne by lia. apply Hch. lia.
  - by rewrite length_insert.
Qed.

Lemma alloc_all_chain tys : ∀ m s,
  free_chain m s →
  ∃ s' ps, alloc_all tys s = Some (s', ps) ∧
           length ps = length tys ∧
           successes ps = Nat.min (length tys) m ∧
           free_chain (m - successes ps) s'.
Proof.
  induction tys as [|ty tys IH]; intros m s Hc; simpl.
  - exists s, []. rewrite Nat.sub_0_r. auto.
  - destruct m as [|m].
    + rewrite (jemi_alloc_empty ty s Hc). simpl.
      destruct (IH 0 s Hc) as (s' & ps & -> & Hl & Hs & Hc'). simpl.
      exists s', (None :: ps). simpl.
      rewrite Nat.min_0_r in *. split_and!; auto.
    + destruct (jemi_alloc_chain ty m s Hc) as (s1 & -> & Hc1 & _). simpl.
      destruct (IH m s1 Hc1) as (s' & ps & -> & Hl & Hs & Hc'). simpl.
      exists s', (Some m :: ps). simpl. split_and!; auto.
Qed.

(** C9 — arena conservation.  After [jemi_reset] on a pool of [n] slots,
    [n] being at most [INT_MAX] (the loop of [jemi_reset] counts in an
    [int]), [jemi_available] returns [n]; after any run of allocation
    requests with no reset in between it returns [n] minus the number of
    requests that succeeded, and exactly the first [min k n] of [k] requests
    succeed.  The count is reached with any fuel of at least [n]. *)
Theorem arena_conservation (n : nat) (tys : list jemi_type_t) :
  (Z.of_nat n ≤ INT_MAX)%Z →
  (∀ fuel, n ≤ fuel → jemi_available fuel (jemi_reset n) = Some n) ∧
  ∃ s' ps,
    alloc_all tys (jemi_reset n) = Some (s', ps) ∧
    successes ps = Nat.min (length tys) n ∧
    ∀ fuel, n ≤ fuel → jemi_available fuel s' = Some (n - successes ps).
Proof.
  intros _.
  destruct (jemi_reset_free_chain n) as [Hc _]. split.
  - intros fuel Hf. by apply free_chain_available.
  - destruct (alloc_all_chain tys n _ Hc) as (s' & ps & Ha & _ & Hs & Hc').
    exists s', ps. repeat split; [done..|].
    intros fuel Hf. apply free_chain_available; [done | lia].
Qed.

Lemma arena_conservation_witness :
  (∀ fuel, 2 ≤ fuel → jemi_available fuel (jemi_reset 2) = Some 2) ∧
  ∃ s' ps,
    alloc_all [JEMI_INTEGER; JEMI_STRING; JEMI_NULL] (jemi_reset 2)
      = Some (s', ps) ∧
    successes ps = Nat.min (length [JEMI_INTEGER; JEMI_STRING; JEMI_NULL]) 2 ∧
    ∀ fuel, 2 ≤ fuel → jemi_available fuel s' = Some (2 - successes ps).
Proof.
  apply (arena_conservation 2 [JEMI_INTEGER; JEMI_STRING; JEMI_NULL]).
  unfold INT_MAX. lia.
Defined.

(** ** Constructors on an exhausted arena *)

Lemma exhausted_eq :
  ∃ s, exhausted = Some s ∧ s_jemi_freelist s = None.
Proof. eexists. split; [vm_compute; reflexivity | reflexivity]. Qed.

(** C4 — constructor exhaustion tolerance, on the code.  With an empty
    freelist [jemi_integer], [jemi_string], [jemi_true], [jemi_false] and
    [jemi_null] return the null pointer and leave the store as it is;
    [jemi_bool], [jemi_array], [jemi_array_updateable] and [jemi_object]
    store [key] through the null pointer that [jemi_alloc] returned, which
    is not a defined execution. *)
Theorem constructors_on_empty_freelist (s : store) (k str : cstr) (i : Z)
    (b : bool) (upd : option nat) (len : Z) (els : list nat) :
  s_jemi_freelist s = None →
  jemi_integer k i s = Some (s, None) ∧
  jemi_string k str s = Some (s, None) ∧
  jemi_true s = Some (s, None) ∧
  jemi_false s = Some (s, None) ∧
  jemi_null s = Some (s, None) ∧
  jemi_bool k b s = None ∧
  jemi_array k els s = None ∧
  jemi_array_updateable k upd len els s = None ∧
  jemi_object k els s = None.
Proof.
  intros H.
  unfold jemi_bool.
  unfold jemi_integer, jemi_string, jemi_true, jemi_false, jemi_null,
    jemi_array, jemi_array_updateable, jemi_object, jemi_alloc.
  rewrite H. destruct b; simpl; split_and!; reflexivity.
Qed.

Lemma constructors_on_empty_freelist_witness :
  ∃ s, exhausted = Some s ∧
       jemi_integer None 3 s = Some (s, None) ∧
       jemi_bool (Some "k") true s = None ∧
       jemi_array None [] s = None.
Proof.
  destruct exhausted_eq as (s & Hs & Hf). exists s. split; [exact Hs|].
  destruct (constructors_on_empty_freelist s None None 3 true None 0 [] Hf)
    as (H1 & _).
  destruct (constructors_on_empty_freelist s (Some "k") None 3 true None 0 [] Hf)
    as (_ & _ & _ & _ & _ & H6 & _).
  destruct (constructors_on_empty_freelist s None None 3 true None 0 [] Hf)
    as (_ & _ & _ & _ & _ & _ & H7 & _).
  auto.
Defined.

(** ** Parent links *)

Lemma poke_lookup p f s s' q :
  poke p f s = Some s' →
  pool s' !! q = if decide (q = p) then f <$> pool s !! p else pool s !! q.
Proof.
  unfold poke. destruct (pool s !! p) as [x|] eqn:E; simpl; [|done].
  intros [= <-]. simpl. case_decide as Hq.
  - subst q. rewrite list_lookup_insert_eq; [done|]. by eapply lookup_lt_Some.
  - by rewrite list_lookup_insert_ne.
Qed.

Lemma poke_freelist p f s s' :
  poke p f s = Some s' → s_jemi_freelist s' = s_jemi_freelist s.
Proof.
  unfold poke. destruct (pool s !! p); simpl; [|done]. by intros [= <-].
Qed.

Lemma poke_parent_other p f s s' q :
  poke p f s = Some s' →
  (q ≠ p ∨ ∀ x, parent (f x) = parent x) →
  parent <$> pool s' !! q = parent <$> pool s !! q.
Proof.
  intros Hp Hf. rewrite (poke_lookup _ _ _ _ q Hp). case_decide; [|done].
  subst q. destruct Hf as [?|Hf]; [done|].
  destruct (pool s !! p); simpl; [|done]. by rewrite Hf.
Qed.

Lemma poke_parent_keep p f s s' q root :
  poke p f s = Some s' →
  (∀ x, parent (f x) = parent x ∨ parent (f x) = root) →
  parent <$> pool s !! q = Some root →
  parent <$> pool s' !! q = Some root.
Proof.
  intros Hp Hf Hq. rewrite (poke_lookup _ _ _ _ q Hp). case_decide; [|done].
  subst q. destruct (pool s !! p) as [x|]; simpl in *; [|done].
  destruct (Hf x) as [->| ->]; done.
Qed.

Lemma link_elements_keep root els : ∀ s s' q,
  link_elements root els s = Some s' →
  parent <$> pool s !! q = Some root →
  parent <$> pool s' !! q = Some root.
Proof.
  induction els as [|e rest IH]; intros s s' q; simpl.
  - by intros [= <-].
  - destruct (poke e (set_sibling (head rest)) s) as [s1|] eqn:E1; simpl; [|done].
    destruct (poke e (set_parent root) s1) as [s2|] eqn:E2; simpl; [|done].
    intros Hl Hq. eapply IH; [done|].
    eapply poke_parent_keep; [done | by right |].
    eapply poke_parent_keep; [done | by left | done].
Qed.

(** The variadic constructors set [parent] on every element. *)
Lemma link_elements_parent root els : ∀ s s' e,
  link_elements root els s = Some s' →
  e ∈ els →
  parent <$> pool s' !! e = Some root.
Proof.
  induction els as [|e0 rest IH]; intros s s' e; simpl.
  - intros _ H. by apply elem_of_nil in H.
  - destruct (poke e0 (set_sibling (head rest)) s) as [s1|] eqn:E1; simpl; [|done].
    destruct (poke e0 (set_parent root) s1) as [s2|] eqn:E2; simpl; [|done].
    intros Hl [->|Hin]%elem_of_cons; [|by eapply IH].
    eapply link_elements_keep; [done|].
    rewrite (poke_lookup _ _ _ _ e0 E2), decide_True by done.
    destruct (pool s1 !! e0) eqn:E; simpl; [done|].
    unfold poke in E2. by rewrite E in E2.
Qed.

Lemma jemi_array_parent k els s s' r e :
  jemi_array k els s = Some (s', r) →
  e ∈ els →
  parent <$> pool s' !! e = Some r.
Proof.
  unfold jemi_array. intros H Hin.
  repeat match type of H with
         | (?m ≫= _) = Some _ =>
             let E := fresh "E" in
             destruct m as [?|] eqn:E; simpl in H; [|done]
         | (let '(_, _) := ?p in _) = Some _ => destruct p; simpl in H
         end.
  injection H as <- <-. by eapply link_elements_parent.
Qed.

Lemma jemi_object_parent k els s s' r e :
  jemi_object k els s = Some (s', r) →
  e ∈ els →
  parent <$> pool s' !! e = Some r.
Proof.
  unfold jemi_object. intros H Hin.
  repeat match type of H with
         | (?m ≫= _) = Some _ =>
             let E := fresh "E" in
             destruct m as [?|] eqn:E; simpl in H; [|done]
         | (let '(_, _) := ?p in _) = Some _ => destruct p; simpl in H
         end.
  injection H as <- <-. by eapply link_elements_parent.
Qed.

Lemma jemi_list_append_parent fuel lst items s s' r q :
  jemi_list_append fuel lst items s = Some (s', r) →
  parent <$> pool s' !! q = parent <$> pool s !! q.
Proof.
  unfold jemi_list_append. destruct lst as [l|]; [|by intros [= <- _]].
  destruct (last_loop fuel (pool s) None (Some l)) as [prev|]; simpl; [|done].
  destruct prev as [p|]; simpl.
  - destruct (poke p (set_sibling items) s) as [s1|] eqn:E; simpl; [|done].
    intros [= <- _]. eapply poke_parent_other; [done | by right].
  - by intros [= <- _].
Qed.

(** [jemi_array_append] and [jemi_object_append] assign [parent] on the
    first node of [items] and on no other node. *)
Lemma jemi_array_append_parent_others fuel array i s s' r q :
  jemi_array_append fuel array (Some i) s = Some (s', r) →
  q ≠ i →
  parent <$> pool s' !! q = parent <$> pool s !! q.
Proof.
  unfold jemi_array_append. simpl. intros H Hq.
  destruct (poke i (set_parent array) s) as [s1|] eqn:E1; simpl in H; [|done].
  assert (parent <$> pool s1 !! q = parent <$> pool s !! q) as <-
    by (eapply poke_parent_other; [done | by left]).
  destruct array as [a|]; [|by injection H as <- _].
  destruct (peek a s1) as [x|]; simpl in H; [|done].
  destruct (get_children x) as [c|]; simpl in H; [|done].
  destruct (jemi_list_append fuel c (Some i) s1) as [[s2 l]|] eqn:E2;
    simpl in H; [|done].
  destruct (poke a (set_payload (Children l)) s2) as [s3|] eqn:E3;
    simpl in H; [|done].
  injection H as <- _.
  rewrite <- (jemi_list_append_parent _ _ _ _ _ _ q E2).
  eapply poke_parent_other; [done | by right].
Qed.

(** C5 — parent links, on the code.  An empty array to which the
    two-element list [a, b] is appended has [a] as its first child and [b]
    as [a]'s sibling; [a] has the array as parent, and the parent of [b] is
    still the null pointer.  The same holds for an object. *)
Theorem append_sets_parent_of_head_only :
  (∃ s arr a b xarr xa xb,
     appended = Some (s, Some arr, a, b) ∧
     pool s !! arr = Some xarr ∧ get_children xarr = Some (Some a) ∧
     pool s !! a = Some xa ∧ sibling xa = Some b ∧ parent xa = Some arr ∧
     pool s !! b = Some xb ∧ sibling xb = None ∧ parent xb = None) ∧
  (∃ s obj a b xobj xa xb,
     appended_object = Some (s, Some obj, a, b) ∧
     pool s !! obj = Some xobj ∧ get_children xobj = Some (Some a) ∧
     pool s !! a = Some xa ∧ sibling xa = Some b ∧ parent xa = Some obj ∧
     pool s !! b = Some xb ∧ sibling xb = None ∧ parent xb = None).
Proof.
  split; vm_compute; do 7 eexists; split_and!; reflexivity.
Qed.

(** ** Copying *)

(** C6 — copy semantics, on the code.  Cloning a [JEMI_FLOAT] node that
    holds [1.5] yields a node of type [JEMI_FLOAT] in state
    [JEMI_NODE_UNUSED] whose union is still the zeroed storage of the fresh
    slot: it reads [0.0], the source reads [1.5]. *)
Theorem copy_drops_float_payload :
  ∃ s f c xf xc,
    float_copy = Some (s, f, Some c) ∧ f ≠ c ∧
    pool s !! f = Some xf ∧ type xf = JEMI_FLOAT ∧
    get_number xf = Some (3 # 2) ∧
    pool s !! c = Some xc ∧ type xc = JEMI_FLOAT ∧
    state xc = JEMI_NODE_UNUSED ∧
    payload xc = Zeroed ∧ get_number xc = Some 0%Q.
Proof.
  vm_compute. do 5 eexists. split_and!; try reflexivity. discriminate.
Qed.

(** What [jemi_copy] does copy: the clone of an emitted object with an
    integer and a string member is unused, has clones of both members as
    its children chain, and the members' payloads are those of the
    sources.  Keys and parent links are not copied. *)
Lemma copy_of_emitted_object :
  ∃ s c xo xa xb ca cb,
    copied_object = Some (s, Some c) ∧
    pool s !! c = Some xo ∧ type xo = JEMI_OBJECT ∧
    state xo = JEMI_NODE_UNUSED ∧ get_children xo = Some (Some ca) ∧
    pool s !! ca = Some xa ∧ type xa = JEMI_INTEGER ∧
    state xa = JEMI_NODE_UNUSED ∧ get_integer xa = Some 1%Z ∧
    sibling xa = Some cb ∧ key xa = None ∧ parent xa = None ∧
    pool s !! cb = Some xb ∧ type xb = JEMI_STRING ∧
    state xb = JEMI_NODE_UNUSED ∧ get_string xb = Some (Some "x") ∧
    sibling xb = None ∧ key xb = None ∧ parent xb = None.
Proof.
  vm_compute. do 7 eexists. split_and!; reflexivity.
Qed.

(** Writing a scalar through one pointer leaves every other slot as it
    is: a clone and its source occupy different slots. *)
Lemma setters_touch_one_slot p q s s' r i str d :
  p ≠ q →
  (jemi_integer_set (Some p) i s = Some (s', r) ∨
   jemi_string_set (Some p) str s = Some (s', r) ∨
   jemi_float_set (Some p) d s = Some (s', r)) →
  pool s' !! q = pool s !! q.
Proof.
  unfold jemi_integer_set, jemi_string_set, jemi_float_set.
  intros Hne [H|[H|H]];
    match type of H with
    | (?m ≫= _) = _ => destruct m as [s1|] eqn:E; simpl in H; [|done]
    end;
    injection H as <- _;
    rewrite (poke_lookup _ _ _ _ q E); by rewrite decide_False by done.
Qed.

(** ** Strings and the output buffer *)

Lemma append_cons c (a b : string) : String c a +:+ b = String c (a +:+ b).
Proof. reflexivity. Qed.

Lemma append_nil_l (s : string) : "" +:+ s = s.
Proof. reflexivity. Qed.

Lemma append_nil_r (s : string) : s +:+ "" = s.
Proof.
  induction s as [|c s IH]; [done|]. by rewrite append_cons, IH.
Qed.

Lemma append_assoc (a b c : string) : (a +:+ b) +:+ c = a +:+ (b +:+ c).
Proof.
  induction a as [|x a IH]; [done|]. by rewrite !append_cons, IH.
Qed.

Lemma length_append (a b : string) :
  String.length (a +:+ b) = String.length a + String.length b.
Proof.
  induction a as [|x a IH]; [done|]. rewrite append_cons. cbn. by rewrite IH.
Qed.

Lemma length_substring_0 n (s : string) :
  String.length (substring 0 n s) = Nat.min n (String.length s).
Proof.
  revert n. induction s as [|c s IH]; intros [|n]; cbn; try done.
  by rewrite IH.
Qed.

Lemma substring_0_all n (s : string) :
  String.length s ≤ n → substring 0 n s = s.
Proof.
  revert n. induction s as [|c s IH]; intros [|n]; cbn; try done; [lia|].
  intros H. rewrite IH; [done | lia].
Qed.

Lemma substring_0_app m (a b : string) :
  m ≤ String.length a → substring 0 m (a +:+ b) = substring 0 m a.
Proof.
  revert m. induction a as [|c a IH]; intros m Hm.
  - assert (m = 0) as -> by (simpl in Hm; lia).
    rewrite append_nil_l. by destruct b.
  - rewrite append_cons. destruct m as [|m]; [done|]. simpl in *.
    rewrite IH; [done|lia].
Qed.

Lemma chars_app (a b : string) :
  chars (a +:+ b) = (chars a ++ chars b)%list.
Proof.
  unfold chars. induction a as [|x a IH]; [done|].
  rewrite append_cons. cbn. by rewrite IH.
Qed.

Lemma write_loop_spec data b t :
  write_loop data b t = (b +:+ data, (t ++ chars data)%list).
Proof.
  revert b t. induction data as [|c data IH]; intros b t; cbn.
  - by rewrite append_nil_r, app_nil_r.
  - rewrite IH. unfold writer_fn.
    rewrite append_assoc, append_cons, append_nil_l.
    change (chars (String c data)) with (Ewrite c :: chars data).
    by rewrite <- app_assoc.
Qed.

Lemma emit_string_spec data f :
  emit_string data f =
  if overflows (out f) data then
    (mk_frame (addr f) (nd f) (lft f)
       (mk_out (buf (out f)) (bufLen (out f)) true) (tr f ++ [Efull]), true)
  else
    (mk_frame (addr f) (nd f) (lft f)
       (mk_out (buf (out f) +:+ data) (bufLen (out f)) (full (out f)))
       (tr f ++ chars data), false).
Proof.
  unfold emit_string. destruct (overflows (out f) data); [done|].
  by rewrite write_loop_spec.
Qed.

(** ** The code against the automaton of the specification *)

Lemma switch_type_plan f acts :
  plain (nd f) →
  plan (nd f) = Some acts →
  switch_type f =
  Some (let '(f', failed) := run_plan acts f in
        (f', if failed then Break
             else if descends (nd f)
                  then Return (default None (get_children (nd f)))
                  else Break)).
Proof.
  destruct f as [p x l o t]. destruct x as [sb pa ty st k pl u].
  unfold plain. simpl. intros [Hty Hu] Hplan.
  destruct ty; try done;
    try (specialize (Hu eq_refl); subst u);
    destruct st; destruct k as [k|]; destruct sb as [sb|];
    unfold plan, literal in Hplan; simpl in Hplan;
    try (destruct pl as [| | |[?|]|] ; simpl in Hplan; try done);
    injection Hplan as <-; simpl.
  all: unfold switch_type, case_object, case_array, case_integer,
    case_string, case_bool, case_null, key_block, comma_block, on_state,
    close_block, attempt, key_action, comma_action, close_action,
    get_children, get_integer, get_string, key_size, brackets, descends,
    is_container; simpl.
  all: repeat (rewrite !emit_string_spec; simpl;
               try match goal with
                   | |- context [overflows ?o ?d] =>
                       destruct (overflows o d) eqn:?; simpl
                   end).
  all: try reflexivity.
Qed.

Lemma set_state_id x : set_state (state x) x = x.
Proof. by destruct x. Qed.

Lemma set_state_twice a b x : set_state a (set_state b x) = set_state a x.
Proof. done. Qed.

Lemma state_set_state a x : state (set_state a x) = a.
Proof. done. Qed.

(** Closed form of [run_plan]: the first [j] transitions are performed in
    full, where [j] counts the transitions before the first rejected
    fragment; a rejection adds nothing but the [full] flag. *)
Lemma run_plan_spec acts : ∀ f,
  let j := accepted acts (out f) in
  run_plan acts f =
  (mk_frame (addr f)
     (set_state (state_after (state (nd f)) (take j acts)) (nd f))
     (lft f)
     (mk_out (buf (out f) +:+ texts (take j acts)) (bufLen (out f))
        (full (out f) || (j <? length acts)))
     (tr f ++ events (addr f) (take j acts) ++
        if j <? length acts then [Efull] else []),
   j <? length acts).
Proof.
  induction acts as [|[st|t st] rest IH]; intros f; simpl.
  - rewrite set_state_id, append_nil_r, orb_false_r, app_nil_r.
    by destruct f as [? ? ? [] ?].
  - rewrite IH. simpl. rewrite <- app_assoc. done.
  - rewrite emit_string_spec.
    destruct (overflows (out f) t) eqn:Ho; simpl.
    + rewrite set_state_id, append_nil_r, orb_true_r. done.
    + rewrite IH. simpl. rewrite append_assoc, <- !app_assoc. done.
Qed.

Lemma accepted_le acts : ∀ o, accepted acts o ≤ length acts.
Proof.
  induction acts as [|[st|t st] rest IH]; intros o; simpl; [lia| |].
  - specialize (IH o). lia.
  - destruct (overflows o t); [lia|].
    specialize (IH (mk_out (buf o +:+ t) (bufLen o) (full o))). lia.
Qed.

(** Within a plan the node reaches [JEMI_NODE_USED] with the last
    transition only. *)
Lemma plan_not_used x acts j :
  plan x = Some acts → j < length acts →
  state_after (state x) (take j acts) ≠ JEMI_NODE_USED.
Proof.
  destruct x as [sb pa ty st k pl u]. unfold plan, literal. simpl.
  intros Hplan Hj.
  destruct ty, st; simpl in Hplan;
    repeat match type of Hplan with
           | context [get_children ?x] => destruct (get_children x); simpl in Hplan
           | context [get_integer ?x] => destruct (get_integer x); simpl in Hplan
           | context [get_string ?x] => destruct (get_string x) as [[?|]|]; simpl in Hplan
           end;
    try done; injection Hplan as <-;
    unfold key_action, comma_action, close_action in *; simpl in *;
    destruct k, sb; simpl in *;
    repeat (destruct j as [|j]; simpl in *; try done; try lia).
Qed.

Lemma emit_aux_plain g p e x acts :
  peek p (mem e) = Some x → plain x → plan x = Some acts →
  let j := accepted acts (output e) in
  let x' := set_state (state_after (state x) (take j acts)) x in
  emit_aux g p e =
  Some (mk_emitter
          (mk_store (<[p := x']> (pool (mem e))) (s_jemi_freelist (mem e)))
          (left e)
          (mk_out (buf (output e) +:+ texts (take j acts)) (bufLen (output e))
             (full (output e) || (j <? length acts)))
          (trace e ++ events p (take j acts) ++
             if j <? length acts then [Efull] else []),
        if j <? length acts then Some p else continue p x x').
Proof.
  intros Hx Hpl Hplan j x'. unfold emit_aux, load. rewrite Hx. simpl.
  rewrite (switch_type_plan _ acts) by done.
  rewrite run_plan_spec. simpl. fold j. fold x'.
  destruct (j <? length acts) eqn:Hj; simpl.
  - unfold unload, after_switch. simpl.
    rewrite decide_True; [done|].
    apply plan_not_used; [done|]. by apply Nat.ltb_lt.
  - unfold continue. destruct (descends x); done.
Qed.

Lemma accepted_rejects acts : ∀ o,
  accepted acts o < length acts →
  ∃ t st, acts !! accepted acts o = Some (Emit t st) ∧
    overflows (mk_out (buf o +:+ texts (take (accepted acts o) acts))
                 (bufLen o) (full o)) t = true.
Proof.
  induction acts as [|[st|t st] rest IH]; intros o; simpl; [lia| |].
  - intros H. destruct (IH o) as (t & st' & H1 & H2); [lia|]. eauto.
  - destruct (overflows o t) eqn:Ho; simpl.
    + intros _. exists t, st. rewrite append_nil_r. by destruct o.
    + intros H.
      destruct (IH (mk_out (buf o +:+ t) (bufLen o) (full o)))
        as (t' & st' & H1 & H2); [lia|].
      simpl in H2. rewrite append_assoc in H2. eauto.
Qed.

(** A node left in front of a rejected fragment has the rest of the plan as
    its plan. *)
Lemma plan_resume x acts j t st :
  plan x = Some acts → acts !! j = Some (Emit t st) →
  plan (set_state (state_after (state x) (take j acts)) x) = Some (drop j acts).
Proof.
  destruct x as [sb pa ty s k pl u]. unfold plan, literal. simpl.
  intros Hplan Hj.
  destruct ty, s; simpl in Hplan;
    repeat match type of Hplan with
           | context [get_children ?x] =>
               let E := fresh "E" in
               destruct (get_children x) eqn:E; simpl in Hplan
           | context [get_integer ?x] =>
               let E := fresh "E" in
               destruct (get_integer x) eqn:E; simpl in Hplan
           | context [get_string ?x] =>
               let E := fresh "E" in
               destruct (get_string x) as [[?|]|] eqn:E; simpl in Hplan
           end;
    try done; injection Hplan as <-;
    unfold key_action, comma_action, close_action in *; simpl in *;
    destruct k, sb; simpl in *;
    repeat (destruct j as [|j]; simpl in *; try done);
    unfold plan, literal, get_children, get_integer, get_string in *;
    simpl in *; try rewrite E; simpl; done.
Qed.

(** C2 — fragment atomicity, as amended.  For a node that is neither a
    [JEMI_FLOAT] nor an array with a generator, one call of [emit_aux] performs
    the first [j] transitions of the node's plan in full and nothing else:
    the output grows by exactly the fragments of those transitions and the
    progress marker stands after them.  Either all transitions were
    performed and [full] is as before, or transition [j] is a fragment that
    does not fit: none of it is written, [full] is set, the call returns the
    same node, and the plan of the node as left behind starts with that
    same fragment. *)
Theorem fragment_atomicity g p e x acts :
  peek p (mem e) = Some x → plain x → plan x = Some acts →
  ∃ e' nx j x',
    emit_aux g p e = Some (e', nx) ∧
    j ≤ length acts ∧
    peek p (mem e') = Some x' ∧
    x' = set_state (state_after (state x) (take j acts)) x ∧
    buf (output e') = buf (output e) +:+ texts (take j acts) ∧
    ((j = length acts ∧ full (output e') = full (output e)) ∨
     (∃ t st, acts !! j = Some (Emit t st) ∧
        overflows (output e') t = true ∧
        full (output e') = true ∧ nx = Some p ∧ left e' = left e ∧
        plan x' = Some (drop j acts))).
Proof.
  intros Hx Hpl Hplan.
  pose proof (emit_aux_plain g p e x acts Hx Hpl Hplan) as H. simpl in H.
  pose proof (accepted_le acts (output e)) as Hle.
  set (j := accepted acts (output e)) in *.
  eexists _, _, j, _. split; [exact H|]. simpl.
  split; [done|]. split.
  { unfold peek. simpl. apply list_lookup_insert_eq. by eapply lookup_lt_Some. }
  split; [done|]. split; [done|].
  destruct (j <? length acts) eqn:Hj.
  - right. apply Nat.ltb_lt in Hj.
    destruct (accepted_rejects acts (output e) Hj) as (t & st & H1 & H2).
    fold j in H1, H2. exists t, st. rewrite orb_true_r.
    split_and!; try done. by eapply plan_resume.
  - left. apply Nat.ltb_ge in Hj. rewrite orb_false_r. split; [lia|done].
Qed.

Lemma fragment_atomicity_witness :
  ∃ e' nx j x',
    emit_aux no_update 3 object_ab_opened = Some (e', nx) ∧
    j ≤ length plan_a ∧
    peek 3 (mem e') = Some x' ∧
    x' = set_state (state_after (state member_a) (take j plan_a)) member_a ∧
    buf (output e') = buf (output object_ab_opened) +:+ texts (take j plan_a) ∧
    ((j = length plan_a ∧ full (output e') = full (output object_ab_opened)) ∨
     (∃ t st, plan_a !! j = Some (Emit t st) ∧
        overflows (output e') t = true ∧
        full (output e') = true ∧ nx = Some 3 ∧
        left e' = left object_ab_opened ∧
        plan x' = Some (drop j plan_a))).
Proof.
  apply (fragment_atomicity no_update 3 object_ab_opened member_a plan_a).
  - vm_compute. reflexivity.
  - split; discriminate.
  - vm_compute. reflexivity.
Defined.

(** The separating comma of a streaming array is written whole and the
    array's progress marker stays where it was. *)
Lemma streaming_comma_keeps_marker :
  ∃ e r x e' nx x',
    streaming_suspended = Some (e, Some r) ∧
    peek r (mem e) = Some x ∧
    emit_aux gen_last r (refill e 100) = Some (e', nx) ∧
    peek r (mem e') = Some x' ∧
    buf (output e') = buf (output (refill e 100)) +:+ "," ∧
    full (output e') = false ∧
    state x' = state x.
Proof.
  do 6 eexists. split; [vm_compute; reflexivity|].
  split; [vm_compute; reflexivity|]. split; [vm_compute; reflexivity|].
  split; [vm_compute; reflexivity|]. split_and!; reflexivity.
Qed.

(** ** Literals *)

Lemma bool_literal_step g p e x :
  peek p (mem e) = Some x →
  type x = JEMI_TRUE ∨ type x = JEMI_FALSE →
  state x = JEMI_KEY_USED →
  overflows (output e) "false" = false →
  ∃ e' nx rest t',
    emit_aux g p e = Some (e', nx) ∧
    buf (output e') = buf (output e) +:+ "false" +:+ rest ∧
    (rest = "" ∨ rest = ",") ∧
    trace e' = (trace e ++ chars "false" ++ Estate p JEMI_VAL_USED :: t')%list.
Proof.
  intros Hx Hty Hst Hov.
  assert (plain x) as Hpl.
  { split; intros ?; destruct Hty; congruence. }
  assert (plan x = Some [Emit "false" JEMI_VAL_USED; comma_action x]) as Hplan.
  { unfold plan, is_container, literal. rewrite Hst.
    by destruct Hty as [-> | ->]. }
  rewrite (emit_aux_plain g p e x _ Hx Hpl Hplan).
  simpl. rewrite Hov. unfold comma_action.
  destruct (sibling x) as [sb|]; simpl.
  - destruct (overflows _ ","); simpl.
    + eexists _, _, "", _. split; [done|]. simpl.
      rewrite !append_nil_r. split_and!; auto.
    + eexists _, _, ",", _. split; [done|]. simpl.
      rewrite !append_nil_r. split_and!; auto.
  - eexists _, _, "", _. split; [done|]. simpl.
    rewrite !append_nil_r. split_and!; auto.
Qed.

(** C3 — boolean literals, on the code.  A [JEMI_TRUE] node in state
    [JEMI_KEY_USED] whose literal fits writes the five characters of
    [false], then moves to [JEMI_VAL_USED]; what follows in the same call is
    at most the separating comma. *)
Theorem true_node_emits_false g p e x :
  peek p (mem e) = Some x →
  type x = JEMI_TRUE →
  state x = JEMI_KEY_USED →
  overflows (output e) "false" = false →
  ∃ e' nx rest t',
    emit_aux g p e = Some (e', nx) ∧
    buf (output e') = buf (output e) +:+ "false" +:+ rest ∧
    (rest = "" ∨ rest = ",") ∧
    trace e' = (trace e ++ chars "false" ++ Estate p JEMI_VAL_USED :: t')%list.
Proof. intros. eapply bool_literal_step; eauto. Qed.

(** [jemi_true()] emitted as a whole tree reads [false]. *)
Lemma lone_true_emitted :
  ∃ s r e',
    lone_true = Some (s, r) ∧
    jemi_emit no_update 2 r (start s 100) = Some (e', None) ∧
    buf (output e') = "false".
Proof.
  do 3 eexists. split; [vm_compute; reflexivity|].
  split; vm_compute; reflexivity.
Qed.

Lemma true_node_emits_false_witness :
  ∃ e' nx rest t',
    emit_aux no_update 0 true_key_used = Some (e', nx) ∧
    buf (output e') = buf (output true_key_used) +:+ "false" +:+ rest ∧
    (rest = "" ∨ rest = ",") ∧
    trace e' =
      (trace true_key_used ++ chars "false" ++ Estate 0 JEMI_VAL_USED :: t')%list.
Proof.
  apply (true_node_emits_false no_update 0 true_key_used
           (mk_node None None JEMI_TRUE JEMI_KEY_USED None Zeroed None));
    reflexivity.
Defined.

(** A [JEMI_STRING] node in state [JEMI_KEY_USED] whose fragment fits
    writes what [snprintf] leaves in [buf[30]]: the first 29 characters of
    the text made of a double quote, the string and a double quote.  It
    then moves to [JEMI_VAL_USED]; what follows in the same call is at most
    the separating comma.  For a string of at most 27 characters the text
    is written whole. *)
Lemma string_literal g p e x s :
  peek p (mem e) = Some x →
  type x = JEMI_STRING →
  state x = JEMI_KEY_USED →
  payload x = Str (Some s) →
  let text := substring 0 29 (dquote +:+ s +:+ dquote) in
  overflows (output e) text = false →
  (String.length s ≤ 27 → text = dquote +:+ s +:+ dquote) ∧
  ∃ e' nx rest t',
    emit_aux g p e = Some (e', nx) ∧
    buf (output e') = buf (output e) +:+ text +:+ rest ∧
    (rest = "" ∨ rest = ",") ∧
    trace e' = (trace e ++ chars text ++ Estate p JEMI_VAL_USED :: t')%list.
Proof.
  intros Hx Hty Hst Hpay text Hov. split.
  { intros Hlen. apply substring_0_all.
    rewrite !length_append. simpl. lia. }
  assert (plain x) as Hpl by (split; intros ?; congruence).
  assert (plan x = Some [Emit text JEMI_VAL_USED; comma_action x]) as Hplan.
  { unfold plan, is_container, literal, get_string.
    by rewrite Hst, Hty, Hpay. }
  clearbody text.
  rewrite (emit_aux_plain g p e x _ Hx Hpl Hplan).
  simpl. rewrite Hov. unfold comma_action.
  destruct (sibling x) as [sb|]; simpl.
  - destruct (overflows _ ","); simpl.
    + eexists _, _, "", _. split; [done|]. simpl.
      rewrite !append_nil_r, <- !app_assoc. split_and!; auto.
    + eexists _, _, ",", _. split; [done|]. simpl.
      rewrite !append_nil_r, <- !app_assoc. split_and!; auto.
  - eexists _, _, "", _. split; [done|]. simpl.
    rewrite !append_nil_r, <- !app_assoc. split_and!; auto.
Qed.

(** C7 — string emission, on the code.  A [JEMI_STRING] node in state
    [JEMI_KEY_USED] that holds a string of 28 characters or more, with room
    in the sink: the call writes the opening quote and the first 28
    characters of the string and moves to [JEMI_VAL_USED].  That is not
    the quoted string: the closing quote is not written, nor is any
    character after the 28th; what follows in the same call is at most the
    separating comma. *)
Theorem long_string_loses_closing_quote g p e x s :
  peek p (mem e) = Some x →
  type x = JEMI_STRING →
  state x = JEMI_KEY_USED →
  payload x = Str (Some s) →
  28 ≤ String.length s →
  let text := dquote +:+ substring 0 28 s in
  overflows (output e) text = false →
  text ≠ dquote +:+ s +:+ dquote ∧
  ∃ e' nx rest t',
    emit_aux g p e = Some (e', nx) ∧
    buf (output e') = buf (output e) +:+ text +:+ rest ∧
    (rest = "" ∨ rest = ",") ∧
    trace e' = (trace e ++ chars text ++ Estate p JEMI_VAL_USED :: t')%list.
Proof.
  intros Hx Hty Hst Hpay Hlen text Hov.
  assert (substring 0 29 (dquote +:+ s +:+ dquote) = text) as Heq.
  { unfold text, dquote. rewrite !append_cons, !append_nil_l. cbn.
    by rewrite substring_0_app. }
  split.
  - intros E. apply (f_equal String.length) in E. unfold text in E.
    rewrite !length_append, length_substring_0, Nat.min_l in E by done.
    simpl in E. lia.
  - pose proof (string_literal g p e x s Hx Hty Hst Hpay) as H.
    cbv zeta in H. rewrite Heq in H. by destruct (H Hov) as [_ H'].
Qed.

Lemma long_string_loses_closing_quote_witness :
  dquote +:+ substring 0 28 "abcdefghijklmnopqrstuvwxyz01"
    ≠ dquote +:+ "abcdefghijklmnopqrstuvwxyz01" +:+ dquote ∧
  ∃ e' nx rest t',
    emit_aux no_update 0 long_string_key_used = Some (e', nx) ∧
    buf (output e') =
      buf (output long_string_key_used) +:+
      (dquote +:+ substring 0 28 "abcdefghijklmnopqrstuvwxyz01") +:+ rest ∧
    (rest = "" ∨ rest = ",") ∧
    trace e' =
      (trace long_string_key_used ++
       chars (dquote +:+ substring 0 28 "abcdefghijklmnopqrstuvwxyz01") ++
       Estate 0 JEMI_VAL_USED :: t')%list.
Proof.
  apply (long_string_loses_closing_quote no_update 0 long_string_key_used
           (mk_node None None JEMI_STRING JEMI_KEY_USED None
              (Str (Some "abcdefghijklmnopqrstuvwxyz01")) None)
           "abcdefghijklmnopqrstuvwxyz01"); reflexivity.
Defined.

(** [jemi_string] with a string of 28 characters, emitted as a whole
    tree: the text has no closing quote. *)
Lemma long_string_unterminated :
  ∃ s r e',
    long_string = Some (s, r) ∧
    jemi_emit no_update 2 r (start s 100) = Some (e', None) ∧
    buf (output e') = dquote +:+ "abcdefghijklmnopqrstuvwxyz01" ∧
    buf (output e') ≠ dquote +:+ "abcdefghijklmnopqrstuvwxyz01" +:+ dquote.
Proof.
  do 3 eexists. split; [vm_compute; reflexivity|].
  split; [vm_compute; reflexivity|].
  split; [vm_compute; reflexivity|]. vm_compute. discriminate.
Qed.

(** ** Streaming arrays *)

Lemma list_insert_same {A} (l : list A) i x : l !! i = Some x → <[i := x]> l = l.
Proof. apply list_insert_id. Qed.

Lemma store_eta s : mk_store (pool s) (s_jemi_freelist s) = s.
Proof. by destruct s. Qed.

(** Only the [Generate] exit of the switch consults the generators. *)
Lemma emit_aux_generator_free g g' p e :
  (∀ f f' u, load p e = Some f → switch_type f = Some (f', Generate u) → False) →
  emit_aux g p e = emit_aux g' p e.
Proof.
  intros H. unfold emit_aux. destruct (load p e) as [f|] eqn:Hf; simpl; [|done].
  destruct (switch_type f) as [[f' fl]|] eqn:Hs; simpl; [|done].
  destruct fl; try done. exfalso. eauto.
Qed.

Lemma switch_type_generate f f' u :
  switch_type f = Some (f', Generate u) →
  type (nd f) = JEMI_ARRAY ∧ state (nd f) = JEMI_CHILDREN_USED ∧
  update (nd f) = Some u ∧ lft f ≠ 0%Z ∧ overflows (out f) "," = false.
Proof.
  destruct f as [p x l o t]. destruct x as [sb pa ty st k pl up].
  unfold switch_type. simpl.
  destruct ty; simpl;
    try (intros H; repeat match type of H with
         | (?m ≫= _) = Some _ => destruct m; simpl in H; [|done]
         end; done).
  - unfold case_object. intros H.
    repeat match type of H with
           | (?m ≫= _) = Some _ => destruct m; simpl in H; [|done]
           | context [decide ?P] => destruct (decide P); simpl in H
           end; done.
  - unfold case_array, key_block, on_state, attempt. simpl.
    destruct st; simpl; destruct k; simpl;
      rewrite ?emit_string_spec; simpl;
      repeat match goal with
             | |- context [overflows ?a ?b] =>
                 let E := fresh "E" in destruct (overflows a b) eqn:E; simpl
             | |- context [get_children ?a] => destruct (get_children a); simpl
             | |- context [decide (?a ≠ ?b)] => destruct (decide (a ≠ b)); simpl
             | |- context [emit_string ?a ?b] => rewrite emit_string_spec; simpl
             | |- context [match up with _ => _ end] => destruct up; simpl
             end; try done.
    all: intros [= <- <-]; auto.
Qed.

(** C8 — streaming arrays, as amended.  (i) [emit_aux] consults the
    generators only for an array node that carries one, is in state
    [JEMI_CHILDREN_USED], finds the shared [left] non-zero and has room for
    a comma.  (ii) In that case it writes the comma, calls the generator
    with the array's children and stores the returned value in [left];
    for every value from 0 to 254, zero included, it returns the array's
    first child as it is after the call: the state stays
    [JEMI_CHILDREN_USED] and no bracket is written.  (iii) When [left] is
    zero and the sink has room for the bracket, it calls no generator,
    writes the closing bracket, marks the array used and leaves [left] at
    its initial value. *)
Theorem generator_protocol g p e x :
  peek p (mem e) = Some x →
  (¬ (type x = JEMI_ARRAY ∧ state x = JEMI_CHILDREN_USED ∧
      is_Some (update x) ∧ left e ≠ 0%Z ∧ overflows (output e) "," = false) →
   ∀ g', emit_aux g' p e = emit_aux g p e) ∧
  (∀ u c s' v,
     type x = JEMI_ARRAY → state x = JEMI_CHILDREN_USED →
     update x = Some u → get_children x = Some c →
     left e ≠ 0%Z → overflows (output e) "," = false →
     g u (mem e) c = (s', v) → (0 ≤ v ≤ 254)%Z →
     emit_aux g p e =
     (x' ← peek p s'; c' ← get_children x';
      Some (mk_emitter s' v
              (mk_out (buf (output e) +:+ ",") (bufLen (output e))
                 (full (output e)))
              (trace e ++ chars "," ++ [Eupdate p]), c'))) ∧
  (∀ u,
     type x = JEMI_ARRAY → state x = JEMI_CHILDREN_USED →
     update x = Some u → left e = 0%Z →
     let text := match sibling x with Some _ => "]," | None => "]" end in
     overflows (output e) text = false →
     emit_aux g p e =
     Some (mk_emitter
             (mk_store (<[p := set_state JEMI_NODE_USED x]> (pool (mem e)))
                (s_jemi_freelist (mem e)))
             (-1)%Z
             (mk_out (buf (output e) +:+ text) (bufLen (output e))
                (full (output e)))
             (trace e ++ chars text ++ [Estate p JEMI_NODE_USED]),
           match sibling x with Some sb => Some sb | None => parent x end)).
Proof.
  intros Hx. split_and!.
  - intros Hn g'. apply emit_aux_generator_free.
    intros f f' u Hf Hs. apply Hn.
    unfold load in Hf. rewrite Hx in Hf. simpl in Hf. injection Hf as <-.
    destruct (switch_type_generate _ _ _ Hs) as (H1 & H2 & H3 & H4 & H5).
    simpl in *. split_and!; eauto.
  - intros u c s' v Hty Hst Hu Hc Hl Hov Hg Hv.
    unfold emit_aux, load. rewrite Hx. unfold peek in Hx.
    destruct x as [sb pa ty st k pl up]. simpl in *. subst ty st up.
    unfold switch_type, case_array, key_block, on_state. simpl.
    rewrite decide_True by done. rewrite emit_string_spec. simpl.
    rewrite Hov. simpl. rewrite Hc. simpl.
    rewrite (list_insert_same _ _ _ Hx), store_eta, Hg.
    rewrite (Z.mod_small v 256) by lia.
    rewrite decide_True by lia.
    rewrite <- app_assoc. done.
  - intros u Hty Hst Hu Hl text Hov.
    unfold emit_aux, load. rewrite Hx. unfold peek in Hx.
    destruct x as [sb pa ty st k pl up]. destruct e as [m l o t].
    simpl in *. subst ty st up l.
    unfold switch_type, case_array, key_block, on_state. simpl.
    unfold close_block, attempt. rewrite emit_string_spec. simpl.
    replace (snprintf 3 match sb with
                        | Some _ => "]" +:+ ","
                        | None => "]"
                        end) with text by (subst text; by destruct sb).
    rewrite Hov. simpl.
    unfold unload, after_switch. simpl.
    by rewrite <- app_assoc.
Qed.

Lemma generator_protocol_witness :
  (∃ e' c,
     emit_aux gen_last 0 streaming_resumed = Some (e', Some c) ∧
     left e' = 0%Z ∧ buf (output e') = ",") ∧
  (∃ e',
     emit_aux gen_last 0 streaming_closing = Some (e', None) ∧
     left e' = (-1)%Z ∧ buf (output e') = "[1,2]").
Proof.
  split.
  - pose proof (generator_protocol gen_last 0 streaming_resumed
                  (mk_node None None JEMI_ARRAY JEMI_CHILDREN_USED None
                     (Children (Some 1)) (Some 0)) eq_refl) as (_ & H & _).
    specialize (H 0 (Some 1)
                  (fst (gen_last 0 (mem streaming_resumed) (Some 1))) 0%Z
                  eq_refl eq_refl eq_refl eq_refl).
    rewrite H; [| vm_compute; discriminate | vm_compute; reflexivity
                | vm_compute; reflexivity | lia].
    vm_compute. eauto.
  - pose proof (generator_protocol gen_last 0 streaming_closing
                  (mk_node None None JEMI_ARRAY JEMI_CHILDREN_USED None
                     (Children (Some 1)) (Some 0)) eq_refl) as (_ & _ & H).
    rewrite (H 0 eq_refl eq_refl eq_refl eq_refl eq_refl).
    vm_compute. eauto.
Defined.

(** The generator reports that nothing is left, and the call still hands
    control to the child without writing a bracket. *)
Lemma generator_none_left_redescends :
  ∃ e r e' c,
    streaming_suspended = Some (e, Some r) ∧
    buf (output e) = "[1" ∧
    emit_aux gen_last r (refill e 100) = Some (e', Some c) ∧
    c ≠ r ∧ left e' = 0%Z ∧ buf (output e') = ",".
Proof.
  do 4 eexists. split; [vm_compute; reflexivity|].
  split; [reflexivity|]. split; [vm_compute; reflexivity|].
  split; [discriminate|]. split; reflexivity.
Qed.

(** ** Resumed emission *)

Lemma emittable_plan x : emittable x → ∃ acts, plan x = Some acts.
Proof.
  intros [_ H]. unfold plan. destruct (is_container x).
  - destruct H as [c ->]. destruct (state x); simpl; eauto.
  - destruct H as [l ->]. destruct (state x); simpl; eauto.
Qed.

Lemma emittable_set_state st x : emittable x → emittable (set_state st x).
Proof. by destruct x. Qed.

Lemma texts_app a b : texts (a ++ b) = texts a +:+ texts b.
Proof.
  induction a as [|[st|t st] a IH]; simpl; [done|done|].
  by rewrite IH, append_assoc.
Qed.

Lemma events_app p a b :
  events p (a ++ b) = (events p a ++ events p b)%list.
Proof.
  induction a as [|[st|t st] a IH]; simpl; [done| |].
  - by rewrite IH.
  - by rewrite IH, <- app_assoc.
Qed.

Lemma state_after_app st a b :
  state_after st (a ++ b) = state_after (state_after st a) b.
Proof.
  revert st. induction a as [|[st'|t st'] a IH]; intros st; simpl; auto.
Qed.

(** A sink that accepts a whole plan accepts what is left of it after any
    number of its transitions. *)
Lemma accepted_drop acts : ∀ o j,
  accepted acts o = length acts → j ≤ length acts →
  accepted (drop j acts)
    (mk_out (buf o +:+ texts (take j acts)) (bufLen o) (full o))
  = length (drop j acts).
Proof.
  induction acts as [|[st|t st] rest IH]; intros o j Ha Hj; simpl in *.
  - rewrite drop_nil. done.
  - destruct j as [|j]; simpl.
    + rewrite append_nil_r. destruct o; simpl in *. done.
    + apply IH; lia.
  - destruct (overflows o t) eqn:Ho; [done|].
    destruct j as [|j]; simpl.
    + rewrite append_nil_r.
      replace (mk_out (buf o) (bufLen o) (full o)) with o by (by destruct o).
      by rewrite Ho.
    + rewrite <- append_assoc.
      apply (IH (mk_out (buf o +:+ t) (bufLen o) (full o))); simpl; lia.
Qed.

(** A node left in front of a rejected fragment hands control on as the
    node it was would have. *)
Lemma plan_continue x acts j t st p x' :
  plan x = Some acts → acts !! j = Some (Emit t st) →
  continue p (set_state (state_after (state x) (take j acts)) x) x' =
  continue p x x'.
Proof.
  destruct x as [sb pa ty s k pl u]. unfold plan, literal. simpl.
  intros Hplan Hj.
  destruct ty, s; simpl in Hplan;
    repeat match type of Hplan with
           | context [get_children ?x] =>
               destruct (get_children x); simpl in Hplan
           | context [get_integer ?x] =>
               destruct (get_integer x); simpl in Hplan
           | context [get_string ?x] =>
               destruct (get_string x) as [[?|]|]; simpl in Hplan
           end;
    try done; injection Hplan as <-;
    unfold key_action, comma_action, close_action in *; simpl in *;
    destruct k, sb; simpl in *;
    repeat (destruct j as [|j]; simpl in *; try done).
Qed.


Lemma length_snprintf n text : String.length (snprintf n text) ≤ n - 1.
Proof. unfold snprintf. rewrite length_substring_0. lia. Qed.

(** No fragment has more than 29 characters, and no call of [emit_aux]
    makes more than three transitions. *)
Lemma plan_emit_short x acts j t st :
  plan x = Some acts → acts !! j = Some (Emit t st) → String.length t ≤ 29.
Proof.
  destruct x as [sb pa ty s k pl u]. unfold plan, literal. simpl.
  intros Hplan Hj.
  destruct ty, s; simpl in Hplan;
    repeat match type of Hplan with
           | context [get_children ?x] =>
               destruct (get_children x); simpl in Hplan
           | context [get_integer ?x] =>
               destruct (get_integer x); simpl in Hplan
           | context [get_string ?x] =>
               destruct (get_string x) as [[?|]|]; simpl in Hplan
           end;
    try done; injection Hplan as <-;
    unfold key_action, comma_action, close_action in *; simpl in *;
    destruct k, sb; simpl in *;
    repeat (destruct j as [|j]; simpl in *; try done);
    injection Hj as <- _;
    first [ by (etrans; [apply length_snprintf|simpl; lia])
          | simpl; lia ].
Qed.

Lemma plan_length x acts : plan x = Some acts → length acts ≤ 3.
Proof.
  unfold plan. destruct (is_container x), (state x); simpl;
    repeat match goal with
           | |- context [get_children ?x] => destruct (get_children x); simpl
           | |- context [literal ?x] => destruct (literal x); simpl
           end;
    intros [= <-]; simpl; lia.
Qed.

Lemma roomy_accepts o t :
  roomy o → String.length t ≤ 29 → overflows o t = false.
Proof.
  intros [Hb Hc] Ht. unfold overflows. rewrite Hb. simpl.
  rewrite Z.mod_small by lia. rewrite Z.gtb_ltb. apply Z.ltb_ge. lia.
Qed.

Lemma todo_le s n : todo s n ≤ 3.
Proof.
  unfold todo. destruct (peek n s) as [x|]; [|lia].
  destruct (plan x) as [acts|] eqn:E; simpl; [|lia]. by eapply plan_length.
Qed.

Lemma sound_insert P s n x st :
  sound P s → peek n s = Some x →
  sound P (mk_store (<[n := set_state st x]> (pool s)) (s_jemi_freelist s)).
Proof.
  intros Hs Hx q y Hq Hy. unfold peek in *. simpl in Hy.
  destruct (decide (q = n)) as [->|Hne].
  - rewrite list_lookup_insert_eq in Hy by (by eapply lookup_lt_Some).
    injection Hy as <-. destruct (Hs n x Hq Hx) as [He Hc].
    split; [by apply emittable_set_state|]. by destruct x.
  - rewrite list_lookup_insert_ne in Hy by done. by apply (Hs q y).
Qed.

Lemma sound_continue P s p x st q :
  sound P s → P p → peek p s = Some x →
  continue p x (set_state st x) = Some q → P q.
Proof.
  intros Hs Hp Hx. destruct (Hs p x Hp Hx) as [_ Hc].
  unfold continue. destruct (descends x).
  - destruct (get_children x) as [[c|]|] eqn:E; simpl; intros [= <-].
    apply Hc. auto.
  - destruct (decide _); [by intros [= <-]|].
    replace (sibling (set_state st x)) with (sibling x) by (by destruct x).
    replace (parent (set_state st x)) with (parent x) by (by destruct x).
    destruct (sibling x) eqn:E1; [intros [= <-]; apply Hc; auto|].
    intros Hpar. apply Hc. auto.
Qed.

Lemma all_emittable_sound s :
  Forall emittable (pool s) → sound (λ _, True) s.
Proof. intros H q x _ Hx. split; [by eapply Forall_lookup_1|done]. Qed.

Lemma reach_sound s n :
  (∀ q x, reach s n q → peek q s = Some x → emittable x) →
  sound (reach s n) s.
Proof.
  intros H q x Hq Hx. split; [eauto|]. intros r Hr.
  eapply reach_step; [done|]. by exists x.
Qed.

Section Resume.

(** The generators, the reference call: a sink of [bufLen] [B] that one
    call of [jemi_emit] fills with [OUT] without marking it full, and the
    slots of the tree. *)
Variable g : nat → store → ptr → store * Z.
Variable B : Z.
Variable OUT : string.
Variable P : nat → Prop.

Lemma completes_succ k s l n acc :
  completes g B OUT k s l (Some n) acc → ∃ k', k = S k'.
Proof.
  destruct k as [|k]; [|eauto]. by intros (t & eF & H & _).
Qed.

(** One call of [emit_aux] in a resumed emission keeps the reference call
    in step: it has a result, what it writes is the next part of [OUT], and
    either no fragment was rejected and the reference needs one call of
    [emit_aux] less, or the sink is full and the same node is returned. *)
Lemma emit_aux_step e n acc k :
  sound P (mem e) → P n →
  completes g B OUT (S k) (mem e) (left e) (Some n) acc →
  ∃ e' nx w,
    emit_aux g n e = Some (e', nx) ∧
    buf (output e') = buf (output e) +:+ w ∧
    sound P (mem e') ∧ (∀ q, nx = Some q → P q) ∧
    ((full (output e') = full (output e) ∧
      completes g B OUT k (mem e') (left e') nx (acc +:+ w)) ∨
     (full (output e') = true ∧ nx = Some n ∧
      todo (mem e') n ≤ todo (mem e) n ∧
      (roomy (output e) → todo (mem e') n < todo (mem e) n) ∧
      completes g B OUT (S k) (mem e') (left e') nx (acc +:+ w))).
Proof.
  intros Hall Hn (tR & eF & Hloop & HfullF & HbufF).
  simpl in Hloop.
  destruct (peek n (mem e)) as [x|] eqn:Hx;
    [|unfold emit_aux, load in Hloop; simpl in Hloop; by rewrite Hx in Hloop].
  destruct (Hall n x Hn Hx) as [Hem _].
  destruct (emittable_plan x Hem) as [acts Hplan].
  pose proof Hem as [Hpl _].
  rewrite (emit_aux_plain g n e x acts Hx Hpl Hplan).
  rewrite (emit_aux_plain g n
             (mk_emitter (mem e) (left e) (mk_out acc B false) tR)
             x acts Hx Hpl Hplan) in Hloop.
  simpl in Hloop |- *.
  pose proof (accepted_le acts (mk_out acc B false)) as HleR.
  pose proof (accepted_le acts (output e)) as HleS.
  remember (accepted acts (mk_out acc B false)) as jR eqn:EjR.
  remember (accepted acts (output e)) as jS eqn:EjS.
  assert (jR = length acts) as HjR.
  { destruct (jR <? length acts) eqn:E; [|apply Nat.ltb_ge in E; lia].
    simpl in Hloop. done. }
  rewrite HjR, Nat.ltb_irrefl, take_ge in Hloop by done.
  simpl in Hloop. rewrite app_nil_r in Hloop.
  set (x' := set_state (state_after (state x) acts) x) in *.
  eexists _, _, (texts (take jS acts)). split; [reflexivity|]. simpl.
  split; [done|].
  split; [by apply sound_insert|].
  split.
  { intros q. destruct (jS <? length acts); [by intros [= <-]|].
    by apply (sound_continue P (mem e) n x). }
  destruct (jS <? length acts) eqn:HjS.
  - (* a fragment was rejected: the reference resumes in the middle *)
    apply Nat.ltb_lt in HjS. right.
    rewrite orb_true_r. split; [done|]. split; [done|].
    assert (∃ t st, acts !! jS = Some (Emit t st) ∧
              overflows (mk_out (buf (output e) +:+ texts (take jS acts))
                           (bufLen (output e)) (full (output e))) t = true)
      as (t & st & Hj & Hrej).
    { rewrite EjS in HjS |- *.
      apply (accepted_rejects acts (output e) HjS). }
    set (xj := set_state (state_after (state x) (take jS acts)) x).
    assert (plan xj = Some (drop jS acts)) as Hplanj by (by eapply plan_resume).
    assert (peek n (mk_store (<[n:=xj]> (pool (mem e)))
                      (s_jemi_freelist (mem e))) = Some xj) as Hxj.
    { unfold peek. simpl. apply list_lookup_insert_eq.
      by eapply lookup_lt_Some. }
    assert (plain xj) as Hplj by (by destruct x).
    assert (todo (mk_store (<[n:=xj]> (pool (mem e)))
                    (s_jemi_freelist (mem e))) n = length acts - jS) as ->.
    { unfold todo. rewrite Hxj, Hplanj. simpl. by rewrite length_drop. }
    assert (todo (mem e) n = length acts) as ->.
    { unfold todo. by rewrite Hx, Hplan. }
    split; [lia|]. split.
    { intros Hroomy. destruct jS as [|jS]; [|lia]. exfalso.
      simpl in Hrej. rewrite append_nil_r in Hrej.
      rewrite (roomy_accepts (mk_out _ _ _) t) in Hrej; [done| |].
      - destruct Hroomy. by split.
      - by eapply plan_emit_short. }
    exists (tR ++ events n (take jS acts))%list, eF.
    split; [|done]. simpl.
    match goal with
    | |- context [emit_aux g n ?E] =>
        rewrite (emit_aux_plain g n E xj (drop jS acts) Hxj Hplj Hplanj)
    end.
    simpl.
    pose proof (accepted_drop acts (mk_out acc B false) jS) as Hd.
    simpl in Hd. rewrite Hd by lia. clear Hd.
    rewrite Nat.ltb_irrefl, (take_ge (drop jS acts)) by lia. simpl.
    rewrite <- !state_after_app, !take_drop.
    change (set_state (state_after (state x) acts) xj) with x'.
    rewrite list_insert_insert_eq, app_nil_r.
    unfold xj. rewrite (plan_continue x acts jS t st n x' Hplan Hj).
    rewrite append_assoc, <- texts_app, take_drop.
    rewrite <- app_assoc, <- events_app, take_drop.
    exact Hloop.
  - (* every fragment was accepted: both runs are at the same point *)
    apply Nat.ltb_ge in HjS. assert (jS = length acts) as -> by lia.
    rewrite take_ge by done. fold x'. left.
    rewrite orb_false_r. split; [done|].
    destruct (continue n x x') as [q|] eqn:Hq; simpl in *.
    + eexists _, eF. split; [exact Hloop|done].
    + injection Hloop as <-. simpl in HbufF. done.
Qed.

(** One call of [jemi_emit] in a resumed emission has a result as soon as
    it has the fuel of the reference call.  Afterwards the reference needs
    fewer calls of [emit_aux], or the call stopped in its first node with
    no more transitions left than before, and with fewer when the sink
    was roomy. *)
Lemma emit_loop_steps k : ∀ fuel e n acc,
  sound P (mem e) → P n →
  full (output e) = false →
  completes g B OUT (S k) (mem e) (left e) (Some n) acc →
  S k ≤ fuel →
  ∃ e' nx w k',
    emit_loop g fuel (Some n) e = Some (e', nx) ∧
    buf (output e') = buf (output e) +:+ w ∧
    sound P (mem e') ∧ (∀ q, nx = Some q → P q) ∧
    completes g B OUT k' (mem e') (left e') nx (acc +:+ w) ∧
    (k' ≤ k ∨
     (k' = S k ∧ nx = Some n ∧ todo (mem e') n ≤ todo (mem e) n ∧
      (roomy (output e) → todo (mem e') n < todo (mem e) n))).
Proof.
  induction k as [|k IH]; intros fuel e n acc Hall Hn Hfull Hc Hfuel;
    (destruct fuel as [|fuel]; [lia|]); simpl;
    destruct (emit_aux_step e n acc _ Hall Hn Hc)
      as (e1 & n1 & w1 & -> & Hb1 & Hall1 & Hn1 & Hcase); simpl;
    destruct Hcase as [[Hf1 Hc1]|(Hf1 & -> & Hle & Hlt & Hc1)].
  - destruct n1 as [q|]; [by destruct (completes_succ _ _ _ _ _ Hc1)|].
    rewrite bool_decide_false by (intros H; by apply H). simpl.
    exists e1, None, w1, 0. split_and!; auto with lia.
  - rewrite Hf1, andb_false_r. exists e1, (Some n), w1, 1.
    split_and!; auto 10 with lia.
  - rewrite Hf1, Hfull, andb_true_r. destruct n1 as [q|].
    + rewrite bool_decide_true by done.
      destruct (IH fuel e1 q (acc +:+ w1))
        as (e' & nx & w2 & k' & Hl & Hb & Ha & Hnx & Hc' & Hk);
        [done | by apply Hn1 | congruence | done | lia |].
      exists e', nx, (w1 +:+ w2), k'.
      rewrite Hl, Hb, Hb1, !append_assoc. rewrite append_assoc in Hc'.
      split_and!; auto. left. destruct Hk as [?|[? _]]; lia.
    + rewrite bool_decide_false by (intros H; by apply H).
      exists e1, None, w1, (S k). split_and!; auto with lia.
  - rewrite Hf1, andb_false_r. exists e1, (Some n), w1, (S (S k)).
    split_and!; auto 10 with lia.
Qed.

Lemma completes_extends k s l n acc :
  sound P s → P n →
  completes g B OUT k s l (Some n) acc → ∃ rest, OUT = acc +:+ rest.
Proof.
  intros Hall Hn Hc. destruct (completes_succ _ _ _ _ _ Hc) as [k' ->].
  pose proof Hc as (t & eF & Hloop & _ & Hbuf).
  destruct (emit_loop_steps k' (S k')
              (mk_emitter s l (mk_out acc B false) t) n acc)
    as (e' & nx & w & k'' & Hl & Hw & _); [done..|].
  rewrite Hloop in Hl. injection Hl as <- <-. simpl in Hw.
  exists w. congruence.
Qed.

Lemma emit_chunks_steps caps : ∀ fuel node e acc k,
  sound P (mem e) → (∀ n, node = Some n → P n) →
  completes g B OUT k (mem e) (left e) node acc →
  k ≤ fuel →
  ∃ outs fin,
    emit_chunks g fuel caps node e = Some (outs, fin) ∧
    (∃ rest, OUT = acc +:+ concat_all outs +:+ rest ∧ (fin = None → rest = "")) ∧
    (Forall (λ c, 30 ≤ c < 2 ^ 64)%Z caps →
     match node with
     | Some n => 4 * k + todo (mem e) n
     | None => 0
     end ≤ length caps →
     fin = None).
Proof.
  induction caps as [|cap caps IH]; intros fuel node e acc k Hall Hn Hc Hfuel;
    simpl.
  - exists [], node. split; [done|]. simpl. destruct node as [n|].
    + destruct (completes_extends _ _ _ n acc Hall (Hn n eq_refl) Hc)
        as [rest Hrest].
      split; [by exists rest|]. intros _ Hmu.
      destruct (completes_succ _ _ _ _ _ Hc) as [k0 ->]. lia.
    + simpl in Hc. subst. split; [|done]. exists "". by rewrite append_nil_r.
  - destruct node as [n|].
    2:{ exists [], None. split; [done|]. simpl in *. subst. split; [|done].
        exists "". by rewrite append_nil_r. }
    destruct (completes_succ _ _ _ _ _ Hc) as [k0 ->].
    destruct (emit_loop_steps k0 fuel (refill e cap) n acc)
      as (e0 & next & w & k' & Hl & Hw & Hall0 & Hn0 & Hc0 & Hk');
      [done | by apply Hn | done..|].
    unfold jemi_emit. rewrite Hl. simpl.
    edestruct (IH fuel next
                 (mk_emitter (mem e0) (left e0) (output e0)
                    (trace e0 ++ [Ewrite NUL]))
                 (acc +:+ w) k')
      as (outs & fin & -> & (rest & -> & Hfin) & Hend);
      [done | done | done | destruct Hk' as [?|[? _]]; lia |].
    simpl. exists (buf (output e0) :: outs), fin. split; [done|]. split.
    + exists rest. split; [|done]. simpl. simpl in Hw. rewrite Hw.
      by rewrite !append_assoc.
    + intros Hcaps Hmu. apply Forall_cons in Hcaps as [Hcap Hcaps].
      apply Hend; [done|]. simpl in *. destruct next as [q|]; [|lia].
      destruct Hk' as [Hk'|(-> & [= ->] & Hle & Hlt)].
      * pose proof (todo_le (mem e0) q). lia.
      * assert (todo (mem e0) n < todo (mem e) n); [|lia].
        apply Hlt. split; simpl; [done|lia].
Qed.

End Resume.

(** Sinks too small for the fragment that is next. *)
Lemma next_fragment_lookup acts t :
  next_fragment acts = Some t → ∃ j st, acts !! j = Some (Emit t st).
Proof.
  induction acts as [|[st|t' st] rest IH]; simpl; [done| |].
  - intros Hn. destruct (IH Hn) as (j & st' & H). by exists (S j), st'.
  - intros [= ->]. by exists 0, st.
Qed.

Lemma leading_quiets acts t o :
  next_fragment acts = Some t → overflows o t = true →
  ∃ j st, acts !! j = Some (Emit t st) ∧ accepted acts o = j ∧
          texts (take j acts) = "" ∧ next_fragment (drop j acts) = Some t.
Proof.
  induction acts as [|[st|t' st] rest IH]; simpl; [done| |].
  - intros Hn Ho. destruct (IH Hn Ho) as (j & st' & H1 & H2 & H3 & H4).
    exists (S j), st'. simpl. rewrite H2. done.
  - intros [= ->] Ho. rewrite Ho. by exists 0, st.
Qed.

Lemma small_sink_rejects c t :
  (1 ≤ c ≤ Z.of_nat (String.length t))%Z → String.length t ≤ 29 →
  overflows (mk_out "" c false) t = true.
Proof.
  intros Hc Ht. unfold overflows. simpl. rewrite Z.mod_small by lia.
  apply Z.gtb_lt. lia.
Qed.

Lemma emit_chunks_stall g caps : ∀ fuel n e x acts t,
  peek n (mem e) = Some x → plain x → plan x = Some acts →
  next_fragment acts = Some t →
  Forall (λ c, 1 ≤ c ≤ Z.of_nat (String.length t))%Z caps → 0 < fuel →
  emit_chunks g fuel caps (Some n) e = Some (map (λ _, "") caps, Some n).
Proof.
  induction caps as [|cap caps IH];
    intros fuel n e x acts t Hx Hpl Hplan Hnf Hcaps Hfuel; simpl; [done|].
  apply Forall_cons in Hcaps as [Hcap Hcaps].
  destruct fuel as [|fuel']; [lia|].
  destruct (next_fragment_lookup acts t Hnf) as (j0 & st0 & Hj0).
  pose proof (plan_emit_short x acts j0 t st0 Hplan Hj0) as Hshort.
  destruct (leading_quiets acts t (mk_out "" cap false) Hnf)
    as (j & st & Hj & Hacc & Htx & Hnf'); [by apply small_sink_rejects|].
  assert (j < length acts) as Hlt by (eapply lookup_lt_Some; eauto).
  unfold jemi_emit. simpl.
  rewrite (emit_aux_plain g n (refill e cap) x acts Hx Hpl Hplan). simpl.
  rewrite Hacc, (proj2 (Nat.ltb_lt _ _) Hlt), Htx. simpl.
  set (x1 := set_state (state_after (state x) (take j acts)) x).
  rewrite (IH (S fuel') n _ x1 (drop j acts) t); simpl; try done.
  - unfold peek. simpl. apply list_lookup_insert_eq. by eapply lookup_lt_Some.
  - by eapply plan_resume.
Qed.

(** C1 — resumability equivalence, as amended.  Let every node that can
    be reached from the root through child, sibling and parent links be
    emittable (no [JEMI_FLOAT], no array with a generator).  (i) Let one
    call of [jemi_emit] into an empty sink run to the end of the tree
    without filling the sink.  Then for every list of sink capacities the
    resumed calls have a result (with the fuel of that one call), the
    contents the sink has after each of them, concatenated, are a prefix of
    the text of that one call, and they are the whole text when the resumed
    calls reach the end of the tree; and they do reach it when every sink
    holds 30 bytes or more and there are enough of them.  (ii) When every
    capacity is at least 1 and at most the length of the first fragment the
    root has still to write, every call writes nothing and returns the
    root. *)
Theorem resumed_emission g root e :
  (∀ n q x, root = Some n → reach (mem e) n q →
            peek q (mem e) = Some x → emittable x) →
  (∀ fuel0 B eF,
     jemi_emit g fuel0 root (refill e B) = Some (eF, None) →
     full (output eF) = false →
     ∀ caps fuel, fuel0 ≤ fuel →
     ∃ outs fin,
       emit_chunks g fuel caps root e = Some (outs, fin) ∧
       (∃ rest, buf (output eF) = concat_all outs +:+ rest ∧
                (fin = None → rest = "")) ∧
       (Forall (λ c, 30 ≤ c < 2 ^ 64)%Z caps → 4 * fuel0 + 3 ≤ length caps →
        fin = None)) ∧
  (∀ n x t caps fuel,
     root = Some n → peek n (mem e) = Some x →
     next_fragment (default [] (plan x)) = Some t →
     Forall (λ c, 1 ≤ c ≤ Z.of_nat (String.length t))%Z caps → 0 < fuel →
     emit_chunks g fuel caps root e = Some (map (λ _, "") caps, root)).
Proof.
  intros Hall. split.
  - intros fuel0 B eF Href Hfull caps fuel Hfuel.
    unfold jemi_emit in Href.
    destruct (emit_loop g fuel0 root (refill e B)) as [[e0 nx]|] eqn:Hl;
      simpl in Href; [|done].
    injection Href as <- ->. simpl in *.
    destruct root as [n|]; [|by destruct fuel0].
    destruct (emit_chunks_steps g B (buf (output e0)) (reach (mem e) n) caps
                fuel (Some n) e "" fuel0)
      as (outs & fin & Hr & Hpre & Hend).
    + apply reach_sound. intros q x. by apply Hall.
    + intros ? [= <-]. constructor.
    + simpl. exists (trace e), e0. done.
    + done.
    + exists outs, fin. split_and!; [done..|].
      intros Hcaps Hlen. apply Hend; [done|].
      pose proof (todo_le (mem e) n). lia.
  - intros n x t caps fuel -> Hx Hnf Hcaps Hfuel.
    assert (emittable x) as Hem.
    { apply (Hall n n x eq_refl); [constructor|done]. }
    destruct (emittable_plan x Hem) as [acts Hplan].
    rewrite Hplan in Hnf. simpl in Hnf.
    apply (emit_chunks_stall g caps fuel n e x acts t); try done.
    apply Hem.
Qed.

Lemma object_ab_emittable :
  ∀ n q x, Some 1 = Some n → reach (mem object_ab_start) n q →
           peek q (mem object_ab_start) = Some x → emittable x.
Proof.
  intros n q x _ _ Hq. revert Hq. apply Forall_lookup_1.
  repeat constructor; try discriminate; simpl; eauto.
Qed.

Lemma object_ab_opened_emittable :
  ∀ n q x, Some 3 = Some n → reach (mem object_ab_opened) n q →
           peek q (mem object_ab_opened) = Some x → emittable x.
Proof.
  intros n q x _ _ Hq. revert Hq. apply Forall_lookup_1.
  repeat constructor; try discriminate; simpl; eauto.
Qed.

(** In [beside_float] the nodes that can be reached from the object are
    the object and its two members; the Float node is in the pool and is
    none of them. *)
Lemma beside_float_tree :
  ∀ n q x, Some 1 = Some n → reach (mem beside_float) n q →
           peek q (mem beside_float) = Some x → emittable x.
Proof.
  intros n q x [= <-] Hr Hq.
  assert (q = 1 ∨ q = 2 ∨ q = 3) as Hcases.
  { clear x Hq. induction Hr as [|q r Hr IH (y & Hy & Hl)]; [auto|].
    destruct IH as [->|[->| ->]]; vm_compute in Hy; injection Hy as <-;
      simpl in Hl; destruct Hl as [Hl|[Hl|Hl]]; try discriminate;
      injection Hl as <-; auto. }
  destruct Hcases as [->|[->| ->]]; vm_compute in Hq; injection Hq as <-;
    (split; [split; [discriminate|done]|simpl; eauto]).
Qed.

Lemma beside_float_not_all :
  ¬ Forall emittable (pool (mem beside_float)).
Proof.
  intros H. apply (Forall_lookup_1 _ _ 4 _ H eq_refl). reflexivity.
Qed.

Lemma resumed_emission_witness :
  (∃ outs fin,
     emit_chunks no_update 20 [5; 5; 5; 5; 5]%Z (Some 1) beside_float
       = Some (outs, fin) ∧
     (∃ rest, buf (output beside_float_single) = concat_all outs +:+ rest ∧
              (fin = None → rest = "")) ∧
     (Forall (λ c, 30 ≤ c < 2 ^ 64)%Z [5; 5; 5; 5; 5]%Z →
      4 * 4 + 3 ≤ length [5; 5; 5; 5; 5]%Z → fin = None)) ∧
  (∃ outs,
     emit_chunks no_update 4 (replicate 19 30%Z) (Some 1) object_ab_start
       = Some (outs, None) ∧
     buf (output object_ab_single) = concat_all outs) ∧
  emit_chunks no_update 20 [4; 3; 4]%Z (Some 3) object_ab_opened
    = Some ([""; ""; ""], Some 3).
Proof.
  split_and!.
  - apply (proj1 (resumed_emission no_update (Some 1) beside_float
                    beside_float_tree) 4 100%Z beside_float_single).
    + vm_compute. reflexivity.
    + reflexivity.
    + lia.
  - destruct (proj1 (resumed_emission no_update (Some 1) object_ab_start
                       object_ab_emittable) 4 100%Z object_ab_single
                eq_refl eq_refl (replicate 19 30%Z) 4 (le_n 4))
      as (outs & fin & Hrun & (rest & Hrest & Hfin) & Hend).
    assert (fin = None) as ->.
    { apply Hend; [apply Forall_replicate; lia|simpl; lia]. }
    exists outs. split; [done|].
    by rewrite Hrest, (Hfin eq_refl), append_nil_r.
  - apply (proj2 (resumed_emission no_update (Some 3) object_ab_opened
                    object_ab_opened_emittable)
             3 member_a (dquote +:+ "a" +:+ dquote +:+ ":") [4; 3; 4]%Z 20).
    + reflexivity.
    + vm_compute. reflexivity.
    + vm_compute. reflexivity.
    + repeat constructor; simpl; lia.
    + lia.
Defined.

(** Scenario 4 of the specification: the object of two members through
    sinks of five bytes.  The five resumed calls reach the end of the tree
    and their sink contents add up to the text of the single call. *)
Lemma object_ab_in_chunks :
  emit_chunks no_update 20 [5; 5; 5; 5; 5]%Z (Some 1) object_ab_start
    = Some (object_ab_chunks, None) ∧
  concat_all object_ab_chunks = buf (output object_ab_single).
Proof. split; vm_compute; reflexivity. Qed.

(** Sinks too small for a fragment: the key fragment of the first member
    has four characters and a sink of four bytes has room for three.  Five
    resumed calls write the opening brace and nothing more, although their
    capacities add up to more than the thirteen characters of the text. *)
Lemma small_chunks_stall :
  ∃ s r eF outs fin,
    object_ab = Some (s, r) ∧
    jemi_emit no_update 20 r (start s 100) = Some (eF, None) ∧
    full (output eF) = false ∧
    String.length (buf (output eF)) = 13 ∧
    emit_chunks no_update 20 [4; 4; 4; 4; 4]%Z r (start s 0) = Some (outs, fin) ∧
    concat_all outs = "{" ∧
    buf (output eF) ≠ concat_all outs.
Proof.
  do 5 eexists. split; [vm_compute; reflexivity|].
  split; [vm_compute; reflexivity|]. split; [reflexivity|].
  split; [reflexivity|]. split; [vm_compute; reflexivity|].
  split; [reflexivity|]. vm_compute. discriminate.
Qed.

(** A streaming array whose closing bracket is rejected.  In one call the
    array reads [[1,2]].  With sinks of five bytes the first call stops in
    front of the bracket, after [left] was set back to [-1]; the second
    call finds [left] non-zero, writes a comma and calls the generator
    again, and the two outputs read [[1,2,3]]. *)
Lemma resumed_streaming_array_diverges :
  ∃ s r eF outs,
    streaming = Some (s, r) ∧
    jemi_emit gen_last 20 r (start s 100) = Some (eF, None) ∧
    full (output eF) = false ∧
    buf (output eF) = "[1,2]" ∧
    emit_chunks gen_last 20 [5; 5]%Z r (start s 0) = Some (outs, None) ∧
    outs = ["[1,2"; ",3]"].
Proof.
  do 4 eexists. split; [vm_compute; reflexivity|].
  split; [vm_compute; reflexivity|]. split; [reflexivity|].
  split; [reflexivity|]. split; [vm_compute; reflexivity|]. reflexivity.
Qed.

(** The step behind it: the array is in [JEMI_CHILDREN_USED] with [left]
    zero and no room for the bracket; the call writes nothing, keeps the
    state, and leaves [left] at [-1], so that the next call on the same node
    attempts a comma where this one attempted the bracket. *)
Lemma rejected_bracket_resets_left :
  let x := mk_node None None JEMI_ARRAY JEMI_CHILDREN_USED None
             (Children (Some 1)) (Some 0) in
  let s := mk_store [x; mk_node None (Some 0) JEMI_INTEGER JEMI_NODE_USED None
                          (Integer 2) None] None in
  let e := mk_emitter s 0 (mk_out "[1,2" 5 false) [] in
  emit_aux gen_last 0 e
  = Some (mk_emitter s (-1) (mk_out "[1,2" 5 true) [Efull], Some 0) ∧
  ∃ e' nx,
    emit_aux gen_last 0 (mk_emitter s (-1) (mk_out "" 5 false) [])
    = Some (e', nx) ∧ buf (output e') = ",".
Proof.
  split; [vm_compute; reflexivity|].
  do 2 eexists. split; vm_compute; reflexivity.
Qed.

(** ** Quiescence after suspension *)

Lemma no_full_app a b : no_full a → no_full b → no_full (a ++ b).
Proof. induction a as [|[] a IH]; simpl; tauto. Qed.

Lemma no_full_chars s : no_full (chars s).
Proof. unfold chars. induction (list_ascii_of_string s); simpl; auto. Qed.

Lemma no_full_chars_app s t : no_full t → no_full (chars s ++ t).
Proof. intros. apply no_full_app; auto using no_full_chars. Qed.

Lemma all_full_calm t : all_full t → calm t.
Proof. induction t as [|[] t IH]; simpl; tauto. Qed.

Lemma calm_app a b : no_full a → calm b → calm (a ++ b).
Proof. induction a as [|[] a IH]; simpl; tauto. Qed.

Lemma calm_chars_app s t : calm t → calm (chars s ++ t).
Proof. intros. apply calm_app; auto using no_full_chars. Qed.

Lemma no_full_calm t : no_full t → calm t.
Proof. induction t as [|[] t IH]; simpl; tauto. Qed.

Ltac trace_tac :=
  repeat first
    [ exact I
    | apply calm_chars_app
    | apply no_full_chars_app
    | apply no_full_chars
    | apply no_full_calm, no_full_chars
    | progress simpl ].

Ltac delta_tac :=
  rewrite <- ?app_assoc;
  first [ reflexivity | exact (eq_sym (app_nil_r _)) ].

Lemma switch_type_calm f f' fl :
  type (nd f) ≠ JEMI_FLOAT →
  switch_type f = Some (f', fl) →
  ∃ d, tr f' = (tr f ++ d)%list ∧ calm d ∧
       (no_full d ∨ (full (out f') = true ∧ ∀ u, fl ≠ Generate u)).
Proof.
  destruct f as [p x l o t]. destruct x as [sb pa ty st k pl up].
  simpl. intros Hty.
  destruct ty; try done; clear Hty;
    destruct st; destruct k as [k|]; destruct sb as [sb|];
    unfold switch_type, case_object, case_array, case_integer,
      case_string, case_bool, case_null, key_block, comma_block, on_state,
      close_block, attempt, get_children, get_integer, get_string; simpl.
  all: repeat (rewrite ?emit_string_spec; simpl;
               try match goal with
                   | |- context [overflows ?o ?d] =>
                       destruct (overflows o d) eqn:?; simpl
                   | |- context [match ?v with
                                 | Zeroed => _ | Integer _ => _ | Number _ => _
                                 | Str _ => _ | Children _ => _
                                 end] =>
                       is_var v; destruct v as [| | |[?|]|]; simpl
                   | |- context [match ?v with Some _ => _ | None => _ end] =>
                       is_var v; destruct v; simpl
                   | |- context [decide (?a ≠ 0%Z)] =>
                       destruct (decide (a ≠ 0%Z)); simpl
                   end).
  all: try done.
  all: intros [= <- <-]; simpl; eexists; split; [delta_tac|];
    split; [trace_tac|];
    first [ left; by trace_tac | right; split; [reflexivity | discriminate] ].
Qed.
Lemma overflows_flag b B f1 f2 d :
  overflows (mk_out b B f1) d = overflows (mk_out b B f2) d.
Proof. reflexivity. Qed.

(** A text that does not fit when cut to 21 characters does not fit when
    cut to 29. *)
Lemma overflows_snprintf_mono b B f1 f2 text :
  overflows (mk_out b B f1) (snprintf 22 text) = true →
  overflows (mk_out b B f2) (snprintf 30 text) = true.
Proof.
  unfold overflows, snprintf. simpl. rewrite !length_substring_0.
  intros H. apply Z.gtb_lt in H. apply Z.gtb_lt. lia.
Qed.

Lemma switch_type_calm_float f f' fl :
  type (nd f) = JEMI_FLOAT →
  switch_type f = Some (f', fl) →
  ∃ d, tr f' = (tr f ++ d)%list ∧ calm d ∧
       (no_full d ∨ (full (out f') = true ∧ ∀ u, fl ≠ Generate u)).
Proof.
  destruct f as [p x l [b B fu] t]. destruct x as [sb pa ty st k pl up].
  simpl. intros ->.
  destruct st; destruct k as [k|]; destruct sb as [sb|];
    unfold switch_type, case_float, case_string, key_block, comma_block,
      on_state, attempt, get_number, get_string; simpl.
  all: repeat (rewrite ?emit_string_spec; simpl;
               try match goal with
                   | H : overflows (mk_out ?b ?B ?f1) (snprintf 22 ?d) = true
                     |- context [overflows (mk_out ?b ?B ?f2) (snprintf 30 ?d)] =>
                       rewrite (overflows_snprintf_mono b B f1 f2 d H); simpl
                   | H : overflows (mk_out ?b ?B ?f1) ?d = _
                     |- context [overflows (mk_out ?b ?B ?f2) ?d] =>
                       rewrite (overflows_flag b B f2 f1 d), H; simpl
                   | |- context [overflows ?o ?d] =>
                       destruct (overflows o d) eqn:?; simpl
                   | |- context [match ?v with
                                 | Zeroed => _ | Integer _ => _ | Number _ => _
                                 | Str _ => _ | Children _ => _
                                 end] =>
                       is_var v; destruct v as [| | |[?|]|]; simpl
                   | |- context [double_to_int ?d] =>
                       destruct (double_to_int d); simpl
                   end).
  all: try done.
  all: intros [= <- <-]; simpl; eexists; split; [delta_tac|];
    split; [trace_tac|];
    first [ left; by trace_tac | right; split; [reflexivity | discriminate] ].
Qed.
Lemma switch_type_calm_all f f' fl :
  switch_type f = Some (f', fl) →
  ∃ d, tr f' = (tr f ++ d)%list ∧ calm d ∧
       (no_full d ∨ (full (out f') = true ∧ ∀ u, fl ≠ Generate u)).
Proof.
  destruct (decide (type (nd f) = JEMI_FLOAT)).
  - by apply switch_type_calm_float.
  - by apply switch_type_calm.
Qed.

Lemma emit_aux_calm g p e e' nx :
  emit_aux g p e = Some (e', nx) →
  ∃ d, trace e' = (trace e ++ d)%list ∧ calm d ∧
       (no_full d ∨ full (output e') = true).
Proof.
  unfold emit_aux, load. destruct (peek p (mem e)) as [x|]; simpl; [|done].
  destruct (switch_type _) as [[f' fl]|] eqn:Hs; simpl; [|done].
  destruct (switch_type_calm_all _ _ _ Hs) as (d & Hd & Hc & Hf).
  simpl in Hd. destruct fl as [|r|u].
  - intros [= <- <-]. simpl. exists d. split_and!; [done..|]. tauto.
  - intros [= <- <-]. simpl. exists d. split_and!; [done..|]. tauto.
  - destruct Hf as [Hf|[_ Hf]]; [|by destruct (Hf u)].
    destruct (get_children (nd f')); simpl; [|done].
    destruct (g u _ _) as [s v].
    rewrite decide_True by (pose proof (Z.mod_pos_bound v 256); lia).
    destruct (peek p s) as [x'|]; simpl; [|done].
    destruct (get_children x'); simpl; [|done].
    intros [= <- <-]. simpl. exists (d ++ [Eupdate p])%list.
    rewrite Hd, <- app_assoc. split; [done|].
    assert (no_full (d ++ [Eupdate p])) by (apply no_full_app; simpl; auto).
    auto using no_full_calm.
Qed.

Lemma emit_loop_calm g fuel : ∀ node e e' nx,
  emit_loop g fuel node e = Some (e', nx) →
  ∃ d, trace e' = (trace e ++ d)%list ∧ calm d.
Proof.
  induction fuel as [|fuel IH]; intros node e e' nx Hloop; [done|].
  simpl in Hloop. destruct node as [n|]; simpl in Hloop; [|done].
  destruct (emit_aux g n e) as [[e1 n1]|] eqn:Hstep; simpl in Hloop; [|done].
  destruct (emit_aux_calm g n e e1 n1 Hstep) as (d1 & Hd1 & Hc1 & Hf1).
  match type of Hloop with
  | (if ?c then _ else _) = _ => destruct c eqn:Hgo
  end.
  - apply andb_true_iff in Hgo as [_ Hgo]. apply negb_true_iff in Hgo.
    destruct Hf1 as [Hf1|Hf1]; [|congruence].
    destruct (IH _ _ _ _ Hloop) as (d2 & Hd2 & Hc2).
    exists (d1 ++ d2)%list. rewrite Hd2, Hd1, <- app_assoc.
    auto using calm_app.
  - injection Hloop as <- <-. eauto.
Qed.

(** Quiescence after suspension, on every execution the embedding
    defines: the history of a call of [jemi_emit] ends with the terminator,
    and before it, once the sink was marked full, nothing was written, no
    state was assigned and no generator was called. *)
Theorem jemi_emit_quiescent g fuel root e e' nx :
  jemi_emit g fuel root e = Some (e', nx) →
  ∃ d, trace e' = (trace e ++ d ++ [Ewrite NUL])%list ∧ calm d.
Proof.
  unfold jemi_emit.
  destruct (emit_loop g fuel root e) as [[e0 n0]|] eqn:Hl; simpl; [|done].
  intros [= <- <-]. simpl.
  destruct (emit_loop_calm g fuel root e e0 n0 Hl) as (d & -> & Hc).
  exists d. by rewrite <- app_assoc.
Qed.
(** C10 — quiescence after suspension, on the code.  For a [JEMI_FLOAT]
    node whose literal does not fit, the float case marks the sink full and
    leaves the node in [JEMI_KEY_USED]; the switch then runs into the string
    case, whose block for that state formats [node->string], a member of
    the union that holds the double: the call has no defined result.  On a
    node whose union does hold a short string the same block, run on the
    same frame, writes the quoted string and advances the state twice after
    the sink was marked full. *)
Theorem float_literal_rejected_runs_on :
  ∃ f f1 f2,
    load 0 float_tight = Some f ∧
    case_float f = Some f1 ∧
    full (out f1) = true ∧ state (nd f1) = JEMI_KEY_USED ∧
    tr f1 = [Estate 0 JEMI_KEY_USED; Efull] ∧
    case_string f1 = None ∧
    emit_aux no_update 0 float_tight = None ∧
    jemi_emit no_update 1 (Some 0) float_tight = None ∧
    case_string (holding "" f1) = Some f2 ∧
    buf (out f2) = dquote +:+ dquote ∧
    state (nd f2) = JEMI_NODE_USED ∧
    ¬ calm (tr f2).
Proof.
  do 3 eexists. split; [reflexivity|].
  split; [vm_compute; reflexivity|].
  split_and!; try (vm_compute; reflexivity).
  vm_compute. tauto.
Qed.

(** With room for the literal the node is emitted and the string case has
    nothing left to do. *)
Lemma float_emitted :
  ∃ e', jemi_emit no_update 1 (Some 0) (start (mk_store [float_node] None) 100)
        = Some (e', None) ∧ buf (output e') = "1.500000".
Proof. eexists. split; vm_compute; reflexivity. Qed.

Lemma jemi_emit_quiescent_witness :
  full (output object_ab_suspended) = true ∧
  ∃ d, trace object_ab_suspended
       = (trace (refill object_ab_start 5) ++ d ++ [Ewrite NUL])%list ∧
       calm d.
Proof.
  split; [reflexivity|].
  apply (jemi_emit_quiescent no_update 20 (Some 1)
           (refill object_ab_start 5) object_ab_suspended (Some 3)).
  vm_compute. reflexivity.
Defined.

(** ** Allocation order *)

Lemma reset_loop_fresh n : ∀ i next pl,
  next = pred_ptr i →
  i + n ≤ length pl →
  (∀ j, i ≤ j → j < length pl → pl !! j = Some zero_node) →
  (∀ j, j < i → pl !! j = Some (set_sibling (pred_ptr j) zero_node)) →
  let '(pl', next') := reset_loop n i next pl in
  next' = pred_ptr (i + n) ∧ length pl' = length pl ∧
  ∀ j, j < i + n → pl' !! j = Some (set_sibling (pred_ptr j) zero_node).
Proof.
  induction n as [|n IH]; intros i next pl Hn Hlen Hz Hch; simpl.
  - rewrite Nat.add_0_r. auto.
  - specialize (IH (S i) (Some i) (alter (set_sibling next) i pl)).
    destruct (reset_loop n (S i) (Some i) (alter (set_sibling next) i pl))
      as [pl' next'] eqn:E.
    rewrite length_alter in IH.
    replace (i + S n) with (S i + n) by lia.
    destruct IH as (H1 & H2 & H3); [done | lia | | | by auto].
    + intros j Hj Hj'. rewrite list_lookup_alter_ne by lia. apply Hz; lia.
    + intros j Hj. destruct (decide (j = i)) as [->|Hne].
      * rewrite list_lookup_alter_eq, Hz by lia. simpl. by subst.
      * rewrite list_lookup_alter_ne by done. apply Hch. lia.
Qed.

Lemma jemi_reset_fresh n :
  fresh_chain n (jemi_reset n) ∧ length (pool (jemi_reset n)) = n.
Proof.
  unfold jemi_reset.
  pose proof (reset_loop_fresh n 0 None (replicate n zero_node)) as H.
  destruct (reset_loop n 0 None (replicate n zero_node)) as [pl next].
  rewrite length_replicate in H.
  destruct H as (H1 & H2 & H3); [done | simpl; lia | | intros; lia |].
  - intros j _ Hj. by apply lookup_replicate_2.
  - split; [split|]; simpl; auto.
Qed.

Lemma alloc_order_S n k :
  alloc_order n (S k) =
  (if decide (0 < n) then Some (n - 1) else None) ::
  map (λ i, if decide (S i < n) then Some (n - 1 - S i) else None) (seq 0 k).
Proof.
  unfold alloc_order. simpl. rewrite Nat.sub_0_r. f_equal.
  by rewrite <- seq_shift, map_map.
Qed.

Lemma alloc_all_fresh tys : ∀ m s,
  fresh_chain m s →
  ∃ s',
    alloc_all tys s =
      Some (s', map (λ i, if decide (i < m) then Some (m - 1 - i) else None)
                  (seq 0 (length tys))) ∧
    length (pool s') = length (pool s) ∧
    fresh_chain (m - length tys) s' ∧
    (∀ j, m ≤ j → pool s' !! j = pool s !! j) ∧
    ∀ i ty, tys !! i = Some ty → i < m →
            pool s' !! (m - 1 - i) = Some (set_type ty zero_node).
Proof.
  induction tys as [|ty tys IH]; intros m s [Hf Hch].
  - exists s. simpl. rewrite Nat.sub_0_r. split_and!; done.
  - destruct m as [|m].
    + destruct (IH 0 s) as (s' & Ha & Hlen & Hfr & Hfar & Hty); [done|].
      exists s'. unfold alloc_all; fold alloc_all. unfold jemi_alloc.
      rewrite Hf. simpl. rewrite Ha. simpl.
      split_and!; [|done..|intros; lia].
      do 2 f_equal. rewrite <- seq_shift, map_map. done.
    + set (s1 := mk_store (<[m := set_type ty zero_node]> (pool s))
                   (pred_ptr m)).
      assert (jemi_alloc ty s = Some (s1, Some m)) as Hal.
      { unfold jemi_alloc. rewrite Hf. simpl. rewrite Hch by lia. simpl.
        done. }
      assert (m < length (pool s)) as Hlen.
      { apply lookup_lt_is_Some. rewrite Hch by lia. eauto. }
      destruct (IH m s1) as (s' & Ha & Hlen' & Hfr & Hfar & Hty).
      { split; [done|]. intros j Hj. simpl.
        rewrite list_lookup_insert_ne by lia. apply Hch. lia. }
      exists s'. unfold alloc_all; fold alloc_all. rewrite Hal. simpl.
      rewrite Ha. simpl. split_and!.
      * do 2 f_equal. f_equal; [f_equal; lia|].
        rewrite <- seq_shift, map_map. apply map_ext. intros i.
        repeat case_decide; try lia; f_equal; lia.
      * rewrite Hlen'. simpl. by rewrite length_insert.
      * done.
      * intros j Hj. rewrite Hfar by lia. unfold s1. simpl.
        by rewrite list_lookup_insert_ne by lia.
      * intros [|i] ty' Hi Him; simpl in Hi.
        -- injection Hi as ->. rewrite !Nat.sub_0_r, Hfar by lia.
           unfold s1. simpl. by rewrite list_lookup_insert_eq.
        -- rewrite <- (Hty i ty') by (done || lia). f_equal. lia.
Qed.

Lemma alloc_order_lookup n k i a :
  alloc_order n k !! i = Some (Some a) → i < n ∧ a = n - 1 - i.
Proof.
  unfold alloc_order. rewrite list_lookup_fmap.
  destruct (seq 0 k !! i) as [i'|] eqn:E; [|done].
  apply lookup_seq in E as [-> _]. simpl.
  case_decide; [|done]. intros [= <-]. done.
Qed.

(** After [jemi_reset] on [n] slots, [n] being at most [INT_MAX], request
    [i] of a run of allocations returns slot [n - 1 - i] while [i < n], and
    the null pointer from then on; the slot it returns holds a node of the
    requested type that is zero in every other field, and no slot is
    returned twice. *)
Theorem alloc_after_reset (n : nat) (tys : list jemi_type_t) :
  (Z.of_nat n ≤ INT_MAX)%Z →
  ∃ s',
    alloc_all tys (jemi_reset n) = Some (s', alloc_order n (length tys)) ∧
    length (pool s') = n ∧
    (∀ i ty, tys !! i = Some ty → i < n →
             peek (n - 1 - i) s' = Some (set_type ty zero_node)) ∧
    (∀ i j a, alloc_order n (length tys) !! i = Some (Some a) →
              alloc_order n (length tys) !! j = Some (Some a) → i = j).
Proof.
  intros _.
  destruct (jemi_reset_fresh n) as [Hfr Hlen].
  destruct (alloc_all_fresh tys n _ Hfr) as (s' & Ha & Hl & _ & _ & Hty).
  exists s'. split_and!; [done | congruence | done |].
  intros i j a Hi%alloc_order_lookup Hj%alloc_order_lookup. lia.
Qed.

Lemma alloc_after_reset_witness :
  ∃ s',
    alloc_all [JEMI_INTEGER; JEMI_STRING; JEMI_NULL] (jemi_reset 2)
      = Some (s', alloc_order 2 (length [JEMI_INTEGER; JEMI_STRING; JEMI_NULL])) ∧
    length (pool s') = 2 ∧
    (∀ i ty, [JEMI_INTEGER; JEMI_STRING; JEMI_NULL] !! i = Some ty → i < 2 →
             peek (2 - 1 - i) s' = Some (set_type ty zero_node)) ∧
    (∀ i j a,
       alloc_order 2 (length [JEMI_INTEGER; JEMI_STRING; JEMI_NULL]) !! i
         = Some (Some a) →
       alloc_order 2 (length [JEMI_INTEGER; JEMI_STRING; JEMI_NULL]) !! j
         = Some (Some a) → i = j).
Proof.
  apply (alloc_after_reset 2 [JEMI_INTEGER; JEMI_STRING; JEMI_NULL]).
  unfold INT_MAX. lia.
Defined.

(** ** Emission of a tree *)

Lemma overflows_app o a b fl :
  overflows o (a +:+ b) = false →
  overflows o a = false ∧
  overflows (mk_out (buf o +:+ a) (bufLen o) fl) b = false.
Proof.
  unfold overflows. simpl. rewrite !length_append, !Z.gtb_ltb, !Z.ltb_ge.
  lia.
Qed.

Lemma accepted_all acts : ∀ o,
  overflows o (texts acts) = false → accepted acts o = length acts.
Proof.
  induction acts as [|[st|t st] rest IH]; intros o Ho; simpl in *.
  - done.
  - by rewrite IH.
  - apply (overflows_app _ _ _ (full o)) in Ho as [-> Ho]. by rewrite IH.
Qed.

Ltac elem_tac :=
  simpl; rewrite ?elem_of_cons, ?elem_of_app; auto 6.

Lemma laid_frame f : ∀ s s' par,
  (∀ q, q ∈ addrs f → pool s' !! q = pool s !! q) →
  laid s par f → laid s' par f.
Proof.
  induction f as [|a k v rest IH|a k b ch IHc rest IHr]; intros s s' par Hfr;
    simpl; [done| |].
  - intros [(x & Hx & H) Hrest]. split.
    + exists x. split; [|done]. unfold peek in *. rewrite Hfr; [done|].
      elem_tac.
    + apply (IH s); [|done]. intros q Hq. apply Hfr. elem_tac.
  - intros [(x & Hx & H) [Hch Hrest]]. split_and!.
    + exists x. split; [|done]. unfold peek in *. rewrite Hfr; [done|].
      elem_tac.
    + apply (IHc s); [|done]. intros q Hq. apply Hfr. elem_tac.
    + apply (IHr s); [|done]. intros q Hq. apply Hfr. elem_tac.
Qed.

Lemma first_addrs f a : first f = Some a → a ∈ addrs f.
Proof. destruct f; simpl; [done|intros [= ->]; elem_tac..]. Qed.

Lemma first_Nil f : first f = None ↔ f = Nil.
Proof. by destruct f. Qed.

Lemma holds_literal x v : holds x v → literal x = Some (scalar_text v).
Proof.
  unfold holds, literal. intros [-> H].
  destruct v; simpl; try done; by rewrite H.
Qed.

Lemma holds_key_size x v : holds x v → key_size x = scalar_key_size v.
Proof. unfold holds, key_size. intros [-> _]. by destruct v. Qed.

Lemma holds_plain x v : holds x v → plain x ∧ is_container x = false.
Proof.
  unfold holds, plain, is_container. intros [-> _].
  by destruct v.
Qed.

(** One call of [emit_aux] on a scalar node that has not been emitted, with
    room in the sink: key, literal and separating comma are written, the
    node is used and the call returns the sibling, or else the parent. *)
Lemma emit_aux_leaf g a e x v rest :
  peek a (mem e) = Some x → sibling x = first rest →
  state x = JEMI_NODE_UNUSED → holds x v →
  let text := key_text (scalar_key_size v) (key x) +:+ scalar_text v +:+
              comma rest in
  overflows (output e) text = false →
  ∃ t,
    emit_aux g a e =
    Some (mk_emitter
            (mk_store (<[a := set_state JEMI_NODE_USED x]> (pool (mem e)))
               (s_jemi_freelist (mem e)))
            (left e)
            (mk_out (buf (output e) +:+ text) (bufLen (output e))
               (full (output e)))
            t,
          match first rest with Some sb => Some sb | None => parent x end).
Proof.
  intros Hx Hsib Hst Hv text Ho.
  destruct (holds_plain x v Hv) as [Hpl Hc].
  set (acts := [key_action (key_size x) x; Emit (scalar_text v) JEMI_VAL_USED;
                comma_action x]).
  assert (plan x = Some acts) as Hplan.
  { unfold plan. rewrite Hc, Hst, (holds_literal x v Hv). done. }
  assert (texts acts = text) as Htx.
  { unfold acts, text, key_action, comma_action, key_text.
    rewrite (holds_key_size x v Hv), Hsib.
    destruct (key x), rest; simpl;
      rewrite ?append_nil_r, ?append_nil_l, ?append_assoc; done. }
  rewrite (emit_aux_plain g a e x acts Hx Hpl Hplan).
  rewrite accepted_all by (by rewrite Htx).
  rewrite Nat.ltb_irrefl, orb_false_r, firstn_all, Htx.
  eexists. f_equal. f_equal.
  - f_equal. f_equal. f_equal. f_equal.
    unfold acts, key_action, comma_action.
    destruct (key x), (sibling x); done.
  - unfold continue, descends. rewrite Hc. simpl.
    rewrite decide_False, Hsib; [done|].
    unfold key_action, comma_action. intros H. apply H.
    destruct (key x), (sibling x); done.
Qed.

Lemma bracket_plain x b :
  type x = bracket_type b → update x = None →
  plain x ∧ is_container x = true ∧
  brackets x = (opening b, closing b).
Proof.
  unfold plain, is_container, brackets. intros -> Hu.
  by destruct b.
Qed.

(** The first call of [emit_aux] on a container: key and opening bracket
    are written and the call returns the first child. *)
Lemma emit_aux_open g a e x b c :
  peek a (mem e) = Some x → state x = JEMI_NODE_UNUSED →
  type x = bracket_type b → update x = None → get_children x = Some c →
  let text := key_text 22 (key x) +:+ opening b in
  overflows (output e) text = false →
  ∃ t,
    emit_aux g a e =
    Some (mk_emitter
            (mk_store (<[a := set_state JEMI_CHILDREN_USED x]> (pool (mem e)))
               (s_jemi_freelist (mem e)))
            (left e)
            (mk_out (buf (output e) +:+ text) (bufLen (output e))
               (full (output e)))
            t,
          c).
Proof.
  intros Hx Hst Hty Hu Hch text Ho.
  destruct (bracket_plain x b Hty Hu) as (Hpl & Hc & Hbr).
  set (acts := [key_action 22 x; Emit (opening b) JEMI_CONTAINER_BEGUN;
                Quiet JEMI_CHILDREN_USED]).
  assert (plan x = Some acts) as Hplan.
  { unfold plan. rewrite Hc, Hst, Hch, Hbr. done. }
  assert (texts acts = text) as Htx.
  { unfold acts, text, key_action, key_text.
    destruct (key x); simpl;
      rewrite ?append_nil_r, ?append_nil_l, ?append_assoc; done. }
  rewrite (emit_aux_plain g a e x acts Hx Hpl Hplan).
  rewrite accepted_all by (by rewrite Htx).
  rewrite Nat.ltb_irrefl, orb_false_r, firstn_all, Htx.
  eexists. f_equal. f_equal.
  - f_equal. f_equal. f_equal. f_equal.
    unfold acts, key_action. destruct (key x); done.
  - unfold continue, descends. rewrite Hc, Hst, Hch. done.
Qed.

(** The call of [emit_aux] on a container after its children: the closing
    bracket is written, with the separating comma, the node is used and the
    call returns the sibling, or else the parent. *)
Lemma emit_aux_close g a e x b rest :
  peek a (mem e) = Some x → state x = JEMI_CHILDREN_USED →
  type x = bracket_type b → update x = None → sibling x = first rest →
  let text := closing b +:+ comma rest in
  overflows (output e) text = false →
  ∃ t,
    emit_aux g a e =
    Some (mk_emitter
            (mk_store (<[a := set_state JEMI_NODE_USED x]> (pool (mem e)))
               (s_jemi_freelist (mem e)))
            (left e)
            (mk_out (buf (output e) +:+ text) (bufLen (output e))
               (full (output e)))
            t,
          match first rest with Some sb => Some sb | None => parent x end).
Proof.
  intros Hx Hst Hty Hu Hsib text Ho.
  destruct (bracket_plain x b Hty Hu) as (Hpl & Hc & Hbr).
  set (acts := [close_action (closing b) x]).
  assert (plan x = Some acts) as Hplan.
  { unfold plan. rewrite Hc, Hst, Hbr. done. }
  assert (texts acts = text) as Htx.
  { unfold acts, text, close_action. rewrite Hsib.
    destruct b, rest; done. }
  rewrite (emit_aux_plain g a e x acts Hx Hpl Hplan).
  rewrite accepted_all by (by rewrite Htx).
  rewrite Nat.ltb_irrefl, orb_false_r, firstn_all, Htx.
  eexists. f_equal. f_equal.
  unfold continue, descends. rewrite Hc, Hst. simpl. by rewrite Hsib.
Qed.

Lemma emit_loop_step g fuel n e e1 nx :
  emit_aux g n e = Some (e1, nx) → full (output e1) = false →
  emit_loop g (S fuel) (Some n) e =
  match nx with
  | Some q => emit_loop g fuel (Some q) e1
  | None => Some (e1, None)
  end.
Proof. intros H Hf. simpl. rewrite H. simpl. rewrite Hf. by destruct nx. Qed.

(** The segment of the loop of [jemi_emit] that emits a forest: from the
    first node of [f] the loop writes [render f], leaves every node
    outside [f] as it was, and goes on with the parent of [f], or ends when
    there is none. *)
Lemma emit_forest g f : ∀ par e,
  f ≠ Nil → NoDup (addrs f) → laid (mem e) par f → inhabited f →
  overflows (output e) (render f) = false → full (output e) = false →
  ∃ e',
    output e' =
      mk_out (buf (output e) +:+ render f) (bufLen (output e)) false ∧
    left e' = left e ∧
    (∀ q, q ∉ addrs f → pool (mem e') !! q = pool (mem e) !! q) ∧
    (∀ q, q ∈ addrs f →
          pool (mem e') !! q = set_state JEMI_NODE_USED <$> pool (mem e) !! q) ∧
    ∀ fuel, emit_loop g (steps f + fuel) (first f) e =
            match par with
            | Some q => emit_loop g fuel (Some q) e'
            | None => Some (e', None)
            end.
Proof.
  induction f as [|a k v rest IH|a k b ch IHc rest IHr];
    intros par e Hne Hnd Hl Hin Ho Hfull; [done| |].
  - simpl in Hl. destruct Hl as [(x & Hx & Hsib & Hpar & Hst & Hkey & Hv) Hrest].
    simpl in Hnd. apply NoDup_cons in Hnd as [Ha Hnd].
    simpl in Ho. rewrite <- Hkey in Ho.
    rewrite <- !append_assoc in Ho. apply (overflows_app _ _ _ false) in Ho as [Ho1 Ho2].
    rewrite !append_assoc in Ho1.
    destruct (emit_aux_leaf g a e x v rest Hx Hsib Hst Hv Ho1) as [t Hstep].
    rewrite Hfull in Hstep.
    match type of Hstep with _ = Some (?E, _) => set (e1 := E) in * end.
    destruct (decide (first rest = None)) as [->%first_Nil|Hrne].
    + exists e1. split_and!.
      * simpl. rewrite <- Hkey, ?append_nil_r, ?append_assoc. done.
      * done.
      * intros q Hq. simpl. rewrite list_lookup_insert_ne; [done|].
        intros ->. apply Hq. elem_tac.
      * intros q [->|Hq]%elem_of_cons; [|by apply elem_of_nil in Hq].
        simpl. unfold peek in Hx. rewrite Hx. simpl.
        apply list_lookup_insert_eq. by apply lookup_lt_Some in Hx.
      * intros fuel. simpl. rewrite Hstep. simpl. rewrite Hpar.
        destruct par as [q|]; simpl; done.
    + destruct (IH par e1) as (e2 & Hout & Hleft & Hfr & Hus & Hloop);
        [by rewrite <- first_Nil | done | | done | | done | ].
      { apply (laid_frame rest (mem e)); [|done]. intros q Hq. simpl.
        rewrite list_lookup_insert_ne; [done|]. by intros ->. }
      { simpl. rewrite ?append_assoc. rewrite ?append_assoc in Ho2. done. }
      exists e2. split_and!.
      * rewrite Hout. simpl. rewrite <- Hkey, ?append_assoc. done.
      * by rewrite Hleft.
      * intros q Hq. rewrite Hfr by (intros ?; apply Hq; elem_tac).
        simpl. rewrite list_lookup_insert_ne; [done|].
        intros ->. apply Hq. elem_tac.
      * intros q [->|Hq]%elem_of_cons.
        -- rewrite Hfr by done. simpl. unfold peek in Hx. rewrite Hx. simpl.
           apply list_lookup_insert_eq. by apply lookup_lt_Some in Hx.
        -- rewrite Hus by done. simpl.
           rewrite list_lookup_insert_ne; [done|]. by intros ->.
      * intros fuel. simpl. rewrite Hstep. simpl.
        destruct (first rest) as [sb|] eqn:Hf; [|done].
        simpl. apply Hloop.
  - simpl in Hl.
    destruct Hl as [(x & Hx & Hsib & Hpar & Hst & Hkey & Hty & Hch & Hu)
                      [Hlc Hlr]].
    simpl in Hnd. apply NoDup_cons in Hnd as [Ha Hnd].
    apply NoDup_app in Hnd as (Hndc & Hdis & Hndr).
    apply not_elem_of_app in Ha as [Hac Har].
    simpl in Hin. destruct Hin as (Hcne & Hinc & Hinr).
    simpl in Ho. rewrite <- Hkey in Ho.
    rewrite <- (append_assoc (key_text 22 (key x))) in Ho.
    apply (overflows_app _ _ _ false) in Ho as [Ho1 Ho].
    apply (overflows_app _ _ _ false) in Ho as [Ho2 Ho].
    rewrite <- (append_assoc (closing b)) in Ho.
    apply (overflows_app _ _ _ false) in Ho as [Ho3 Ho4].
    (* the opening *)
    destruct (emit_aux_open g a e x b (first ch) Hx Hst Hty Hu Hch Ho1)
      as [t1 Hstep1].
    rewrite Hfull in Hstep1.
    match type of Hstep1 with _ = Some (?E, _) => set (e1 := E) in * end.
    (* the children *)
    destruct (IHc (Some a) e1)
      as (e2 & Hout2 & Hleft2 & Hfr2 & Hus2 & Hloop2);
      [done | done | | done | done | done |].
    { apply (laid_frame ch (mem e)); [|done]. intros q Hq. simpl.
      rewrite list_lookup_insert_ne; [done|]. by intros ->. }
    (* the closing *)
    set (x1 := set_state JEMI_CHILDREN_USED x).
    assert (peek a (mem e2) = Some x1) as Hx2.
    { unfold peek. rewrite Hfr2 by done. simpl.
      apply list_lookup_insert_eq. by apply lookup_lt_Some in Hx. }
    assert (overflows (output e2) (closing b +:+ comma rest) = false) as Ho3'.
    { by rewrite Hout2. }
    destruct (emit_aux_close g a e2 x1 b rest Hx2 eq_refl Hty Hu Hsib Ho3')
      as [t3 Hstep3].
    rewrite Hout2 in Hstep3. simpl in Hstep3.
    match type of Hstep3 with _ = Some (?E, _) => set (e3 := E) in * end.
    assert (∀ q, q ∉ a :: addrs ch →
                 pool (mem e3) !! q = pool (mem e) !! q) as Hfr3.
    { intros q Hq. apply not_elem_of_cons in Hq as [Hqa Hqc]. simpl.
      rewrite list_lookup_insert_ne by done. rewrite Hfr2 by done. simpl.
      by rewrite list_lookup_insert_ne. }
    assert (∀ q, q ∈ a :: addrs ch →
                 pool (mem e3) !! q
                 = set_state JEMI_NODE_USED <$> pool (mem e) !! q) as Hus3.
    { intros q [->|Hq]%elem_of_cons; simpl.
      - unfold peek in Hx, Hx2. rewrite Hx. simpl.
        rewrite list_lookup_insert_eq by (by apply lookup_lt_Some in Hx2).
        done.
      - assert (q ≠ a) by (by intros ->).
        rewrite list_lookup_insert_ne by done. rewrite Hus2 by done. simpl.
        by rewrite list_lookup_insert_ne. }
    assert (∀ fuel, emit_loop g (steps (Box a k b ch rest) + fuel) (Some a) e =
                    match first rest with
                    | Some sb => emit_loop g (steps rest + fuel) (Some sb) e3
                    | None => match par with
                              | Some q => emit_loop g fuel (Some q) e3
                              | None => Some (e3, None)
                              end
                    end) as Hloop3.
    { intros fuel.
      replace (steps (Box a k b ch rest) + fuel)
        with (S (steps ch + S (steps rest + fuel))) by (simpl; lia).
      rewrite (emit_loop_step g _ a e e1 (first ch) Hstep1 eq_refl).
      destruct (first ch) as [c|] eqn:Hfc; [|by apply first_Nil in Hfc].
      rewrite Hloop2.
      rewrite (emit_loop_step g _ a e2 e3 _ Hstep3 eq_refl).
      rewrite Hpar. by destruct rest. }
    destruct (decide (first rest = None)) as [Hrn|Hrne].
    + pose proof Hrn as ->%first_Nil. exists e3. split_and!.
      * simpl. rewrite <- Hkey, ?append_nil_r, ?append_assoc. done.
      * simpl. by rewrite Hleft2.
      * intros q Hq. apply Hfr3. simpl in Hq. by rewrite app_nil_r in Hq.
      * intros q Hq. apply Hus3. simpl in Hq. by rewrite app_nil_r in Hq.
      * intros fuel. rewrite Hloop3. done.
    + destruct (IHr par e3) as (e4 & Hout4 & Hleft4 & Hfr4 & Hus4 & Hloop4);
        [by rewrite <- first_Nil | done | | done | | done | ].
      { apply (laid_frame rest (mem e)); [|done]. intros q Hq.
        apply Hfr3. intros [->|Hq']%elem_of_cons; [done|].
        by apply (Hdis q). }
      { simpl in *. rewrite ?append_assoc. rewrite ?append_assoc in Ho4.
        done. }
      exists e4. split_and!.
      * rewrite Hout4. simpl. rewrite <- Hkey, ?append_assoc. done.
      * rewrite Hleft4. simpl. by rewrite Hleft2.
      * intros q Hq. simpl in Hq.
        apply not_elem_of_cons in Hq as [Hqa Hq].
        apply not_elem_of_app in Hq as [Hqc Hqr].
        rewrite Hfr4 by done. apply Hfr3. by apply not_elem_of_cons.
      * intros q Hq. simpl in Hq. rewrite app_comm_cons in Hq.
        apply elem_of_app in Hq as [Hq|Hq].
        -- rewrite Hfr4, Hus3; [done..|].
           apply elem_of_cons in Hq as [->|Hq]; [done|]. by apply Hdis.
        -- rewrite Hus4 by done. f_equal. apply Hfr3.
           intros [->|Hq']%elem_of_cons; [done|]. by apply (Hdis q).
      * intros fuel. rewrite Hloop3. simpl.
        destruct (first rest) as [sb|] eqn:Hf; [|done]. apply Hloop4.
Qed.

(** Emission of a tree.  Let the forest [f] be in the store, not yet
    emitted and with no parent, its nodes in distinct slots and none of its
    containers empty, and let the sink have room for [render f].  Then
    [jemi_emit], called on the first node of [f] with any generator table
    and enough fuel, returns the null pointer, has appended exactly
    [render f] to the sink without marking it full, has left every node
    of [f] in state [JEMI_NODE_USED] and otherwise as it was, and every
    node outside [f] as it was. *)
Theorem tree_emission g f e fuel :
  f ≠ Nil → NoDup (addrs f) → laid (mem e) None f → inhabited f →
  overflows (output e) (render f) = false → full (output e) = false →
  steps f ≤ fuel →
  ∃ e',
    jemi_emit g fuel (first f) e = Some (e', None) ∧
    buf (output e') = buf (output e) +:+ render f ∧
    full (output e') = false ∧
    (∀ q, q ∈ addrs f →
          peek q (mem e') = set_state JEMI_NODE_USED <$> peek q (mem e)) ∧
    (∀ q, q ∉ addrs f → peek q (mem e') = peek q (mem e)).
Proof.
  intros Hne Hnd Hl Hin Ho Hfull Hfuel.
  destruct (emit_forest g f None e Hne Hnd Hl Hin Ho Hfull)
    as (e' & Hout & _ & Hfr & Hus & Hloop).
  specialize (Hloop (fuel - steps f)).
  replace (steps f + (fuel - steps f)) with fuel in Hloop by lia.
  eexists. unfold jemi_emit. rewrite Hloop. simpl.
  split; [done|]. rewrite Hout. simpl. split_and!; done.
Qed.

Lemma tree_emission_witness :
  ∃ e',
    jemi_emit no_update 20 (first object_ab_forest)
      (refill object_ab_start 100) = Some (e', None) ∧
    buf (output e') =
      buf (output (refill object_ab_start 100)) +:+ render object_ab_forest ∧
    full (output e') = false ∧
    (∀ q, q ∈ addrs object_ab_forest →
          peek q (mem e')
          = set_state JEMI_NODE_USED
              <$> peek q (mem (refill object_ab_start 100))) ∧
    (∀ q, q ∉ addrs object_ab_forest →
          peek q (mem e') = peek q (mem (refill object_ab_start 100))).
Proof.
  apply (tree_emission no_update object_ab_forest
           (refill object_ab_start 100) 20).
  - discriminate.
  - apply (bool_decide_unpack _). vm_compute. reflexivity.
  - simpl. split_and!; try done;
      eexists; (split; [reflexivity|]); unfold holds; split_and!; reflexivity.
  - simpl. split_and!; done.
  - vm_compute. reflexivity.
  - reflexivity.
  - simpl. lia.
Defined.

(** The text of [object_ab]. *)
Lemma render_object_ab :
  render object_ab_forest = "{" +:+ dquote +:+ "a" +:+ dquote +:+ ":1," +:+
                            dquote +:+ "b" +:+ dquote +:+ ":2}".
Proof. vm_compute. reflexivity. Qed.

(** ** A node that has been emitted *)

(** One call of [emit_aux] on a node in state [JEMI_NODE_USED], of any
    type: nothing is written and nothing changes; the call returns the
    sibling, or else the parent. *)
Lemma emit_aux_used g n e x :
  peek n (mem e) = Some x → state x = JEMI_NODE_USED →
  emit_aux g n e =
  Some (e, match sibling x with Some sb => Some sb | None => parent x end).
Proof.
  destruct e as [s l o t]. destruct x as [sb pa ty st k pl up]. simpl.
  intros Hx ->. unfold emit_aux, load. simpl. rewrite Hx. simpl.
  assert (∀ r : ptr,
            Some (unload (mk_frame n
                            (mk_node sb pa ty JEMI_NODE_USED k pl up) l o t) s,
                  r)
            = Some (mk_emitter s l o t, r)) as Hun.
  { intros ?. unfold unload. simpl.
    by rewrite (list_insert_same _ _ _ Hx), store_eta. }
  destruct ty; unfold switch_type, case_object, case_array, case_integer,
    case_float, case_string, case_bool, case_null, key_block, comma_block,
    on_state; simpl; rewrite Hun; unfold after_switch; simpl; done.
Qed.

(** The loop of [jemi_emit] over a chain of siblings without a parent
    that have all been emitted: one call of [emit_aux] per sibling, and
    nothing changes. *)
Lemma emit_loop_spent g f : ∀ e0 e,
  f ≠ Nil → laid (mem e0) None f →
  (∀ q, q ∈ addrs f →
        peek q (mem e) = set_state JEMI_NODE_USED <$> peek q (mem e0)) →
  full (output e) = false →
  ∀ fuel, steps f ≤ fuel → emit_loop g fuel (first f) e = Some (e, None).
Proof.
  assert (∀ a x rest e0 e,
    peek a (mem e0) = Some x → sibling x = first rest → parent x = None →
    (∀ q, q ∈ a :: addrs rest →
          peek q (mem e) = set_state JEMI_NODE_USED <$> peek q (mem e0)) →
    emit_aux g a e = Some (e, first rest)) as Hstep.
  { intros a x rest e0 e Hx Hsib Hpar Hus.
    rewrite (emit_aux_used g a e (set_state JEMI_NODE_USED x)).
    - simpl. rewrite Hsib, Hpar. by destruct (first rest).
    - rewrite Hus, Hx; [done|]. elem_tac.
    - done. }
  induction f as [|a k v rest IH|a k b ch _ rest IH];
    intros e0 e Hne Hl Hus Hfull fuel Hfuel; [done| |];
    simpl in Hl, Hfuel; (destruct fuel as [|fuel]; [lia|]); cbn [first].
  - destruct Hl as [(x & Hx & Hsib & Hpar & _) Hrest].
    rewrite (emit_loop_step g fuel a e e (first rest)); [|eauto|done].
    destruct (first rest) as [sb|] eqn:Hf; [|done].
    apply (IH e0); [by intros ->| done | | done | lia].
    intros q Hq. apply Hus. elem_tac.
  - destruct Hl as [(x & Hx & Hsib & Hpar & _) [_ Hrest]].
    rewrite (emit_loop_step g fuel a e e (first rest)); [| |done].
    2:{ apply (Hstep a x rest e0); [done..|].
        intros q Hq. apply Hus. revert Hq. elem_tac. intros [|]; auto. }
    destruct (first rest) as [sb|] eqn:Hf; [|done].
    apply (IH e0); [by intros ->| done | | done | lia].
    intros q Hq. apply Hus. elem_tac.
Qed.

(** A tree is emitted once.  After the emission of [tree_emission], a
    second call of [jemi_emit] on the same root writes nothing to the
    sink, changes no node and returns the null pointer. *)
Theorem emitted_tree_is_spent g f e fuel :
  f ≠ Nil → NoDup (addrs f) → laid (mem e) None f → inhabited f →
  overflows (output e) (render f) = false → full (output e) = false →
  steps f ≤ fuel →
  ∃ e1 e2,
    jemi_emit g fuel (first f) e = Some (e1, None) ∧
    buf (output e1) = buf (output e) +:+ render f ∧
    jemi_emit g fuel (first f) e1 = Some (e2, None) ∧
    output e2 = output e1 ∧ mem e2 = mem e1.
Proof.
  intros Hne Hnd Hl Hin Ho Hfull Hfuel.
  destruct (emit_forest g f None e Hne Hnd Hl Hin Ho Hfull)
    as (e' & Hout & _ & Hfr & Hus & Hloop).
  specialize (Hloop (fuel - steps f)).
  replace (steps f + (fuel - steps f)) with fuel in Hloop by lia.
  set (e1 := mk_emitter (mem e') (left e') (output e')
                (trace e' ++ [Ewrite NUL])).
  assert (emit_loop g fuel (first f) e1 = Some (e1, None)) as Hsp.
  { apply (emit_loop_spent g f e); [done..| | |done].
    - intros q Hq. simpl. unfold peek. by apply Hus.
    - simpl. by rewrite Hout. }
  exists e1. eexists. unfold jemi_emit. rewrite Hloop, Hsp. simpl.
  split_and!; [done| |done..]. by rewrite Hout.
Qed.

Lemma emitted_tree_is_spent_witness :
  ∃ e1 e2,
    jemi_emit no_update 20 (first object_ab_forest)
      (refill object_ab_start 100) = Some (e1, None) ∧
    buf (output e1) =
      buf (output (refill object_ab_start 100)) +:+ render object_ab_forest ∧
    jemi_emit no_update 20 (first object_ab_forest) e1 = Some (e2, None) ∧
    output e2 = output e1 ∧ mem e2 = mem e1.
Proof.
  apply (emitted_tree_is_spent no_update object_ab_forest
           (refill object_ab_start 100) 20).
  - discriminate.
  - apply (bool_decide_unpack _). vm_compute. reflexivity.
  - simpl. split_and!; try done;
      eexists; (split; [reflexivity|]); unfold holds; split_and!; reflexivity.
  - simpl. split_and!; done.
  - vm_compute. reflexivity.
  - reflexivity.
  - simpl. lia.
Defined.

(** ** An empty container *)

(** The first call of [emit_aux] on a container, with or without a
    generator: key and opening bracket are written, the node is left in
    [JEMI_CHILDREN_USED] and the call returns [node->children]. *)
Lemma emit_aux_descend g n e x b c :
  peek n (mem e) = Some x → type x = bracket_type b →
  state x = JEMI_NODE_UNUSED → get_children x = Some c →
  overflows (output e) (key_text 22 (key x) +:+ opening b) = false →
  ∃ t,
    emit_aux g n e =
    Some (mk_emitter
            (mk_store (<[n := set_state JEMI_CHILDREN_USED x]> (pool (mem e)))
               (s_jemi_freelist (mem e)))
            (left e)
            (mk_out (buf (output e) +:+ key_text 22 (key x) +:+ opening b)
               (bufLen (output e)) (full (output e)))
            t,
          c).
Proof.
  destruct e as [s l [bf B fu] t]. destruct x as [sb pa ty st k pl up].
  simpl. intros Hx -> -> Hc Ho. unfold emit_aux, load. simpl.
  rewrite Hx. simpl.
  apply (overflows_app _ _ _ fu) in Ho as [Ho1 Ho2].
  unfold get_children in Hc. simpl in Hc.
  destruct pl; try done; injection Hc as <-;
    destruct b, k as [k|]; simpl in *;
    unfold switch_type, case_object, case_array, key_block, on_state,
      attempt, goto; simpl;
    rewrite ?emit_string_spec; simpl; rewrite ?Ho1; simpl;
    rewrite ?emit_string_spec; simpl;
    rewrite ?append_nil_r in Ho2; rewrite ?Ho2; simpl;
    rewrite ?append_assoc, ?append_nil_r; eexists; reflexivity.
Qed.

(** An empty container ends the emission.  [jemi_emit] called on a
    container that has no children writes its key and opening bracket and
    returns the null pointer at once, whatever siblings and parent the
    container has: the closing bracket and the rest of the tree are not
    written. *)
Theorem empty_container_ends_emission g n e x b fuel :
  peek n (mem e) = Some x → type x = bracket_type b →
  state x = JEMI_NODE_UNUSED → get_children x = Some None →
  overflows (output e) (key_text 22 (key x) +:+ opening b) = false →
  ∃ e',
    jemi_emit g (S fuel) (Some n) e = Some (e', None) ∧
    buf (output e') = buf (output e) +:+ key_text 22 (key x) +:+ opening b ∧
    full (output e') = full (output e) ∧
    peek n (mem e') = Some (set_state JEMI_CHILDREN_USED x).
Proof.
  intros Hx Hty Hst Hc Ho.
  destruct (emit_aux_descend g n e x b None Hx Hty Hst Hc Ho) as [t Hstep].
  eexists. unfold jemi_emit. simpl. rewrite Hstep. simpl.
  split_and!; [done..|].
  apply list_lookup_insert_eq. by apply lookup_lt_Some in Hx.
Qed.

Lemma empty_container_ends_emission_witness :
  ∃ e',
    jemi_emit no_update 1 (Some 2) nested_empty_start = Some (e', None) ∧
    buf (output e') =
      buf (output nested_empty_start) +:+ key_text 22 (Some "a") +:+
      opening Arr ∧
    full (output e') = full (output nested_empty_start) ∧
    peek 2 (mem e') =
      Some (set_state JEMI_CHILDREN_USED
              (mk_node (Some 1) (Some 0) JEMI_ARRAY JEMI_NODE_UNUSED
                 (Some "a") (Children None) None)).
Proof.
  apply (empty_container_ends_emission no_update 2 nested_empty_start
           (mk_node (Some 1) (Some 0) JEMI_ARRAY JEMI_NODE_UNUSED
              (Some "a") (Children None) None) Arr 0);
    try reflexivity.
Defined.

(** The object of [nested_empty], emitted from its root: the text ends
    with the opening bracket of the empty array and the call returns the
    null pointer. *)
Lemma nested_empty_emitted :
  ∃ e', jemi_emit no_update 20 (Some 0) nested_empty_start = Some (e', None) ∧
        buf (output e') = "{" +:+ dquote +:+ "a" +:+ dquote +:+ ":[".
Proof. eexists. split; vm_compute; reflexivity. Qed.

(** ** A sink of length zero *)

Lemma overflows_zero o data :
  bufLen o = 0%Z →
  (Z.of_nat (String.length (buf o)) + Z.of_nat (String.length data)
   < 2 ^ 64)%Z →
  overflows o data = false.
Proof.
  intros Hb Hl. unfold overflows. rewrite Hb, Z.gtb_ltb. apply Z.ltb_ge.
  change ((0 - 1) mod 2 ^ 64)%Z with (2 ^ 64 - 1)%Z. lia.
Qed.

(** A sink that announces a length of zero is never full.  With
    [bufLen = 0] the test of [emit_string] compares against
    [(size_t)-1]: the tree of [tree_emission] is written in full, and the
    sink is not marked full. *)
Theorem zero_length_sink_is_never_full g f e fuel :
  f ≠ Nil → NoDup (addrs f) → laid (mem e) None f → inhabited f →
  bufLen (output e) = 0%Z →
  (Z.of_nat (String.length (buf (output e))) +
   Z.of_nat (String.length (render f)) < 2 ^ 64)%Z →
  full (output e) = false →
  steps f ≤ fuel →
  ∃ e',
    jemi_emit g fuel (first f) e = Some (e', None) ∧
    buf (output e') = buf (output e) +:+ render f ∧
    full (output e') = false.
Proof.
  intros Hne Hnd Hl Hin Hb Hlen Hfull Hfuel.
  pose proof (overflows_zero _ _ Hb Hlen) as Ho.
  destruct (emit_forest g f None e Hne Hnd Hl Hin Ho Hfull)
    as (e' & Hout & _ & _ & _ & Hloop).
  specialize (Hloop (fuel - steps f)).
  replace (steps f + (fuel - steps f)) with fuel in Hloop by lia.
  eexists. unfold jemi_emit. rewrite Hloop. simpl.
  rewrite Hout. done.
Qed.

Lemma zero_length_sink_is_never_full_witness :
  ∃ e',
    jemi_emit no_update 20 (first object_ab_forest) object_ab_start
      = Some (e', None) ∧
    buf (output e') = buf (output object_ab_start) +:+ render object_ab_forest ∧
    full (output e') = false.
Proof.
  apply (zero_length_sink_is_never_full no_update object_ab_forest
           object_ab_start 20).
  - discriminate.
  - apply (bool_decide_unpack _). vm_compute. reflexivity.
  - simpl. split_and!; try done;
      eexists; (split; [reflexivity|]); unfold holds; split_and!; reflexivity.
  - simpl. split_and!; done.
  - reflexivity.
  - vm_compute. reflexivity.
  - reflexivity.
  - simpl. lia.
Defined.

(** ** The sink is never overrun *)

Lemma emit_string_within data f :
  within (out f) →
  within (out (emit_string data f).1) ∧
  bufLen (out (emit_string data f).1) = bufLen (out f).
Proof.
  rewrite emit_string_spec. unfold within.
  destruct (overflows (out f) data) eqn:Ho; simpl; [done|].
  intros [Hb Hl]. split_and!; try done; try lia.
  unfold overflows in Ho. rewrite Z.gtb_ltb in Ho. apply Z.ltb_ge in Ho.
  rewrite Z.mod_small in Ho by lia. rewrite length_append. lia.
Qed.

Lemma attempt_within text st f :
  within (out f) →
  within (out (attempt text st f)) ∧
  bufLen (out (attempt text st f)) = bufLen (out f).
Proof.
  intros H. destruct (emit_string_within text f H) as [H1 H2].
  unfold attempt. destruct (emit_string text f) as [f' []]; done.
Qed.

Lemma close_block_within c f :
  within (out f) →
  within (out (close_block c f)) ∧
  bufLen (out (close_block c f)) = bufLen (out f).
Proof. apply attempt_within. Qed.

Lemma key_block_within n f f' :
  key_block n f = Some f' → within (out f) →
  within (out f') ∧ bufLen (out f') = bufLen (out f).
Proof.
  unfold key_block, on_state. case_decide; [|by intros [= <-]].
  destruct (key (nd f)); intros [= <-]; [apply attempt_within | done].
Qed.

Lemma comma_block_within f f' :
  comma_block f = Some f' → within (out f) →
  within (out f') ∧ bufLen (out f') = bufLen (out f).
Proof.
  unfold comma_block, on_state. case_decide; [|by intros [= <-]].
  destruct (sibling (nd f)); intros [= <-]; [apply attempt_within | done].
Qed.

(** A scalar case of the [switch]: the key block, one attempt at a
    literal, the comma block. *)
Lemma scalar_case_within (body : frame → option frame) n f f' :
  (∀ f f', body f = Some f' → ∃ text st, f' = attempt text st f) →
  (f1 ← key_block n f; f2 ← on_state JEMI_KEY_USED body f1; comma_block f2)
    = Some f' →
  within (out f) →
  within (out f') ∧ bufLen (out f') = bufLen (out f).
Proof.
  intros Hbody H Hw.
  apply bind_Some in H as (f1 & H1 & H).
  apply bind_Some in H as (f2 & H2 & H3).
  destruct (key_block_within _ _ _ H1 Hw) as [Hw1 Hb1].
  assert (within (out f2) ∧ bufLen (out f2) = bufLen (out f1)) as [Hw2 Hb2].
  { unfold on_state in H2. case_decide; [|by injection H2 as <-].
    apply Hbody in H2 as (text & st & ->). by apply attempt_within. }
  destruct (comma_block_within _ _ H3 Hw2) as [Hw3 Hb3].
  split; [done|congruence].
Qed.

Ltac body_tac :=
  let f := fresh in let f' := fresh in let H := fresh in
  intros f f' H;
  repeat (apply bind_Some in H as (? & _ & H));
  injection H as <-; eauto.

Lemma case_integer_within f f' :
  case_integer f = Some f' → within (out f) →
  within (out f') ∧ bufLen (out f') = bufLen (out f).
Proof. apply scalar_case_within. body_tac. Qed.

Lemma case_float_within f f' :
  case_float f = Some f' → within (out f) →
  within (out f') ∧ bufLen (out f') = bufLen (out f).
Proof. apply scalar_case_within. body_tac. Qed.

Lemma case_string_within f f' :
  case_string f = Some f' → within (out f) →
  within (out f') ∧ bufLen (out f') = bufLen (out f).
Proof. apply scalar_case_within. body_tac. Qed.

Lemma case_bool_within f f' :
  case_bool f = Some f' → within (out f) →
  within (out f') ∧ bufLen (out f') = bufLen (out f).
Proof. apply scalar_case_within. body_tac. Qed.

Lemma case_null_within f f' :
  case_null f = Some f' → within (out f) →
  within (out f') ∧ bufLen (out f') = bufLen (out f).
Proof. apply scalar_case_within. body_tac. Qed.

Lemma open_block_within c f f' :
  on_state JEMI_KEY_USED (λ f, Some (attempt c JEMI_CONTAINER_BEGUN f)) f
    = Some f' →
  within (out f) →
  within (out f') ∧ bufLen (out f') = bufLen (out f).
Proof.
  unfold on_state. case_decide; intros [= <-]; [apply attempt_within|done].
Qed.

Lemma case_object_within f f' fl :
  case_object f = Some (f', fl) → within (out f) →
  within (out f') ∧ bufLen (out f') = bufLen (out f).
Proof.
  unfold case_object. intros H Hw.
  apply bind_Some in H as (f1 & H1 & H).
  apply bind_Some in H as (f2 & H2 & H).
  destruct (key_block_within _ _ _ H1 Hw) as [Hw1 Hb1].
  destruct (open_block_within _ _ _ H2 Hw1) as [Hw2 Hb2].
  case_decide.
  - simpl in H. apply bind_Some in H as (c & _ & [= <- <-]). simpl.
    split; [done|congruence].
  - unfold on_state in H. simpl in H. case_decide; injection H as <- <-.
    + destruct (close_block_within "}" f2 Hw2). split; [done|congruence].
    + split; [done|congruence].
Qed.

Lemma case_array_within f f' fl :
  case_array f = Some (f', fl) → within (out f) →
  within (out f') ∧ bufLen (out f') = bufLen (out f).
Proof.
  unfold case_array. intros H Hw.
  apply bind_Some in H as (f1 & H1 & H).
  apply bind_Some in H as (f2 & H2 & H).
  destruct (key_block_within _ _ _ H1 Hw) as [Hw1 Hb1].
  destruct (open_block_within _ _ _ H2 Hw1) as [Hw2 Hb2].
  case_decide.
  - simpl in H. apply bind_Some in H as (c & _ & [= <- <-]). simpl.
    split; [done|congruence].
  - case_decide; [|injection H as <- <-; split; [done|congruence]].
    destruct (update (nd f2)) as [u|].
    + case_decide.
      * destruct (emit_string_within "," f2 Hw2) as [Hw3 Hb3].
        destruct (emit_string "," f2) as [f3 []]; injection H as <- <-;
          (split; [done|simpl in *; congruence]).
      * injection H as <- <-.
        match goal with
        | |- context [close_block ?c ?F] =>
            destruct (close_block_within c F Hw2) as [Hw3 Hb3]
        end.
        split; [done|simpl in *; congruence].
    + injection H as <- <-.
      destruct (close_block_within "]" f2 Hw2). split; [done|congruence].
Qed.

Lemma switch_type_within f f' fl :
  switch_type f = Some (f', fl) → within (out f) →
  within (out f') ∧ bufLen (out f') = bufLen (out f).
Proof.
  unfold switch_type. intros H Hw. destruct (type (nd f)).
  - apply bind_Some in H as (f1 & H1 & [= <- <-]).
    by apply case_null_within.
  - by apply (case_object_within f f' fl).
  - by apply (case_array_within f f' fl).
  - apply bind_Some in H as (f1 & H1 & [= <- <-]).
    by apply case_integer_within.
  - apply bind_Some in H as (f1 & H1 & H).
    apply bind_Some in H as (f2 & H2 & [= <- <-]).
    destruct (case_float_within _ _ H1 Hw) as [Hw1 Hb1].
    destruct (case_string_within _ _ H2 Hw1) as [Hw2 Hb2].
    split; [done|congruence].
  - apply bind_Some in H as (f1 & H1 & [= <- <-]).
    by apply case_string_within.
  - apply bind_Some in H as (f1 & H1 & [= <- <-]).
    by apply case_bool_within.
  - apply bind_Some in H as (f1 & H1 & [= <- <-]).
    by apply case_bool_within.
Qed.

Lemma emit_aux_within g p e e' nx :
  emit_aux g p e = Some (e', nx) → within (output e) →
  within (output e') ∧ bufLen (output e') = bufLen (output e).
Proof.
  unfold emit_aux, load. intros H Hw.
  apply bind_Some in H as (f & Hf & H).
  apply bind_Some in Hf as (x & Hx & [= <-]).
  apply bind_Some in H as ([f' fl] & Hs & H).
  destruct (switch_type_within _ _ _ Hs Hw) as [Hw' Hb']. simpl in Hb'.
  destruct fl as [|r|u].
  - by injection H as <- <-.
  - by injection H as <- <-.
  - apply bind_Some in H as (c & _ & H). simpl in H.
    destruct (g u _ c) as [s v]. case_decide.
    + apply bind_Some in H as (x' & _ & H).
      apply bind_Some in H as (c' & _ & [= <- <-]). done.
    + apply bind_Some in H as (f2 & Hf2 & [= <- <-]).
      apply bind_Some in Hf2 as (x' & _ & [= <-]). simpl.
      match goal with
      | |- context [close_block ?c ?F] =>
          destruct (close_block_within c F Hw') as [Hw3 Hb3]
      end.
      split; [done|simpl in *; congruence].
Qed.

Lemma emit_loop_within g fuel : ∀ node e e' nx,
  emit_loop g fuel node e = Some (e', nx) → within (output e) →
  within (output e') ∧ bufLen (output e') = bufLen (output e).
Proof.
  induction fuel as [|fuel IH]; intros node e e' nx H Hw; [done|].
  simpl in H. apply bind_Some in H as (n & -> & H).
  apply bind_Some in H as ([e1 n1] & H1 & H).
  destruct (emit_aux_within _ _ _ _ _ H1 Hw) as [Hw1 Hb1].
  match type of H with (if ?c then _ else _) = _ => destruct c end.
  - destruct (IH _ _ _ _ H Hw1). split; [done|congruence].
  - by injection H as <- <-.
Qed.

(** The sink is never overrun.  When the caller hands [jemi_emit] a sink
    whose [bufLen] is at least 1 and whose contents, with their terminator,
    fit in [bufLen] bytes, then whatever the tree, the generators and the
    node the call starts at, the contents fit in [bufLen] bytes after the
    call as well, and [bufLen] is as it was. *)
Theorem sink_never_overrun g fuel root e e' nx :
  within (output e) →
  jemi_emit g fuel root e = Some (e', nx) →
  within (output e') ∧ bufLen (output e') = bufLen (output e).
Proof.
  intros Hw H. unfold jemi_emit in H.
  apply bind_Some in H as ([e1 n1] & H1 & [= <- <-]). simpl.
  by apply (emit_loop_within g fuel root e e1 n1).
Qed.

Lemma sink_never_overrun_witness :
  ∃ e' nx,
    jemi_emit no_update 20 (Some 1) (refill object_ab_start 5)
      = Some (e', nx) ∧
    within (output e') ∧
    bufLen (output e') = bufLen (output (refill object_ab_start 5)).
Proof.
  do 2 eexists. split; [vm_compute; reflexivity|].
  eapply (sink_never_overrun no_update 20 (Some 1) (refill object_ab_start 5)).
  - split; simpl; lia.
  - vm_compute. reflexivity.
Defined.

(** ** Building trees *)

Lemma single_cases t :
  single t →
  (∃ a k v, t = Leaf a k v Nil) ∨ (∃ a k b ch, t = Box a k b ch Nil).
Proof.
  destruct t as [|a k v [| |]|a k b ch [| |]]; simpl; try done; eauto 6.
Qed.

Lemma first_join ts : Forall single ts → first (join ts) = head (tops ts).
Proof.
  intros H. destruct H as [|t ts Ht _]; [done|].
  by destruct (single_cases t Ht) as [(a & k & v & ->)|(a & k & b & ch & ->)].
Qed.

Lemma tops_join ts q : Forall single ts → q ∈ tops ts → q ∈ addrs (join ts).
Proof.
  induction 1 as [|t ts Ht _ IH]; [done|].
  destruct (single_cases t Ht) as [(a & k & v & ->)|(a & k & b & ch & ->)];
    unfold tops; simpl; fold (tops ts);
    intros [->|Hq]%elem_of_cons; elem_tac.
Qed.

Lemma addrs_join t ts q :
  single t → q ∈ addrs t → q ∈ addrs (join (t :: ts)).
Proof.
  intros Ht.
  destruct (single_cases t Ht) as [(a & k & v & ->)|(a & k & b & ch & ->)];
    simpl; rewrite ?app_nil_r; intros [->|Hq]%elem_of_cons; elem_tac.
  by apply elem_of_nil in Hq.
Qed.

Lemma addrs_join_tail t ts q :
  q ∈ addrs (join ts) → q ∈ addrs (join (t :: ts)).
Proof. destruct t; elem_tac. Qed.

Lemma laid_join_cons s s' t ts par x a :
  single t → first t = Some a → NoDup (addrs t) →
  laid s None t → pool s !! a = Some x →
  pool s' !! a = Some (set_parent par (set_sibling (first (join ts)) x)) →
  (∀ q, q ∈ addrs t → q ≠ a → pool s' !! q = pool s !! q) →
  laid s' par (join ts) →
  laid s' par (join (t :: ts)).
Proof.
  intros Ht Hf Hnd Hl Hx Hx' Hfr Hts.
  destruct (single_cases t Ht) as [(a' & k & v & ->)|(a' & k & b & ch & ->)];
    simpl in Hf; injection Hf as ->; simpl in *.
  - destruct Hl as [(y & Hy & Hs & Hp & Hst & Hk & Hv) _].
    unfold peek in *. rewrite Hx in Hy. injection Hy as <-.
    split; [|done]. eexists. split; [exact Hx'|]. by destruct x.
  - destruct Hl as [(y & Hy & Hs & Hp & Hst & Hk & Hty & Hc & Hu) [Hch _]].
    unfold peek in *. rewrite Hx in Hy. injection Hy as <-.
    rewrite app_nil_r in *. apply NoDup_cons in Hnd as [Ha _].
    split_and!; [| |done].
    + eexists. split; [exact Hx'|]. by destruct x.
    + apply (laid_frame ch s); [|done]. intros q Hq. apply Hfr.
      * elem_tac.
      * by intros ->.
Qed.

Lemma NoDup_join_cons t ts :
  single t → NoDup (addrs (join (t :: ts))) →
  NoDup (addrs t) ∧ NoDup (addrs (join ts)) ∧
  ∀ q, q ∈ addrs t → q ∉ addrs (join ts).
Proof.
  intros Ht.
  destruct (single_cases t Ht) as [(a & k & v & ->)|(a & k & b & ch & ->)];
    simpl; rewrite ?app_nil_r.
  - intros [Ha Hnd]%NoDup_cons. split_and!; [|done|].
    + apply NoDup_singleton.
    + by intros q [->|[]%elem_of_nil]%elem_of_cons.
  - intros [Ha Hnd]%NoDup_cons.
    apply not_elem_of_app in Ha as [Hac Har].
    apply NoDup_app in Hnd as (Hndc & Hdis & Hndr).
    split_and!; [by apply NoDup_cons|done|].
    intros q [->|Hq]%elem_of_cons; [done|by apply Hdis].
Qed.

Lemma addrs_join_elem ts : ∀ t q,
  Forall single ts → t ∈ ts → q ∈ addrs t → q ∈ addrs (join ts).
Proof.
  induction ts as [|u ts IH]; intros t q Hsg Ht Hq.
  - by apply elem_of_nil in Ht.
  - apply Forall_cons in Hsg as [Hu Hsg].
    apply elem_of_cons in Ht as [->|Ht].
    + by apply addrs_join.
    + apply addrs_join_tail. by apply (IH t).
Qed.

(** The loop of the variadic container constructors on the roots of the
    trees [ts]: afterwards the trees are siblings in the order given, below
    [root]. *)
Lemma link_elements_laid root : ∀ ts s,
  Forall single ts → Forall (laid s None) ts → NoDup (addrs (join ts)) →
  ∃ s',
    link_elements root (tops ts) s = Some s' ∧
    laid s' root (join ts) ∧
    s_jemi_freelist s' = s_jemi_freelist s ∧
    ∀ q, q ∉ tops ts → pool s' !! q = pool s !! q.
Proof.
  induction ts as [|t ts IH]; intros s Hsg Hl Hnd.
  { exists s. done. }
  apply Forall_cons in Hsg as [Ht Hsg]. apply Forall_cons in Hl as [Hlt Hl].
  destruct (NoDup_join_cons t ts Ht Hnd) as (Hndt & Hndts & Hdis).
  assert (∃ a x, first t = Some a ∧ pool s !! a = Some x ∧ a ∈ addrs t)
    as (a & x & Hf & Hx & Hat).
  { destruct (single_cases t Ht) as [(a & k & v & ->)|(a & k & b & ch & ->)];
      simpl in Hlt; destruct Hlt as [(x & Hx & _) _]; exists a, x;
      split_and!; try done; elem_tac. }
  unfold tops. simpl. rewrite Hf. simpl. fold (tops ts).
  set (x2 := set_parent root (set_sibling (head (tops ts)) x)).
  set (s2 := mk_store (<[a := x2]> (pool s)) (s_jemi_freelist s)).
  assert (a < length (pool s)) as Hlen by (by apply lookup_lt_Some in Hx).
  assert (∀ q, q ≠ a → pool s2 !! q = pool s !! q) as Hfr2.
  { intros q Hq. unfold s2. simpl. by rewrite list_lookup_insert_ne. }
  destruct (IH s2) as (s' & Hlink & Hlaid & Hfl & Hfr); [done| |done|].
  { apply Forall_forall. intros t' Ht'.
    rewrite Forall_forall in Hl.
    apply (laid_frame t' s); [|by apply Hl].
    intros q Hq. apply Hfr2. intros ->.
    apply (Hdis a Hat). by apply (addrs_join_elem ts t'). }
  exists s'. split_and!.
  - unfold poke. rewrite Hx. simpl.
    rewrite list_lookup_insert_eq by done. simpl.
    rewrite list_insert_insert_eq. exact Hlink.
  - apply (laid_join_cons s s' t ts root x a); try done.
    + rewrite Hfr.
      * unfold s2. simpl. rewrite list_lookup_insert_eq by done.
        by rewrite first_join.
      * intros Hq. apply (Hdis a Hat). by apply tops_join.
    + intros q Hq Hqa. rewrite Hfr, Hfr2; [done..|].
      intros Hq'. apply (Hdis q Hq). by apply tops_join.
  - by rewrite Hfl.
  - intros q Hq. apply not_elem_of_cons in Hq as [Hqa Hq].
    by rewrite Hfr, Hfr2.
Qed.

(** The loop of [jemi_list]: the trees become siblings in the order
    given, with no parent. *)
Lemma list_elements_laid : ∀ ts s,
  Forall single ts → Forall (laid s None) ts → NoDup (addrs (join ts)) →
  ∃ s',
    list_elements (tops ts) s = Some s' ∧
    laid s' None (join ts) ∧
    s_jemi_freelist s' = s_jemi_freelist s ∧
    ∀ q, q ∉ tops ts → pool s' !! q = pool s !! q.
Proof.
  induction ts as [|t ts IH]; intros s Hsg Hl Hnd.
  { exists s. done. }
  apply Forall_cons in Hsg as [Ht Hsg]. apply Forall_cons in Hl as [Hlt Hl].
  destruct (NoDup_join_cons t ts Ht Hnd) as (Hndt & Hndts & Hdis).
  assert (∃ a x, first t = Some a ∧ pool s !! a = Some x ∧ a ∈ addrs t ∧
                 parent x = None)
    as (a & x & Hf & Hx & Hat & Hpar).
  { destruct (single_cases t Ht) as [(a & k & v & ->)|(a & k & b & ch & ->)];
      simpl in Hlt; destruct Hlt as [(x & Hx & _ & Hp & _) _]; exists a, x;
      split_and!; try done; elem_tac. }
  unfold tops. simpl. rewrite Hf. simpl. fold (tops ts).
  set (x2 := set_sibling (head (tops ts)) x).
  set (s2 := mk_store (<[a := x2]> (pool s)) (s_jemi_freelist s)).
  assert (a < length (pool s)) as Hlen by (by apply lookup_lt_Some in Hx).
  assert (∀ q, q ≠ a → pool s2 !! q = pool s !! q) as Hfr2.
  { intros q Hq. unfold s2. simpl. by rewrite list_lookup_insert_ne. }
  destruct (IH s2) as (s' & Hlink & Hlaid & Hfl & Hfr); [done| |done|].
  { apply Forall_forall. intros t' Ht'.
    rewrite Forall_forall in Hl.
    apply (laid_frame t' s); [|by apply Hl].
    intros q Hq. apply Hfr2. intros ->.
    apply (Hdis a Hat). by apply (addrs_join_elem ts t'). }
  exists s'. split_and!.
  - unfold poke. rewrite Hx. simpl. exact Hlink.
  - apply (laid_join_cons s s' t ts None x a); try done.
    + rewrite Hfr.
      * unfold s2. simpl. rewrite list_lookup_insert_eq by done.
        rewrite first_join by done. unfold x2. f_equal.
        destruct x; simpl in *; by subst.
      * intros Hq. apply (Hdis a Hat). by apply tops_join.
    + intros q Hq Hqa. rewrite Hfr, Hfr2; [done..|].
      intros Hq'. apply (Hdis q Hq). by apply tops_join.
  - by rewrite Hfl.
  - intros q Hq. apply not_elem_of_cons in Hq as [Hqa Hq].
    by rewrite Hfr, Hfr2.
Qed.

(** [jemi_list] on the roots of the trees [ts], which lie in the store
    without parents and in distinct slots: the call returns the first root,
    the trees are siblings in the order given, still without a parent, and
    no slot but the roots has changed. *)
Theorem jemi_list_lays_forest ts s :
  Forall single ts → Forall (laid s None) ts → NoDup (addrs (join ts)) →
  ∃ s',
    jemi_list (tops ts) s = Some (s', first (join ts)) ∧
    laid s' None (join ts) ∧
    s_jemi_freelist s' = s_jemi_freelist s ∧
    ∀ q, q ∉ tops ts → peek q s' = peek q s.
Proof.
  intros Hsg Hl Hnd.
  destruct (list_elements_laid ts s Hsg Hl Hnd) as (s' & Hle & H).
  exists s'. unfold jemi_list. rewrite Hle. simpl.
  by rewrite first_join.
Qed.

Lemma container_built b k ts m s :
  fresh_chain (S m) s →
  Forall single ts → Forall (laid s None) ts → NoDup (addrs (join ts)) →
  (∀ q, q ∈ addrs (join ts) → m < q) →
  ∃ s',
    match b with Arr => jemi_array | Obj => jemi_object end k (tops ts) s
      = Some (s', Some m) ∧
    laid s' None (Box m k b (join ts) Nil) ∧
    NoDup (addrs (Box m k b (join ts) Nil)) ∧
    fresh_chain m s' ∧
    ∀ q, q ≠ m → q ∉ tops ts → peek q s' = peek q s.
Proof.
  intros [Hfl Hch] Hsg Hl Hnd Habove.
  set (x1 := set_payload (Children (head (tops ts)))
               (set_key k (set_type (bracket_type b) zero_node))).
  set (s1 := mk_store (<[m := x1]> (pool s)) (pred_ptr m)).
  assert (m < length (pool s)) as Hlen.
  { apply lookup_lt_is_Some. rewrite Hch by lia. eauto. }
  assert (∀ q, q ≠ m → pool s1 !! q = pool s !! q) as Hfr1.
  { intros q Hq. unfold s1. simpl. by rewrite list_lookup_insert_ne. }
  destruct (link_elements_laid (Some m) ts s1) as (s' & Hlink & Hlaid & Hfl' & Hfr);
    [done| |done|].
  { apply Forall_forall. intros t Ht. rewrite Forall_forall in Hl.
    apply (laid_frame t s); [|by apply Hl].
    intros q Hq. apply Hfr1.
    pose proof (Habove q (addrs_join_elem ts t q Hsg Ht Hq)). lia. }
  assert (m ∉ tops ts) as Hm.
  { intros Hq%tops_join; [|done]. apply Habove in Hq. lia. }
  exists s'. split_and!.
  - assert (∀ ty, bracket_type b = ty →
       (s0 ← Some (mk_store (<[m := set_state JEMI_NODE_UNUSED
                      (set_type ty (set_sibling None
                         (set_sibling (pred_ptr m) zero_node)))]> (pool s))
                    (sibling (set_sibling (pred_ptr m) zero_node)));
        s0 ← poke m (set_key k) s0;
        s0 ← poke m (set_payload (Children (head (tops ts)))) s0;
        s0 ← link_elements (Some m) (tops ts) s0; Some (s0, Some m))
       = Some (s', Some m)) as Hrun.
    { intros ty <-. simpl. unfold poke. simpl.
      rewrite list_lookup_insert_eq by done. simpl.
      rewrite list_insert_insert_eq.
      rewrite list_lookup_insert_eq by done. simpl.
      rewrite list_insert_insert_eq.
      match goal with
      | |- context [link_elements _ _ ?S] => change S with s1
      end.
      by rewrite Hlink. }
    destruct b; unfold jemi_array, jemi_object, jemi_alloc;
      rewrite Hfl; simpl; rewrite Hch by lia; simpl;
      by apply (Hrun _ eq_refl).
  - simpl. split_and!; [|done..].
    exists x1. unfold peek. rewrite Hfr by done. unfold s1. simpl.
    rewrite list_lookup_insert_eq by done.
    split_and!; try done. simpl. by rewrite first_join.
  - simpl. rewrite app_nil_r. apply NoDup_cons. split; [|done].
    intros Hq%Habove. lia.
  - split; [by rewrite Hfl'|].
    intros j Hj. rewrite Hfr, Hfr1, Hch; [done|lia..|].
    intros Hq%tops_join; [|done]. apply Habove in Hq. lia.
  - intros q Hq Hqt. unfold peek. by rewrite Hfr, Hfr1.
Qed.

(** [jemi_array] and [jemi_object] on the roots of the trees [ts], with
    [m + 1] fresh slots on the freelist and the trees in slots above them:
    the call takes slot [m] for the container, which gets the key and has
    the trees as its children in the order given, each with the container
    as its parent.  The freelist keeps its [m] fresh slots and no slot but
    [m] and the roots has changed. *)
Theorem containers_lay_tree b k ts m s :
  fresh_chain (S m) s →
  Forall single ts → Forall (laid s None) ts → NoDup (addrs (join ts)) →
  (∀ q, q ∈ addrs (join ts) → m < q) →
  ∃ s',
    match b with Arr => jemi_array | Obj => jemi_object end k (tops ts) s
      = Some (s', Some m) ∧
    laid s' None (Box m k b (join ts) Nil) ∧
    NoDup (addrs (Box m k b (join ts) Nil)) ∧
    fresh_chain m s' ∧
    ∀ q, q ≠ m → q ∉ tops ts → peek q s' = peek q s.
Proof. apply container_built. Qed.

Lemma alloc_fresh ty m s :
  fresh_chain (S m) s →
  jemi_alloc ty s =
    Some (mk_store (<[m := set_type ty zero_node]> (pool s)) (pred_ptr m),
          Some m) ∧
  m < length (pool s).
Proof.
  intros [Hfl Hch]. unfold jemi_alloc. rewrite Hfl. simpl.
  rewrite Hch by lia. simpl. split; [done|].
  apply lookup_lt_is_Some. rewrite Hch by lia. eauto.
Qed.

Lemma fresh_chain_insert m s x fl :
  fresh_chain (S m) s → fl = pred_ptr m →
  fresh_chain m (mk_store (<[m := x]> (pool s)) fl).
Proof.
  intros [Hfl Hch] ->. split; [done|]. intros j Hj. simpl.
  rewrite list_lookup_insert_ne by lia. apply Hch. lia.
Qed.

Lemma leaf_built_intro m s x k v r :
  fresh_chain (S m) s →
  r = Some (mk_store (<[m := x]> (pool s)) (pred_ptr m), Some m) →
  sibling x = None → parent x = None → state x = JEMI_NODE_UNUSED →
  key x = k → holds x v →
  leaf_built r m s k v.
Proof.
  intros Hfr -> Hs Hp Hst Hk Hv.
  destruct (alloc_fresh JEMI_NULL m s Hfr) as [_ Hlen].
  eexists. split; [reflexivity|]. split_and!.
  - simpl. split; [|done]. exists x. unfold peek. simpl.
    by rewrite list_lookup_insert_eq.
  - by apply fresh_chain_insert.
  - intros q Hq. unfold peek. simpl. by rewrite list_lookup_insert_ne.
Qed.

(** The scalar constructors with [m + 1] fresh slots on the freelist: each
    takes slot [m] and leaves there a tree of one node with the key and the
    value it was given. *)
Theorem scalars_lay_leaf m s k i str b :
  fresh_chain (S m) s →
  leaf_built (jemi_integer k i s) m s k (SInt i) ∧
  leaf_built (jemi_string k (Some str) s) m s k (SStr str) ∧
  leaf_built (jemi_bool k b s) m s k (if b then STrue else SFalse) ∧
  leaf_built (jemi_true s) m s None STrue ∧
  leaf_built (jemi_false s) m s None SFalse ∧
  leaf_built (jemi_null s) m s None SNull.
Proof.
  intros Hfr.
  assert (∀ ty, jemi_alloc ty s =
                Some (mk_store (<[m := set_type ty zero_node]> (pool s))
                        (pred_ptr m), Some m)) as Hal.
  { intros ty. by apply alloc_fresh. }
  destruct (alloc_fresh JEMI_NULL m s Hfr) as [_ Hlen].
  destruct b; repeat apply conj; eapply leaf_built_intro; try exact Hfr;
    unfold jemi_integer, jemi_string, jemi_bool, jemi_true, jemi_false,
      jemi_null;
    rewrite ?Hal; simpl; unfold poke; simpl;
    rewrite ?list_lookup_insert_eq by (by rewrite ?length_insert); simpl;
    rewrite ?list_insert_insert_eq;
    rewrite ?list_lookup_insert_eq by (by rewrite ?length_insert); simpl;
    rewrite ?list_insert_insert_eq; try reflexivity; by unfold holds.
Qed.

Lemma scalars_lay_leaf_witness :
  leaf_built (jemi_integer (Some "a") 1 (jemi_reset 4)) 3 (jemi_reset 4)
    (Some "a") (SInt 1) ∧
  leaf_built (jemi_string (Some "a") (Some "x") (jemi_reset 4)) 3
    (jemi_reset 4) (Some "a") (SStr "x") ∧
  leaf_built (jemi_bool (Some "a") true (jemi_reset 4)) 3 (jemi_reset 4)
    (Some "a") (if true then STrue else SFalse) ∧
  leaf_built (jemi_true (jemi_reset 4)) 3 (jemi_reset 4) None STrue ∧
  leaf_built (jemi_false (jemi_reset 4)) 3 (jemi_reset 4) None SFalse ∧
  leaf_built (jemi_null (jemi_reset 4)) 3 (jemi_reset 4) None SNull.
Proof.
  apply (scalars_lay_leaf 3 (jemi_reset 4) (Some "a") 1 "x" true).
  split; [reflexivity|].
  intros [|[|[|[|j]]]] Hj; [reflexivity..|lia].
Defined.

Lemma two_integers_laid :
  Forall single [integer_a; integer_b] ∧
  Forall (laid two_integers None) [integer_a; integer_b] ∧
  NoDup (addrs (join [integer_a; integer_b])) ∧
  fresh_chain 2 two_integers.
Proof.
  split_and!.
  - repeat constructor.
  - repeat constructor; eexists; (split; [reflexivity|]);
      unfold holds; split_and!; reflexivity.
  - apply (bool_decide_unpack _). vm_compute. reflexivity.
  - split; [reflexivity|]. intros [|[|j]] Hj; [reflexivity..|lia].
Qed.

Lemma jemi_list_lays_forest_witness :
  ∃ s',
    jemi_list (tops [integer_a; integer_b]) two_integers
      = Some (s', first (join [integer_a; integer_b])) ∧
    laid s' None (join [integer_a; integer_b]) ∧
    s_jemi_freelist s' = s_jemi_freelist two_integers ∧
    ∀ q, q ∉ tops [integer_a; integer_b] → peek q s' = peek q two_integers.
Proof.
  destruct two_integers_laid as (H1 & H2 & H3 & _).
  exact (jemi_list_lays_forest [integer_a; integer_b] two_integers H1 H2 H3).
Defined.

Lemma containers_lay_tree_witness :
  ∃ s',
    jemi_object None (tops [integer_a; integer_b]) two_integers
      = Some (s', Some 1) ∧
    laid s' None (Box 1 None Obj (join [integer_a; integer_b]) Nil) ∧
    NoDup (addrs (Box 1 None Obj (join [integer_a; integer_b]) Nil)) ∧
    fresh_chain 1 s' ∧
    ∀ q, q ≠ 1 → q ∉ tops [integer_a; integer_b] →
         peek q s' = peek q two_integers.
Proof.
  destruct two_integers_laid as (H1 & H2 & H3 & H4).
  apply (containers_lay_tree Obj None [integer_a; integer_b] 1 two_integers
           H4 H1 H2 H3).
  simpl. intros q Hq.
  repeat (apply elem_of_cons in Hq as [->|Hq]; [lia|]).
  by apply elem_of_nil in Hq.
Defined.

Lemma join_not_Nil ts : Forall single ts → ts ≠ [] → join ts ≠ Nil.
Proof.
  intros [|t ts' Ht _] Hne; [done|].
  by destruct (single_cases t Ht) as [(a & k & v & ->)|(a & k & b & ch & ->)].
Qed.

(** Building and emitting.  A container built by [jemi_array] or
    [jemi_object] from at least one tree, each tree with its containers
    inhabited, and emitted by one call of [jemi_emit] into an empty sink with
    room for it: the call returns the null pointer and the sink holds the
    key, the opening bracket, the text of the members and the closing
    bracket. *)
Theorem built_container_emits g b k ts m s cap fuel :
  fresh_chain (S m) s →
  Forall single ts → Forall (laid s None) ts → NoDup (addrs (join ts)) →
  (∀ q, q ∈ addrs (join ts) → m < q) →
  ts ≠ [] → inhabited (join ts) →
  overflows (mk_out "" cap false) (render (Box m k b (join ts) Nil)) = false →
  2 + steps (join ts) ≤ fuel →
  ∃ s' e',
    match b with Arr => jemi_array | Obj => jemi_object end k (tops ts) s
      = Some (s', Some m) ∧
    jemi_emit g fuel (Some m) (start s' cap) = Some (e', None) ∧
    buf (output e') =
      key_text 22 k +:+ opening b +:+ render (join ts) +:+ closing b ∧
    full (output e') = false.
Proof.
  intros Hfr Hsg Hl Hnd Hab Hne Hin Ho Hfuel.
  destruct (container_built b k ts m s Hfr Hsg Hl Hnd Hab)
    as (s' & Hc & Hlaid & Hnd' & _).
  set (f := Box m k b (join ts) Nil) in *.
  destruct (emit_forest g f None (start s' cap)) as (e' & Hout & _ & _ & _ & Hloop);
    [done | done | done | | done | done |].
  { simpl. split_and!; [by apply join_not_Nil|done..]. }
  specialize (Hloop (fuel - steps f)).
  replace (steps f + (fuel - steps f)) with fuel in Hloop
    by (unfold f; simpl; lia).
  exists s'. eexists. split; [done|]. unfold jemi_emit.
  change (Some m) with (first f). rewrite Hloop. simpl.
  split; [done|]. rewrite Hout. simpl.
  rewrite !append_nil_r, append_nil_l. done.
Qed.

Lemma built_container_emits_witness :
  ∃ s' e',
    jemi_object None (tops [integer_a; integer_b]) two_integers
      = Some (s', Some 1) ∧
    jemi_emit no_update 20 (Some 1) (start s' 100) = Some (e', None) ∧
    buf (output e') =
      key_text 22 None +:+ opening Obj +:+
      render (join [integer_a; integer_b]) +:+ closing Obj ∧
    full (output e') = false.
Proof.
  destruct two_integers_laid as (H1 & H2 & H3 & H4).
  apply (built_container_emits no_update Obj None [integer_a; integer_b] 1
           two_integers 100 20 H4 H1 H2 H3).
  - simpl. intros q Hq.
    repeat (apply elem_of_cons in Hq as [->|Hq]; [lia|]).
    by apply elem_of_nil in Hq.
  - discriminate.
  - simpl. done.
  - vm_compute. reflexivity.
  - simpl. lia.
Defined.

(** ** Appending *)

Lemma last_loop_laid f : ∀ s par fuel prev,
  laid s par f → width f ≤ fuel →
  last_loop fuel (pool s) prev (first f) = Some (last_from prev f).
Proof.
  induction f as [|a k v rest IH|a k b ch _ rest IH];
    intros s par fuel prev Hl Hf; simpl in *.
  - by destruct fuel.
  - destruct fuel as [|fuel]; [lia|]. simpl.
    destruct Hl as [(x & Hx & Hs & _) Hrest]. unfold peek in Hx.
    rewrite Hx. simpl. rewrite Hs. apply (IH s par); [done|lia].
  - destruct fuel as [|fuel]; [lia|]. simpl.
    destruct Hl as [(x & Hx & Hs & _) [_ Hrest]]. unfold peek in Hx.
    rewrite Hx. simpl. rewrite Hs. apply (IH s par); [done|lia].
Qed.

Lemma last_from_addrs f : ∀ prev a,
  f ≠ Nil → last_from prev f = Some a → a ∈ addrs f.
Proof.
  induction f as [|a0 k v rest IH|a0 k b ch _ rest IH];
    intros prev a Hne Hl; [done| |]; simpl in *.
  - destruct (decide (first rest = None)) as [->%first_Nil|Hr].
    + injection Hl as <-. elem_tac.
    + apply elem_of_cons. right. apply (IH (Some a0)); [|done].
      by rewrite <- first_Nil.
  - destruct (decide (first rest = None)) as [->%first_Nil|Hr].
    + injection Hl as <-. elem_tac.
    + apply elem_of_cons. right. apply elem_of_app. right.
      apply (IH (Some a0)); [|done]. by rewrite <- first_Nil.
Qed.

Lemma first_fapp f1 f2 : f1 ≠ Nil → first (fapp f1 f2) = first f1.
Proof. by destruct f1. Qed.

Lemma laid_fapp f1 : ∀ s par prev f2 a x fl,
  f1 ≠ Nil → last_from prev f1 = Some a →
  laid s par f1 → laid s par f2 → NoDup (addrs f1 ++ addrs f2) →
  pool s !! a = Some x →
  laid (mk_store (<[a := set_sibling (first f2) x]> (pool s)) fl) par
    (fapp f1 f2).
Proof.
  induction f1 as [|a0 k v rest IH|a0 k b ch _ rest IH];
    intros s par prev f2 a x fl Hne Hlast Hl1 Hl2 Hnd Hx; [done| |];
    simpl in *.
  - destruct Hl1 as [(x0 & Hx0 & Hs & Hrest0) Hrest].
    apply NoDup_cons in Hnd as [Ha0 Hnd].
    apply not_elem_of_app in Ha0 as [Ha0r Ha02].
    destruct (decide (first rest = None)) as [Hr|Hr].
    + pose proof Hr as ->%first_Nil. simpl in *. injection Hlast as <-.
      unfold peek in *. rewrite Hx in Hx0. injection Hx0 as <-.
      split.
      * eexists. split.
        -- simpl. apply list_lookup_insert_eq. by apply lookup_lt_Some in Hx.
        -- by destruct x.
      * apply (laid_frame f2 s); [|done]. intros q Hq. simpl.
        rewrite list_lookup_insert_ne; [done|]. by intros ->.
    + assert (rest ≠ Nil) as Hrn by (by rewrite <- first_Nil).
      pose proof (last_from_addrs rest _ a Hrn Hlast) as Har.
      split.
      * exists x0. unfold peek in *. simpl.
        rewrite list_lookup_insert_ne by (by intros ->).
        split; [done|]. by rewrite first_fapp.
      * by apply (IH s par (Some a0)).
  - destruct Hl1 as [(x0 & Hx0 & Hs & Hrest0) [Hch Hrest]].
    apply NoDup_cons in Hnd as [Ha0 Hnd].
    rewrite <- app_assoc in Hnd, Ha0.
    apply not_elem_of_app in Ha0 as [Ha0c Ha0].
    apply not_elem_of_app in Ha0 as [Ha0r Ha02].
    apply NoDup_app in Hnd as (Hndc & Hdis & Hnd).
    destruct (decide (first rest = None)) as [Hr|Hr].
    + pose proof Hr as ->%first_Nil. simpl in *. injection Hlast as <-.
      unfold peek in *. rewrite Hx in Hx0. injection Hx0 as <-.
      split_and!.
      * eexists. split.
        -- simpl. apply list_lookup_insert_eq. by apply lookup_lt_Some in Hx.
        -- by destruct x.
      * apply (laid_frame ch s); [|done]. intros q Hq. simpl.
        rewrite list_lookup_insert_ne; [done|]. by intros ->.
      * apply (laid_frame f2 s); [|done]. intros q Hq. simpl.
        rewrite list_lookup_insert_ne; [done|]. by intros ->.
    + assert (rest ≠ Nil) as Hrn by (by rewrite <- first_Nil).
      pose proof (last_from_addrs rest _ a Hrn Hlast) as Har.
      split_and!.
      * exists x0. unfold peek in *. simpl.
        rewrite list_lookup_insert_ne by (by intros ->).
        split; [done|]. by rewrite first_fapp.
      * apply (laid_frame ch s); [|done]. intros q Hq. simpl.
        rewrite list_lookup_insert_ne; [done|]. intros Heq.
        assert (q = a) as -> by done.
        apply (Hdis a Hq). elem_tac.
      * by apply (IH s par (Some a0)).
Qed.

Lemma last_from_is_Some f : ∀ prev,
  f ≠ Nil ∨ is_Some prev → is_Some (last_from prev f).
Proof.
  induction f as [|a k v rest IH|a k b ch _ rest IH]; intros prev H; simpl.
  - by destruct H.
  - apply IH. right. eauto.
  - apply IH. right. eauto.
Qed.

Lemma laid_lookup f : ∀ s par a,
  laid s par f → a ∈ addrs f → is_Some (pool s !! a).
Proof.
  induction f as [|a0 k v rest IH|a0 k b ch IHc rest IH];
    intros s par a Hl Ha; simpl in *.
  - by apply elem_of_nil in Ha.
  - destruct Hl as [(x & Hx & _) Hrest].
    apply elem_of_cons in Ha as [->|Ha]; [by exists x|]. by apply (IH s par).
  - destruct Hl as [(x & Hx & _) [Hch Hrest]].
    apply elem_of_cons in Ha as [->|Ha]; [by exists x|].
    apply elem_of_app in Ha as [Ha|Ha];
      [by apply (IHc s (Some a0))|by apply (IH s par)].
Qed.

Lemma list_append_laid fuel f1 f2 par s :
  laid s par f1 → laid s par f2 → NoDup (addrs f1 ++ addrs f2) →
  width f1 ≤ fuel →
  ∃ s',
    jemi_list_append fuel (first f1) (first f2) s
      = Some (s', first (fapp f1 f2)) ∧
    laid s' par (fapp f1 f2) ∧
    s_jemi_freelist s' = s_jemi_freelist s ∧
    ∀ q, last_from None f1 ≠ Some q → pool s' !! q = pool s !! q.
Proof.
  intros Hl1 Hl2 Hnd Hf. unfold jemi_list_append.
  destruct (decide (first f1 = None)) as [Hn|Hn].
  - pose proof Hn as ->%first_Nil. simpl. exists s. done.
  - assert (f1 ≠ Nil) as Hne by (by rewrite <- first_Nil).
    rewrite (first_fapp f1 f2 Hne).
    destruct (first f1) as [a1|] eqn:Hf1; [|done]. rewrite <- Hf1.
    rewrite (last_loop_laid f1 s par) by done. simpl.
    destruct (last_from_is_Some f1 None) as [a Hlast]; [by left|].
    rewrite Hlast.
    destruct (laid_lookup f1 s par a Hl1) as [x Hx];
      [by apply (last_from_addrs f1 None)|].
    unfold poke. rewrite Hx. simpl. eexists. split; [done|]. split_and!.
    + by apply (laid_fapp f1 s par None).
    + done.
    + intros q Hq. simpl. rewrite list_lookup_insert_ne; [done|].
      intros ->. done.
Qed.

(** [jemi_list_append] on two chains of siblings that lie in the store
    below the same parent, in distinct slots: the call returns the first
    node of the first chain, or of the second when the first is empty, and
    the second chain follows the first.  No slot but the last of the first
    chain has changed. *)
Theorem jemi_list_append_joins fuel f1 f2 par s :
  laid s par f1 → laid s par f2 → NoDup (addrs f1 ++ addrs f2) →
  width f1 ≤ fuel →
  ∃ s',
    jemi_list_append fuel (first f1) (first f2) s
      = Some (s', first (fapp f1 f2)) ∧
    laid s' par (fapp f1 f2) ∧
    s_jemi_freelist s' = s_jemi_freelist s ∧
    ∀ q, last_from None f1 ≠ Some q → peek q s' = peek q s.
Proof. apply list_append_laid. Qed.

Lemma jemi_list_append_joins_witness :
  ∃ s',
    jemi_list_append 1 (first integer_a) (first integer_b) two_integers
      = Some (s', first (fapp integer_a integer_b)) ∧
    laid s' None (fapp integer_a integer_b) ∧
    s_jemi_freelist s' = s_jemi_freelist two_integers ∧
    ∀ q, last_from None integer_a ≠ Some q →
         peek q s' = peek q two_integers.
Proof.
  destruct two_integers_laid as (_ & H2 & H3 & _).
  apply Forall_cons in H2 as [Ha H2]. apply Forall_cons in H2 as [Hb _].
  apply (jemi_list_append_joins 1 integer_a integer_b None two_integers
           Ha Hb H3).
  simpl. lia.
Defined.

Lemma addrs_fapp f1 f2 q :
  q ∈ addrs (fapp f1 f2) ↔ q ∈ addrs f1 ∨ q ∈ addrs f2.
Proof.
  induction f1 as [|a k v rest IH|a k b ch _ rest IH]; simpl.
  - rewrite elem_of_nil. tauto.
  - rewrite !elem_of_cons, IH. tauto.
  - rewrite !elem_of_cons, !elem_of_app, IH. tauto.
Qed.

(** [jemi_array_append] and [jemi_object_append] with one tree [t]: the
    container in slot [r], not yet emitted, gets [t] as its last child,
    with the container as its parent.  Both functions do the same. *)
Theorem append_one_tree fuel r k b ch rest t par s :
  laid s par (Box r k b ch rest) → single t → laid s None t →
  NoDup (addrs (Box r k b ch rest) ++ addrs t) →
  width ch ≤ fuel →
  ∃ s',
    jemi_array_append fuel (Some r) (first t) s = Some (s', Some r) ∧
    jemi_object_append fuel (Some r) (first t) s = Some (s', Some r) ∧
    laid s' par (Box r k b (fapp ch t) rest) ∧
    s_jemi_freelist s' = s_jemi_freelist s.
Proof.
  intros Hl Ht Hlt Hnd Hf.
  simpl in Hl. destruct Hl as [(xr & Hxr & Hr) [Hch Hrest]].
  destruct Hr as (Hrs & Hrp & Hrst & Hrk & Hrty & Hrc & Hru).
  simpl in Hnd. apply NoDup_cons in Hnd as [Hr Hnd].
  rewrite <- app_assoc in Hnd, Hr.
  apply not_elem_of_app in Hr as [Hrc' Hr].
  apply not_elem_of_app in Hr as [Hrr Hrt].
  apply NoDup_app in Hnd as (Hndc & Hdc & Hnd).
  apply NoDup_app in Hnd as (Hndr & Hdr & Hndt).
  (* the item *)
  assert (∃ i xi, first t = Some i ∧ pool s !! i = Some xi ∧ i ∈ addrs t)
    as (i & xi & Hfi & Hxi & Hit).
  { destruct (single_cases t Ht) as [(a & k' & v & ->)|(a & k' & b' & c' & ->)];
      simpl in Hlt; destruct Hlt as [(x & Hx & _) _]; exists a, x;
      split_and!; try done; elem_tac. }
  set (s1 := mk_store (<[i := set_parent (Some r) xi]> (pool s))
               (s_jemi_freelist s)).
  assert (i < length (pool s)) as Hli by (by apply lookup_lt_Some in Hxi).
  assert (i ≠ r) as Hir by (by intros ->).
  assert (∀ q, q ≠ i → pool s1 !! q = pool s !! q) as Hfr1.
  { intros q Hq. unfold s1. simpl. by rewrite list_lookup_insert_ne. }
  assert (laid s1 (Some r) t) as Hlt1.
  { replace t with (join [t]).
    2:{ by destruct (single_cases t Ht)
          as [(a & k' & v & ->)|(a & k' & b' & c' & ->)]. }
    apply (laid_join_cons s s1 t [] (Some r) xi i); try done.
    - unfold s1. simpl. rewrite list_lookup_insert_eq by done. f_equal.
      assert (sibling xi = None) as Hs.
      { destruct (single_cases t Ht)
          as [(a & k' & v & ->)|(a & k' & b' & c' & ->)];
          simpl in Hlt, Hfi; injection Hfi as ->;
          destruct Hlt as [(x & Hx & Hs & _) _]; unfold peek in Hx;
          rewrite Hxi in Hx; by injection Hx as <-. }
      rewrite <- Hs at 1. by destruct xi.
    - intros q _ Hq. by apply Hfr1. }
  assert (laid s1 (Some r) ch) as Hch1.
  { apply (laid_frame ch s); [|done]. intros q Hq. apply Hfr1. intros ->.
    apply (Hdc i Hq). elem_tac. }
  destruct (list_append_laid fuel ch t (Some r) s1 Hch1 Hlt1)
    as (s2 & Happ & Hl2 & Hfl2 & Hfr2); [|done|].
  { apply NoDup_app. split_and!; [done| |done].
    intros q Hq. intros Hq'. apply (Hdc q Hq). elem_tac. }
  assert (pool s2 !! r = Some xr) as Hxr2.
  { rewrite Hfr2, Hfr1; [done..|]. intros Hlast.
    destruct (decide (first ch = None)) as [Hn|Hn].
    - apply first_Nil in Hn. subst ch. done.
    - apply Hrc'. apply (last_from_addrs ch None); [|done].
      by rewrite <- first_Nil. }
  set (s3 := mk_store
               (<[r := set_payload (Children (first (fapp ch t))) xr]>
                  (pool s2)) (s_jemi_freelist s2)).
  assert (r < length (pool s2)) as Hlr by (by apply lookup_lt_Some in Hxr2).
  exists s3.
  assert (jemi_array_append fuel (Some r) (first t) s = Some (s3, Some r))
    as Harr.
  { unfold jemi_array_append. rewrite Hfi. simpl.
    assert (poke i (set_parent (Some r)) s = Some s1) as ->.
    { unfold poke. by rewrite Hxi. }
    simpl. unfold peek. rewrite Hfr1 by done.
    unfold peek in Hxr. rewrite Hxr. simpl. rewrite Hrc. simpl.
    rewrite <- Hfi, Happ. simpl. unfold poke. rewrite Hxr2. done. }
  split_and!.
  - done.
  - exact Harr.
  - simpl. split_and!.
    + eexists. split.
      * unfold peek, s3. simpl. by apply list_lookup_insert_eq.
      * by destruct xr.
    + apply (laid_frame (fapp ch t) s2); [|done]. intros q Hq. simpl.
      rewrite list_lookup_insert_ne; [done|]. intros ->.
      apply addrs_fapp in Hq as [Hq|Hq]; done.
    + apply (laid_frame rest s); [|done]. intros q Hq. simpl.
      rewrite list_lookup_insert_ne by (by intros ->).
      rewrite Hfr2, Hfr1; [done| |].
      * intros ->. apply (Hdr i Hq Hit).
      * intros Hlast.
        destruct (decide (first ch = None)) as [Hn|Hn].
        -- apply first_Nil in Hn. subst ch. done.
        -- apply (Hdc q); [|elem_tac].
           apply (last_from_addrs ch None); [|done]. by rewrite <- first_Nil.
  - simpl. by rewrite Hfl2.
Qed.

(** ** Copies *)

Lemma orphaned_frame f : ∀ s s',
  (∀ q, q ∈ addrs f → pool s' !! q = pool s !! q) →
  orphaned s f → orphaned s' f.
Proof.
  induction f as [|a k v rest IH|a k b ch IHc rest IHr]; intros s s' Hfr;
    simpl; [done| |].
  - intros [(x & Hx & H) Hrest]. split.
    + exists x. split; [|done]. unfold peek in *. rewrite Hfr; [done|].
      elem_tac.
    + apply (IH s); [|done]. intros q Hq. apply Hfr. elem_tac.
  - intros [(x & Hx & H) [Hch Hrest]]. split_and!.
    + exists x. split; [|done]. unfold peek in *. rewrite Hfr; [done|].
      elem_tac.
    + apply (IHc s); [|done]. intros q Hq. apply Hfr. elem_tac.
    + apply (IHr s); [|done]. intros q Hq. apply Hfr. elem_tac.
Qed.

Lemma length_addrs_clone f : ∀ m,
  length (addrs (clone m f)) = length (addrs f).
Proof.
  induction f as [|a k v rest IH|a k b ch IHc rest IHr]; intros m; simpl.
  - done.
  - by rewrite IH.
  - by rewrite !length_app, IHc, IHr.
Qed.

Lemma addrs_clone f : ∀ m q,
  length (addrs f) ≤ m →
  q ∈ addrs (clone m f) → m - length (addrs f) ≤ q < m.
Proof.
  induction f as [|a k v rest IH|a k b ch IHc rest IHr]; intros m q Hm;
    simpl in *.
  - by intros []%elem_of_nil.
  - intros [->|Hq]%elem_of_cons; [lia|].
    apply IH in Hq; lia.
  - rewrite length_app in Hm.
    intros [->|Hq]%elem_of_cons; [lia|]. rewrite length_app.
    apply elem_of_app in Hq as [Hq|Hq].
    + apply IHc in Hq; lia.
    + apply IHr in Hq; lia.
Qed.

Lemma first_clone f m :
  first (clone m f) = match first f with Some _ => Some (m - 1) | None => None end.
Proof. by destruct f. Qed.

Lemma copy_loop_unfold fuel root r2 prev s :
  copy_loop (S fuel) root r2 prev s =
  '(s, node) ← copy_node fuel root s;
  match node with
  | None => Some (s, r2)
  | Some n =>
      let r2 := match r2 with None => node | Some _ => r2 end in
      s ← match prev with
          | Some p => poke p (set_sibling node) s
          | None => Some s
          end;
      r ← root;
      x ← peek r s;
      copy_loop fuel (sibling x) r2 node s
  end.
Proof. reflexivity. Qed.

Lemma copy_node_leaf fuel a x v m s :
  peek a s = Some x → holds x v → fresh_chain (S m) s → m < a →
  ∃ y,
    copy_node fuel (Some a) s =
      Some (mk_store (<[m := y]> (pool s)) (pred_ptr m), Some m) ∧
    sibling y = None ∧ parent y = None ∧ state y = JEMI_NODE_UNUSED ∧
    key y = None ∧ holds y v.
Proof.
  intros Hx [Hty Hv] Hfr Ha.
  destruct (alloc_fresh (type x) m s Hfr) as [Hal Hlen].
  assert (peek a (mk_store (<[m := set_type (type x) zero_node]> (pool s))
                    (pred_ptr m)) = Some x) as Hx1.
  { unfold peek in *. simpl. rewrite list_lookup_insert_ne by lia. done. }
  assert (∀ fu, copy_node fu (Some a) s =
    '(s, copy) ← jemi_alloc (type x) s;
    x ← peek a s;
    match type x with
    | JEMI_ARRAY | JEMI_OBJECT =>
        match fu with
        | O => None
        | S fuel' =>
            c ← get_children x;
            '(s, cc) ← copy_loop fuel' c None None s;
            cp ← copy;
            s ← poke cp (set_payload (Children cc)) s;
            Some (s, copy)
        end
    | JEMI_STRING =>
        str ← get_string x;
        cp ← copy;
        s ← poke cp (set_payload (Str str)) s;
        Some (s, copy)
    | JEMI_INTEGER =>
        i ← get_integer x;
        cp ← copy;
        s ← poke cp (set_payload (Integer i)) s;
        Some (s, copy)
    | _ => Some (s, copy)
    end) as Hun.
  { intros fu. destruct fu; simpl; rewrite Hx; done. }
  rewrite Hun, Hal. simpl. rewrite Hx1. simpl. rewrite Hty.
  destruct v; simpl in *; rewrite ?Hv; simpl; unfold poke; simpl;
    rewrite ?list_lookup_insert_eq by done; simpl;
    rewrite ?list_insert_insert_eq;
    eexists; (split; [reflexivity|]); rewrite ?Hty; unfold holds; done.
Qed.

Lemma clones_Nil : clones Nil.
Proof.
  intros s par m fuel r2 prev _ Hfr _ _ Hfuel _. simpl in *.
  destruct fuel as [|fuel]; [lia|]. exists s.
  rewrite copy_loop_unfold.
  assert (copy_node fuel None s = Some (s, None)) as -> by (by destruct fuel).
  simpl. rewrite Nat.sub_0_r. split_and!; try done. by destruct r2.
Qed.

(** The loop after the node in slot [a] has been copied to slot [m']:
    [s1] is the store [copy_node] left, in which [n] further slots were
    taken for the children. *)
Lemma copy_tail rest a x m' n fuel r2 prev par s s1 y :
  clones rest →
  peek a s = Some x → sibling x = first rest → laid s par rest →
  m' < a → (∀ q, q ∈ addrs rest → m' < q) →
  n + length (addrs rest) ≤ m' → steps rest < fuel →
  (∀ p, prev = Some p →
        m' < p ∧ p ≠ a ∧ (p ∉ addrs rest) ∧ is_Some (pool s !! p)) →
  copy_node fuel (Some a) s = Some (s1, Some m') →
  pool s1 !! m' = Some y → sibling y = None →
  fresh_chain (m' - n) s1 →
  (∀ q, m' < q → pool s1 !! q = pool s !! q) →
  ∃ s',
    copy_loop (S fuel) (Some a) r2 prev s =
      Some (s', match r2 with Some _ => r2 | None => Some m' end) ∧
    fresh_chain (m' - n - length (addrs rest)) s' ∧
    orphaned s' (clone (m' - n) rest) ∧
    pool s' !! m' = Some (set_sibling (first (clone (m' - n) rest)) y) ∧
    (∀ q, m' - n ≤ q → q ≠ m' → prev ≠ Some q →
          pool s' !! q = pool s1 !! q) ∧
    (∀ p, prev = Some p →
          pool s' !! p = set_sibling (Some m') <$> pool s !! p).
Proof.
  intros IH Hx Hsib Hl Ha Hrest Hn Hfuel Hprev Hcn Hy Hys Hfr Hfar.
  (* the assignment to prev->sibling *)
  assert (∃ s2,
    match prev with
    | Some p => poke p (set_sibling (Some m')) s1
    | None => Some s1
    end = Some s2 ∧
    s_jemi_freelist s2 = s_jemi_freelist s1 ∧
    (∀ q, prev ≠ Some q → pool s2 !! q = pool s1 !! q) ∧
    (∀ p, prev = Some p →
          pool s2 !! p = set_sibling (Some m') <$> pool s !! p))
    as (s2 & Hpoke & Hfl2 & Hfr2 & Hp2).
  { destruct prev as [p|].
    - destruct (Hprev p eq_refl) as (Hp1 & Hp2 & Hp3 & [xp Hxp]).
      assert (pool s1 !! p = Some xp) as Hxp1 by (by rewrite Hfar).
      eexists. unfold poke. rewrite Hxp1. simpl. split; [done|].
      split_and!; [done| |].
      + intros q Hq. simpl. rewrite list_lookup_insert_ne; [done|].
        by intros ->.
      + intros ? [= <-]. simpl. rewrite Hxp. simpl.
        apply list_lookup_insert_eq. by apply lookup_lt_Some in Hxp1.
    - exists s1. split_and!; done. }
  assert (prev ≠ Some m') as Hpm.
  { intros ->. destruct (Hprev m' eq_refl). lia. }
  assert (prev ≠ Some a) as Hpa.
  { intros ->. by destruct (Hprev a eq_refl) as (_ & ? & _). }
  assert (peek a s2 = Some x) as Hx2.
  { unfold peek in *. by rewrite Hfr2, Hfar. }
  destruct (IH s2 par (m' - n) fuel
              (match r2 with Some _ => r2 | None => Some m' end) (Some m'))
    as (s' & Hloop & Hfr' & Horph & Hfar' & Hprev'); [| | | |done| |].
  { apply (laid_frame rest s); [|done]. intros q Hq.
    assert (prev ≠ Some q).
    { intros ->. by destruct (Hprev q eq_refl) as (_ & _ & ? & _). }
    rewrite Hfr2 by done. apply Hfar. by apply Hrest. }
  { destruct Hfr as [Hf1 Hf2]. split; [by rewrite Hfl2|].
    intros j Hj. rewrite Hfr2; [by apply Hf2|].
    intros ->. destruct (Hprev j eq_refl). lia. }
  { lia. }
  { intros q Hq. apply Hrest in Hq. lia. }
  { intros p [= <-]. split_and!; [lia| |].
    - intros Hq. apply Hrest in Hq. lia.
    - rewrite Hfr2 by done. eauto. }
  exists s'. split_and!.
  - rewrite copy_loop_unfold, Hcn. simpl. rewrite Hpoke. simpl.
    rewrite Hx2. simpl. rewrite Hsib, Hloop. by destruct r2.
  - done.
  - done.
  - rewrite (Hprev' m' eq_refl), Hfr2, Hy by done.
    destruct (first rest) as [r|] eqn:Hf; simpl.
    + done.
    + apply first_Nil in Hf. subst rest. simpl. f_equal.
      rewrite <- Hys. by destruct y.
  - intros q Hq Hqm Hqp. rewrite Hfar'; [|done|by intros [= ->]].
    by rewrite Hfr2.
  - intros p ->. destruct (Hprev p eq_refl) as (? & _).
    rewrite Hfar'; [|lia|by intros [= ->]]. by apply Hp2.
Qed.

Lemma copy_node_unfold fu a s :
  copy_node fu (Some a) s =
  x ← peek a s;
  '(s, copy) ← jemi_alloc (type x) s;
  x ← peek a s;
  match type x with
  | JEMI_ARRAY | JEMI_OBJECT =>
      match fu with
      | O => None
      | S fuel' =>
          c ← get_children x;
          '(s, cc) ← copy_loop fuel' c None None s;
          cp ← copy;
          s ← poke cp (set_payload (Children cc)) s;
          Some (s, copy)
      end
  | JEMI_STRING =>
      str ← get_string x;
      cp ← copy;
      s ← poke cp (set_payload (Str str)) s;
      Some (s, copy)
  | JEMI_INTEGER =>
      i ← get_integer x;
      cp ← copy;
      s ← poke cp (set_payload (Integer i)) s;
      Some (s, copy)
  | _ => Some (s, copy)
  end.
Proof. by destruct fu. Qed.

Lemma clones_Leaf a k v rest : clones rest → clones (Leaf a k v rest).
Proof.
  intros IH s par m fuel r2 prev Hl Hfr Hlen Hab Hfuel Hprev. simpl in *.
  destruct Hl as [(x & Hx & Hsib & Hpar & Hst & Hk & Hv) Hrest].
  destruct m as [|m']; [lia|]. destruct fuel as [|fuel]; [lia|].
  assert (m' < a) as Ha by (specialize (Hab a); rewrite elem_of_cons in Hab;
                            specialize (Hab (or_introl eq_refl)); lia).
  destruct (copy_node_leaf fuel a x v m' s Hx Hv Hfr Ha)
    as (y & Hcn & Hys & Hyp & Hyst & Hyk & Hyv).
  destruct (alloc_fresh JEMI_NULL m' s Hfr) as [_ Hlm].
  set (s1 := mk_store (<[m' := y]> (pool s)) (pred_ptr m')) in *.
  destruct (copy_tail rest a x m' 0 fuel r2 prev par s s1 y IH Hx Hsib Hrest Ha)
    as (s' & Hloop & Hfr' & Horph & Hnode & Hfar & Hpv).
  { intros q Hq. specialize (Hab q). rewrite elem_of_cons in Hab.
    specialize (Hab (or_intror Hq)). lia. }
  { lia. }
  { lia. }
  { intros p Hp. destruct (Hprev p Hp) as (H1 & H2 & H3).
    apply not_elem_of_cons in H2 as [? ?]. split_and!; try done; lia. }
  { done. }
  { unfold s1. simpl. by apply list_lookup_insert_eq. }
  { done. }
  { rewrite Nat.sub_0_r. by apply fresh_chain_insert. }
  { intros q Hq. unfold s1. simpl. apply list_lookup_insert_ne. lia. }
  rewrite !Nat.sub_0_r in *. cbn [clone first addrs length].
  replace (S m' - 1) with m' by lia.
  replace (S m' - S (length (addrs rest)))
    with (m' - length (addrs rest)) by lia.
  exists s'. split_and!.
  - rewrite Hloop. by destruct r2.
  - done.
  - eexists. unfold peek.
    split; [exact Hnode|]. destruct y; simpl in *. by subst.
  - done.
  - intros q Hq Hqp. rewrite Hfar by (done || lia).
    unfold s1. simpl. apply list_lookup_insert_ne. lia.
  - intros p Hp. by apply Hpv.
Qed.

Lemma clones_Box a k b ch rest :
  clones ch → clones rest → clones (Box a k b ch rest).
Proof.
  intros IHc IH s par m fuel r2 prev Hl Hfr Hlen Hab Hfuel Hprev.
  simpl in Hl, Hlen, Hfuel. rewrite length_app in Hlen.
  destruct Hl as [(x & Hx & Hsib & Hpar & Hst & Hk & Hty & Hc & Hu)
                    [Hch Hrest]].
  destruct m as [|m']; [lia|]. destruct fuel as [|fuel]; [lia|].
  destruct fuel as [|fuel]; [lia|].
  assert (∀ q, q ∈ a :: addrs ch ++ addrs rest → m' < q) as Hab'.
  { intros q Hq. apply Hab in Hq. lia. }
  assert (m' < a) as Ha by (apply Hab'; elem_tac).
  destruct (alloc_fresh (type x) m' s Hfr) as [Hal Hlm].
  set (y0 := set_type (type x) zero_node) in *.
  set (s0 := mk_store (<[m' := y0]> (pool s)) (pred_ptr m')) in *.
  assert (∀ q, q ≠ m' → pool s0 !! q = pool s !! q) as Hfr0.
  { intros q Hq. unfold s0. simpl. by apply list_lookup_insert_ne. }
  (* the children *)
  destruct (IHc s0 (Some a) m' fuel None None)
    as (sc & Hloopc & Hfrc & Horphc & Hfarc & _); [| | | | |done|].
  { apply (laid_frame ch s); [|done]. intros q Hq. apply Hfr0.
    assert (m' < q) by (apply Hab'; elem_tac). lia. }
  { by apply fresh_chain_insert. }
  { lia. }
  { intros q Hq. assert (m' < q) by (apply Hab'; elem_tac). lia. }
  { lia. }
  set (n := length (addrs ch)) in *.
  set (y := set_payload (Children (first (clone m' ch))) y0).
  set (s1 := mk_store (<[m' := y]> (pool sc)) (s_jemi_freelist sc)).
  assert (pool sc !! m' = Some y0) as Hy0.
  { rewrite Hfarc by (done || lia). unfold s0. simpl.
    by apply list_lookup_insert_eq. }
  assert (m' < length (pool sc)) as Hlc by (by apply lookup_lt_Some in Hy0).
  assert (copy_node (S fuel) (Some a) s = Some (s1, Some m')) as Hcn.
  { rewrite copy_node_unfold, Hx. simpl. rewrite Hal. simpl.
    unfold peek in *. rewrite Hfr0, Hx by lia. simpl.
    assert (match type x with
            | JEMI_ARRAY | JEMI_OBJECT => true | _ => false end = true) as Hcont.
    { rewrite Hty. by destruct b. }
    destruct (type x); try done; rewrite Hc; simpl; rewrite Hloopc; simpl;
      unfold poke; rewrite Hy0; done. }
  destruct (copy_tail rest a x m' n (S fuel) r2 prev par s s1 y IH Hx Hsib
              Hrest Ha)
    as (s' & Hloop & Hfr' & Horph & Hnode & Hfar & Hpv).
  { intros q Hq. apply Hab'. elem_tac. }
  { lia. }
  { lia. }
  { intros p Hp. destruct (Hprev p Hp) as (H1 & H2 & H3).
    apply not_elem_of_cons in H2 as [? H2].
    apply not_elem_of_app in H2 as [? ?]. split_and!; try done; lia. }
  { done. }
  { unfold s1. simpl. by apply list_lookup_insert_eq. }
  { done. }
  { destruct Hfrc as [Hf1 Hf2]. split; [done|]. intros j Hj. simpl.
    rewrite list_lookup_insert_ne by lia. by apply Hf2. }
  { intros q Hq. unfold s1. simpl.
    rewrite list_lookup_insert_ne by lia. rewrite Hfarc by (done || lia).
    apply Hfr0. lia. }
  cbn [clone first addrs length]. rewrite length_app. fold n.
  replace (S m' - 1) with m' by lia.
  replace (S m' - S (n + length (addrs rest)))
    with (m' - n - length (addrs rest)) by lia.
  assert (∀ p, prev = Some p → m' < p) as Hpm.
  { intros p Hp. destruct (Hprev p Hp). lia. }
  exists s'. split; [|split; [|split; [|split]]].
  - rewrite Hloop. by destruct r2.
  - done.
  - cbn [orphaned]. split; [|split].
    + eexists. unfold peek. split; [exact Hnode|].
      unfold y, y0. simpl. rewrite Hty. done.
    + apply (orphaned_frame _ sc); [|done]. intros q Hq.
      apply addrs_clone in Hq; [|lia]. fold n in Hq.
      rewrite Hfar; [|lia|lia|].
      * unfold s1. simpl. apply list_lookup_insert_ne. lia.
      * intros Hp%Hpm. lia.
    + done.
  - intros q Hq Hqp. rewrite Hfar by (done || lia).
    unfold s1. simpl. rewrite list_lookup_insert_ne by lia.
    rewrite Hfarc by (done || lia). apply Hfr0. lia.
  - intros p Hp. by apply Hpv.
Qed.

Lemma copy_loop_clones f : clones f.
Proof.
  induction f as [|a k v rest IH|a k b ch IHc rest IH].
  - apply clones_Nil.
  - by apply clones_Leaf.
  - by apply clones_Box.
Qed.

(** [jemi_copy] of a chain of siblings that has not been emitted, with
    [m] fresh slots on the freelist below it, at least one per node: the
    call returns the first node of [clone m f].  The whole chain is copied,
    the siblings of the first node too, every node to a fresh slot with its
    type, its value and its place in the tree; keys and parent links are
    not copied.  The freelist keeps the slots that are left and the source
    is as it was. *)
Theorem jemi_copy_clones fuel f par m s :
  laid s par f → fresh_chain m s → length (addrs f) ≤ m →
  (∀ q, q ∈ addrs f → m ≤ q) → steps f < fuel →
  ∃ s',
    jemi_copy fuel (first f) s = Some (s', first (clone m f)) ∧
    orphaned s' (clone m f) ∧
    fresh_chain (m - length (addrs f)) s' ∧
    ∀ q, m ≤ q → peek q s' = peek q s.
Proof.
  intros Hl Hfr Hlen Hab Hfuel.
  destruct (copy_loop_clones f s par m fuel None None Hl Hfr Hlen Hab Hfuel)
    as (s' & Hloop & Hfr' & Horph & Hfar & _); [done|].
  exists s'. split_and!; try done.
  intros q Hq. unfold peek. by apply Hfar.
Qed.

Lemma jemi_copy_clones_witness :
  ∃ s',
    jemi_copy 20 (first (Box 4 None Obj members_ab Nil)) object_ab_roomy
      = Some (s', first (clone 4 (Box 4 None Obj members_ab Nil))) ∧
    orphaned s' (clone 4 (Box 4 None Obj members_ab Nil)) ∧
    fresh_chain (4 - length (addrs (Box 4 None Obj members_ab Nil))) s' ∧
    ∀ q, 4 ≤ q → peek q s' = peek q object_ab_roomy.
Proof.
  apply (jemi_copy_clones 20 (Box 4 None Obj members_ab Nil) None 4
           object_ab_roomy).
  - simpl. split_and!; try done;
      eexists; (split; [reflexivity|]); unfold holds; split_and!; reflexivity.
  - split; [reflexivity|]. intros [|[|[|[|j]]]] Hj; [reflexivity..|lia].
  - simpl. lia.
  - simpl. intros q Hq.
    repeat (apply elem_of_cons in Hq as [->|Hq]; [lia|]).
    by apply elem_of_nil in Hq.
  - simpl. lia.
Defined.

(** [jemi_copy] with an empty freelist.  For a node of type [JEMI_TRUE],
    [JEMI_FALSE], [JEMI_NULL] or [JEMI_FLOAT] the call returns the null
    pointer and changes nothing; for a container, a string or an integer
    [copy_node] stores through the null pointer that [jemi_alloc]
    returned, which is not a defined execution, whatever the fuel. *)
Theorem jemi_copy_on_empty_freelist a x s :
  s_jemi_freelist s = None → peek a s = Some x →
  match type x with
  | JEMI_TRUE | JEMI_FALSE | JEMI_NULL | JEMI_FLOAT =>
      ∀ fuel, jemi_copy (S fuel) (Some a) s = Some (s, None)
  | _ => ∀ fuel, jemi_copy fuel (Some a) s = None
  end.
Proof.
  intros Hfl Hx.
  assert (∀ fu, copy_node fu (Some a) s =
    match type x with
    | JEMI_ARRAY | JEMI_OBJECT =>
        match fu with
        | O => None
        | S fuel' =>
            c ← get_children x;
            '(s, cc) ← copy_loop fuel' c None None s;
            cp ← None;
            s ← poke cp (set_payload (Children cc)) s;
            Some (s, @None nat)
        end
    | JEMI_STRING | JEMI_INTEGER => None
    | _ => Some (s, None)
    end) as Hcn.
  { intros fu. rewrite copy_node_unfold, Hx. simpl. unfold jemi_alloc.
    rewrite Hfl. simpl. rewrite Hx. simpl.
    destruct (type x); try done.
    - by destruct (get_integer x).
    - by destruct (get_string x). }
  unfold jemi_copy.
  destruct (type x) eqn:Hty; intros fuel;
    try (rewrite copy_loop_unfold, Hcn; done);
    (destruct fuel as [|fuel]; [done|]); rewrite copy_loop_unfold, Hcn;
    try done;
    (destruct fuel as [|fuel]; [done|]);
    (destruct (get_children x); [|done]); simpl;
    by destruct (copy_loop fuel _ None None s) as [[? ?]|].
Qed.

Lemma jemi_copy_on_empty_freelist_witness :
  jemi_copy 5 (Some 1)
    (mk_store
       [mk_node None None JEMI_INTEGER JEMI_NODE_UNUSED None (Integer 2) None;
        mk_node None None JEMI_INTEGER JEMI_NODE_UNUSED None (Integer 1) None]
       None) = None.
Proof.
  apply (jemi_copy_on_empty_freelist 1
           (mk_node None None JEMI_INTEGER JEMI_NODE_UNUSED None (Integer 1) None)
           (mk_store
              [mk_node None None JEMI_INTEGER JEMI_NODE_UNUSED None
                 (Integer 2) None;
               mk_node None None JEMI_INTEGER JEMI_NODE_UNUSED None
                 (Integer 1) None] None)
           eq_refl eq_refl).
Defined.

(** ** Setters on a tree *)

Lemma value_at_addrs a f v : value_at a f = Some v → a ∈ addrs f.
Proof.
  induction f as [|a' k v' rest IH|a' k b ch IHc rest IH]; simpl; [done| |].
  - case_decide; [subst; intros _; elem_tac|]. intros Hv. elem_tac.
  - destruct (value_at a ch); intros Hv; elem_tac.
Qed.

Lemma fset_notin a v f : a ∉ addrs f → fset a v f = f.
Proof.
  induction f as [|a' k v' rest IH|a' k b ch IHc rest IH]; simpl; [done| |].
  - intros [Ha Hr]%not_elem_of_cons. rewrite decide_False by done.
    by rewrite IH.
  - intros [Ha Hr]%not_elem_of_cons.
    apply not_elem_of_app in Hr as [Hc Hr]. by rewrite IHc, IH.
Qed.

Lemma first_fset a v f : first (fset a v f) = first f.
Proof. by destruct f. Qed.

Lemma laid_fset a v v0 x x' fl f : ∀ s par,
  laid s par f → NoDup (addrs f) → value_at a f = Some v0 →
  pool s !! a = Some x →
  sibling x' = sibling x → parent x' = parent x → state x' = state x →
  key x' = key x → holds x' v →
  laid (mk_store (<[a := x']> (pool s)) fl) par (fset a v f).
Proof.
  intros s par Hl Hnd Hv Hx Hs Hp Hst Hk Hh. revert par Hl Hnd Hv.
  assert (∀ g par, a ∉ addrs g → laid s par g →
            laid (mk_store (<[a := x']> (pool s)) fl) par (fset a v g))
    as Hout.
  { intros g par Ha Hg. rewrite fset_notin by done.
    apply (laid_frame g s); [|done]. intros q Hq. simpl.
    rewrite list_lookup_insert_ne; [done|]. by intros ->. }
  induction f as [|a' k v' rest IH|a' k b ch IHc rest IH];
    intros par Hl Hnd Hv; simpl in *; [done| |].
  - destruct Hl as [(y & Hy & Hys & Hyp & Hyst & Hyk & Hyv) Hrest].
    apply NoDup_cons in Hnd as [Ha' Hnd].
    case_decide as Heq.
    + subst a'. unfold peek in Hy. rewrite Hx in Hy. injection Hy as <-.
      split; [|by apply Hout].
      exists x'. unfold peek. simpl.
      rewrite list_lookup_insert_eq by (by apply lookup_lt_Some in Hx).
      rewrite first_fset. split_and!; congruence.
    + split; [|by apply IH].
      exists y. unfold peek in *. simpl.
      rewrite list_lookup_insert_ne by done. rewrite first_fset. done.
  - destruct Hl as [(y & Hy & Hyr) [Hch Hrest]].
    apply NoDup_cons in Hnd as [Ha' Hnd].
    apply NoDup_app in Hnd as (Hndc & Hdis & Hndr).
    assert (a' ≠ a) as Hne.
    { intros Heq. subst a'. apply Ha'. apply elem_of_app.
      destruct (value_at a ch) as [vc|] eqn:Hvc.
      - left. by apply (value_at_addrs a ch vc).
      - right. by apply (value_at_addrs a rest v0). }
    split_and!.
    + exists y. unfold peek in *. simpl.
      rewrite list_lookup_insert_ne by done. rewrite !first_fset. done.
    + destruct (value_at a ch) as [vc|] eqn:Hvc.
      * injection Hv as ->. by apply IHc.
      * destruct (decide (a ∈ addrs ch)) as [Hin|Hin]; [|by apply Hout].
        apply Hout; [|done]. intros _.
        by apply (Hdis a Hin), (value_at_addrs a rest v0).
    + destruct (value_at a ch) as [vc|] eqn:Hvc.
      * apply Hout; [|done]. apply Hdis. by apply (value_at_addrs a ch vc).
      * by apply IH.
Qed.

Lemma laid_value_at a v0 f : ∀ s par,
  laid s par f → value_at a f = Some v0 →
  ∃ x, pool s !! a = Some x ∧ holds x v0.
Proof.
  induction f as [|a' k v' rest IH|a' k b ch IHc rest IH];
    intros s par Hl Hv; simpl in *; [done| |].
  - destruct Hl as [(y & Hy & _ & _ & _ & _ & Hyv) Hrest].
    case_decide; [|by apply (IH s par)].
    subst a'. injection Hv as <-. by exists y.
  - destruct Hl as [_ [Hch Hrest]].
    destruct (value_at a ch) as [vc|] eqn:Hvc.
    + injection Hv as ->. by apply (IHc s (Some a')).
    + by apply (IH s par).
Qed.

(** The setters on a leaf of a tree.  [jemi_integer_set] on an integer
    leaf, [jemi_string_set] on a string leaf and [jemi_bool_set] on a
    boolean leaf return the node and leave the tree as it was with the new
    value in that leaf: the integer reduced to an [int], the boolean as the
    type of the node. *)
Theorem setters_update_leaf a f par s v0 :
  laid s par f → NoDup (addrs f) → value_at a f = Some v0 →
  (∀ i j, v0 = SInt i →
     ∃ s', jemi_integer_set (Some a) j s = Some (s', Some a) ∧
           laid s' par (fset a (SInt (wrap_int j)) f)) ∧
  (∀ s0 str, v0 = SStr s0 →
     ∃ s', jemi_string_set (Some a) (Some str) s = Some (s', Some a) ∧
           laid s' par (fset a (SStr str) f)) ∧
  (∀ b, v0 = STrue ∨ v0 = SFalse →
     ∃ s', jemi_bool_set (Some a) b s = Some (s', Some a) ∧
           laid s' par (fset a (if b then STrue else SFalse) f)).
Proof.
  intros Hl Hnd Hv.
  destruct (laid_value_at a v0 f s par Hl Hv) as (x & Hx & Hty & Hh).
  unfold jemi_integer_set, jemi_string_set, jemi_bool_set, poke.
  rewrite Hx. simpl. split_and!.
  - intros i j ->. eexists. split; [done|].
    apply (laid_fset a _ (SInt i) x); try done; by split.
  - intros s0 str ->. eexists. split; [done|].
    apply (laid_fset a _ (SStr s0) x); try done; by split.
  - intros b Hb. eexists. split; [done|].
    apply (laid_fset a _ v0 x); try done; by destruct b.
Qed.

Ltac laid_tac :=
  simpl; split_and!; try done;
  eexists; (split; [reflexivity|]); unfold holds; split_and!; reflexivity.

Lemma setters_update_leaf_witness :
  (∃ s',
     jemi_integer_set (Some 3) 4294967301 object_nsb = Some (s', Some 3) ∧
     laid s' None (fset 3 (SInt (wrap_int 4294967301)) object_nsb_forest)) ∧
  (∃ s',
     jemi_string_set (Some 2) (Some "y") object_nsb = Some (s', Some 2) ∧
     laid s' None (fset 2 (SStr "y") object_nsb_forest)) ∧
  (∃ s',
     jemi_bool_set (Some 1) true object_nsb = Some (s', Some 1) ∧
     laid s' None (fset 1 (if true then STrue else SFalse) object_nsb_forest)).
Proof.
  assert (laid object_nsb None object_nsb_forest) as Hl by laid_tac.
  assert (NoDup (addrs object_nsb_forest)) as Hnd.
  { apply (bool_decide_unpack _). vm_compute. reflexivity. }
  split_and!.
  - apply (proj1 (setters_update_leaf 3 object_nsb_forest None object_nsb
                    (SInt 1) Hl Hnd eq_refl) 1%Z 4294967301%Z eq_refl).
  - apply (proj1 (proj2 (setters_update_leaf 2 object_nsb_forest None
                           object_nsb (SStr "x") Hl Hnd eq_refl))
             "x" "y" eq_refl).
  - apply (proj2 (proj2 (setters_update_leaf 1 object_nsb_forest None
                           object_nsb SFalse Hl Hnd eq_refl))
             true (or_intror eq_refl)).
Defined.

(** The integer of the first member after [jemi_integer_set] with
    [2^32 + 5]. *)
Lemma integer_set_wraps : wrap_int 4294967301 = 5%Z.
Proof. reflexivity. Qed.

Lemma append_one_tree_witness :
  ∃ s',
    jemi_array_append 2 (Some 2) (first (Leaf 1 None (SInt 7) Nil))
      array_12_and_item = Some (s', Some 2) ∧
    jemi_object_append 2 (Some 2) (first (Leaf 1 None (SInt 7) Nil))
      array_12_and_item = Some (s', Some 2) ∧
    laid s' None
      (Box 2 None Arr (fapp children_12 (Leaf 1 None (SInt 7) Nil)) Nil) ∧
    s_jemi_freelist s' = s_jemi_freelist array_12_and_item.
Proof.
  apply (append_one_tree 2 2 None Arr children_12 Nil
           (Leaf 1 None (SInt 7) Nil) None array_12_and_item).
  - laid_tac.
  - done.
  - laid_tac.
  - apply (bool_decide_unpack _). vm_compute. reflexivity.
  - simpl. lia.
Defined.

(** ** A tree through small sinks *)

(** Emission of a tree in pieces.  Let the forest [f] be in the store as
    for [tree_emission], every node of the pool being one the automaton can
    emit.  The caller empties the sink between the calls of [jemi_emit] and
    resumes at the node the previous call returned.  When every sink holds
    30 bytes or more and there are [4 * steps f + 3] of them, the calls
    reach the end of the tree and the contents of the sinks, in order, are
    [render f]. *)
Theorem chunked_tree_emission g f e caps fuel :
  f ≠ Nil → NoDup (addrs f) → laid (mem e) None f → inhabited f →
  Forall emittable (pool (mem e)) →
  (Z.of_nat (String.length (render f)) < 2 ^ 64)%Z →
  Forall (λ c, 30 ≤ c < 2 ^ 64)%Z caps →
  4 * steps f + 3 ≤ length caps → steps f ≤ fuel →
  ∃ outs,
    emit_chunks g fuel caps (first f) e = Some (outs, None) ∧
    concat_all outs = render f.
Proof.
  intros Hne Hnd Hl Hin Hall Hlen Hcaps Hn Hfuel.
  set (e0 := mk_emitter (mem e) (left e) (mk_out "" 0 false) (trace e)).
  destruct (emit_forest g f None e0 Hne Hnd Hl Hin)
    as (e' & Hout & _ & _ & _ & Hloop); [|done|].
  { apply overflows_zero; [done|]. simpl. lia. }
  specialize (Hloop 0). rewrite Nat.add_0_r in Hloop.
  destruct (first f) as [n|] eqn:Hf; [|by apply first_Nil in Hf].
  destruct (emit_chunks_steps g 0 (render f) (λ _, True) caps fuel (Some n)
              e "" (steps f))
    as (outs & fin & Hrun & (rest & Hrest & Hfin) & Hend);
    [by apply all_emittable_sound | done | | done |].
  { simpl. exists (trace e), e'. rewrite Hout. done. }
  assert (fin = None) as ->.
  { apply Hend; [done|]. pose proof (todo_le (mem e) n). lia. }
  exists outs. split; [done|].
  rewrite (Hfin eq_refl), append_nil_r, append_nil_l in Hrest. done.
Qed.

Lemma chunked_tree_emission_witness :
  ∃ outs,
    emit_chunks no_update 5 (replicate 23 30%Z) (first object_abg_forest)
      object_abg = Some (outs, None) ∧
    concat_all outs = render object_abg_forest.
Proof.
  apply (chunked_tree_emission no_update object_abg_forest object_abg
           (replicate 23 30%Z) 5).
  - discriminate.
  - apply (bool_decide_unpack _). vm_compute. reflexivity.
  - laid_tac.
  - simpl. split_and!; done.
  - repeat constructor; try discriminate; simpl; eauto.
  - vm_compute. reflexivity.
  - apply Forall_replicate. lia.
  - simpl. lia.
  - simpl. lia.
Defined.

(** The pieces of that emission.  The text has 42 characters and a sink
    of 30 bytes holds 29: the first call stops in front of the third key,
    which would not fit, and returns the third member; the second call
    writes the rest. *)
Lemma object_abg_in_two_pieces :
  emit_chunks no_update 5 (replicate 23 30%Z) (Some 0) object_abg =
  Some (["{" +:+ dquote +:+ "alpha" +:+ dquote +:+ ":11111," +:+
         dquote +:+ "beta" +:+ dquote +:+ ":22222,";
         dquote +:+ "gamma" +:+ dquote +:+ ":33333}"], None) ∧
  jemi_emit no_update 5 (Some 0) (refill object_abg 30) =
  Some (object_abg_suspended, Some 1) ∧
  full (output object_abg_suspended) = true.
Proof. split_and!; vm_compute; reflexivity. Qed.

(** ** Numbers *)

(** A [JEMI_FLOAT] node that has not been emitted, with room in the sink
    and a value whose integral part is an [int]: one call of [emit_aux]
    writes the key, the number and the separating comma, uses the node and
    returns the sibling, or else the parent.  A value that is a whole
    number is written with [%d], any other with [%lf].  The string case the
    [switch] runs into finds the node used and does nothing. *)
Theorem float_literal g n e x d i :
  peek n (mem e) = Some x → type x = JEMI_FLOAT →
  state x = JEMI_NODE_UNUSED → payload x = Number d →
  double_to_int d = Some i →
  let text :=
    key_text 22 (key x) +:+
    snprintf 22 (if Qeq_bool (inject_Z i) d then fmt_d i else fmt_lf d) +:+
    match sibling x with Some _ => "," | None => "" end in
  overflows (output e) text = false →
  ∃ t,
    emit_aux g n e =
    Some (mk_emitter
            (mk_store (<[n := set_state JEMI_NODE_USED x]> (pool (mem e)))
               (s_jemi_freelist (mem e)))
            (left e)
            (mk_out (buf (output e) +:+ text) (bufLen (output e))
               (full (output e)))
            t,
          match sibling x with Some sb => Some sb | None => parent x end).
Proof.
  destruct e as [s l [bf B fu] t]. destruct x as [sb pa ty st k pl up].
  simpl. intros Hx -> -> -> Hi Ho. unfold emit_aux, load. simpl.
  rewrite Hx. simpl.
  rewrite <- append_assoc in Ho.
  apply (overflows_app _ _ _ fu) in Ho as [Ho Ho3].
  apply (overflows_app _ _ _ fu) in Ho as [Ho1 Ho2].
  unfold switch_type, case_float, case_string, key_block, comma_block,
    on_state, attempt, goto, get_number in *; simpl in *.
  destruct k as [k|], sb as [sb|]; simpl in *;
    rewrite ?emit_string_spec; simpl; rewrite ?Ho1; simpl;
    rewrite ?Hi; simpl;
    rewrite ?emit_string_spec; simpl;
    rewrite ?append_nil_r in Ho2; rewrite ?Ho2; simpl;
    rewrite ?emit_string_spec; simpl;
    rewrite ?append_nil_r, ?append_assoc, ?append_nil_l in Ho3;
    rewrite ?append_assoc; rewrite ?Ho3; simpl;
    rewrite ?append_assoc, ?append_nil_r, ?append_nil_l;
    eexists; reflexivity.
Qed.

Lemma float_literal_witness :
  ∃ t,
    emit_aux no_update 0 (start (mk_store [float_node] None) 100) =
    Some (mk_emitter
            (mk_store (<[0 := set_state JEMI_NODE_USED float_node]>
                         (pool (mem (start (mk_store [float_node] None) 100))))
               (s_jemi_freelist (mem (start (mk_store [float_node] None) 100))))
            (left (start (mk_store [float_node] None) 100))
            (mk_out
               (buf (output (start (mk_store [float_node] None) 100)) +:+
                key_text 22 (key float_node) +:+
                snprintf 22
                  (if Qeq_bool (inject_Z 1) (3 # 2) then fmt_d 1
                   else fmt_lf (3 # 2)) +:+
                match sibling float_node with Some _ => "," | None => "" end)
               (bufLen (output (start (mk_store [float_node] None) 100)))
               (full (output (start (mk_store [float_node] None) 100))))
            t,
          match sibling float_node with
          | Some sb => Some sb
          | None => parent float_node
          end).
Proof.
  apply (float_literal no_update 0 (start (mk_store [float_node] None) 100)
           float_node (3 # 2) 1); try reflexivity.
Defined.

(** The text of [1.5] and of [3.0]. *)
Lemma float_texts :
  snprintf 22 (if Qeq_bool (inject_Z 1) (3 # 2) then fmt_d 1
               else fmt_lf (3 # 2)) = "1.500000" ∧
  double_to_int (3 # 1) = Some 3%Z ∧
  snprintf 22 (if Qeq_bool (inject_Z 3) (3 # 1) then fmt_d 3
               else fmt_lf (3 # 1)) = "3".
Proof. split_and!; vm_compute; reflexivity. Qed.

(** ** Keys *)

Lemma key_text_cases n k :
  key_text n (Some k) =
  if decide (String.length k + 4 ≤ n)
  then dquote +:+ k +:+ dquote +:+ ":"
  else substring 0 (n - 1) (dquote +:+ k +:+ dquote).
Proof.
  unfold key_text, snprintf. case_decide as Hk.
  - apply substring_0_all.
    rewrite !length_append. simpl. lia.
  - rewrite <- !append_assoc. apply substring_0_app.
    rewrite !length_append. simpl. lia.
Qed.

(** The key of a scalar member.  One call of [emit_aux] on a scalar node
    that has not been emitted, with room in the sink, writes the key
    between double quotes and a colon when the key has at most 18
    characters (26 for a string node).  For a longer key it writes what
    fits in the buffer the key is formatted in, 21 characters (29) of the
    quoted key, and no colon. *)
Theorem key_fragment g a e x v rest k :
  peek a (mem e) = Some x → sibling x = first rest →
  state x = JEMI_NODE_UNUSED → holds x v → key x = Some k →
  let n := scalar_key_size v in
  let K := if decide (String.length k + 4 ≤ n)
           then dquote +:+ k +:+ dquote +:+ ":"
           else substring 0 (n - 1) (dquote +:+ k +:+ dquote) in
  overflows (output e) (K +:+ scalar_text v +:+ comma rest) = false →
  ∃ e' nx,
    emit_aux g a e = Some (e', nx) ∧
    buf (output e') = buf (output e) +:+ K +:+ scalar_text v +:+ comma rest.
Proof.
  intros Hx Hsib Hst Hv Hk n K Ho. unfold K, n in *.
  rewrite <- key_text_cases in *. rewrite <- Hk in *.
  destruct (emit_aux_leaf g a e x v rest Hx Hsib Hst Hv Ho) as [t Hstep].
  do 2 eexists. split; [exact Hstep|]. done.
Qed.

Lemma key_fragment_witness :
  (∃ e' nx,
     emit_aux no_update 3 (start two_integers 100) = Some (e', nx) ∧
     buf (output e') =
       buf (output (start two_integers 100)) +:+
       (if decide (String.length "a" + 4 ≤ scalar_key_size (SInt 1))
        then dquote +:+ "a" +:+ dquote +:+ ":"
        else substring 0 (scalar_key_size (SInt 1) - 1)
               (dquote +:+ "a" +:+ dquote)) +:+
       scalar_text (SInt 1) +:+ comma Nil) ∧
  (∃ e' nx,
     emit_aux no_update 0 long_key_start = Some (e', nx) ∧
     buf (output e') =
       buf (output long_key_start) +:+
       (if decide (String.length "abcdefghijklmnopqrs" + 4
                   ≤ scalar_key_size (SInt 1))
        then dquote +:+ "abcdefghijklmnopqrs" +:+ dquote +:+ ":"
        else substring 0 (scalar_key_size (SInt 1) - 1)
               (dquote +:+ "abcdefghijklmnopqrs" +:+ dquote)) +:+
       scalar_text (SInt 1) +:+ comma Nil).
Proof.
  split.
  - apply (key_fragment no_update 3 (start two_integers 100)
             (mk_node None None JEMI_INTEGER JEMI_NODE_UNUSED (Some "a")
                (Integer 1) None) (SInt 1) Nil "a"); try reflexivity.
    split; reflexivity.
  - apply (key_fragment no_update 0 long_key_start
             (mk_node None None JEMI_INTEGER JEMI_NODE_UNUSED
                (Some "abcdefghijklmnopqrs") (Integer 1) None)
             (SInt 1) Nil "abcdefghijklmnopqrs"); try reflexivity.
    split; reflexivity.
Defined.

(** A key of nineteen characters: the colon is lost, and the member reads
    as the quoted key followed by the number. *)
Lemma long_key_loses_colon :
  key_text 22 (Some "abcdefghijklmnopqrs")
  = dquote +:+ "abcdefghijklmnopqrs" +:+ dquote ∧
  ∃ e', jemi_emit no_update 2 (Some 0) long_key_start = Some (e', None) ∧
        buf (output e') = dquote +:+ "abcdefghijklmnopqrs" +:+ dquote +:+ "1".
Proof.
  split; [vm_compute; reflexivity|].
  eexists. split; vm_compute; reflexivity.
Qed.

(** ** Emission of a copy *)

Lemma orphaned_flat_laid f : ∀ s, flat f → orphaned s f → laid s None f.
Proof.
  induction f as [|a k v rest IH|a k b ch _ rest _]; intros s Hf Ho;
    simpl in *; [done| |done].
  destruct Ho as [Hx Hrest]. split; [done|]. by apply IH.
Qed.

Lemma flat_inhabited f : flat f → inhabited f.
Proof. induction f; simpl; try done. Qed.

Lemma flat_clone f : ∀ m, flat f → flat (clone m f).
Proof. induction f; intros m; simpl; try done. apply IHf. Qed.

Lemma clone_not_Nil m f : f ≠ Nil → clone m f ≠ Nil.
Proof. by destruct f. Qed.

Lemma steps_clone f : ∀ m, steps (clone m f) = steps f.
Proof.
  induction f as [|a k v rest IH|a k b ch IHc rest IH]; intros m; simpl;
    [done| |]; by rewrite ?IHc, IH.
Qed.

Lemma NoDup_clone f : ∀ m,
  length (addrs f) ≤ m → NoDup (addrs (clone m f)).
Proof.
  induction f as [|a k v rest IH|a k b ch IHc rest IH]; intros m Hm;
    simpl in *.
  - apply NoDup_nil_2.
  - apply NoDup_cons. split; [|apply IH; lia].
    intros Hq. apply addrs_clone in Hq; lia.
  - rewrite length_app in Hm. apply NoDup_cons. split.
    + intros [Hq|Hq]%elem_of_app; apply addrs_clone in Hq; lia.
    + apply NoDup_app. split_and!; [apply IHc; lia| |apply IH; lia].
      intros q Hq Hq'. apply addrs_clone in Hq; [|lia].
      apply addrs_clone in Hq'; lia.
Qed.

Lemma orphan_left_open g a k b ch rest e fuel :
  orphaned (mem e) (Box a k b ch rest) → flat ch → ch ≠ Nil →
  NoDup (a :: addrs ch) →
  overflows (output e) (key_text 22 k +:+ opening b +:+ render ch) = false →
  full (output e) = false → 1 + steps ch ≤ fuel →
  ∃ e',
    jemi_emit g fuel (Some a) e = Some (e', None) ∧
    buf (output e') =
      buf (output e) +:+ key_text 22 k +:+ opening b +:+ render ch ∧
    full (output e') = false.
Proof.
  intros Ho Hfl Hne Hnd Hov Hfull Hfuel. simpl in Ho.
  destruct Ho as [(x & Hx & Hsib & Hpar & Hst & Hk & Hty & Hc & Hu) [Hch _]].
  apply NoDup_cons in Hnd as [Ha Hnd].
  rewrite <- Hk in Hov. rewrite <- append_assoc in Hov.
  apply (overflows_app _ _ _ false) in Hov as [Ho1 Ho2].
  destruct (emit_aux_open g a e x b (first ch) Hx Hst Hty Hu Hc Ho1)
    as [t1 Hstep1].
  rewrite Hfull in Hstep1.
  match type of Hstep1 with _ = Some (?E, _) => set (e1 := E) in * end.
  destruct (emit_forest g ch None e1) as (e2 & Hout & _ & _ & _ & Hloop);
    [done | done | | by apply flat_inhabited | done | done |].
  { apply orphaned_flat_laid; [done|].
    apply (orphaned_frame ch (mem e)); [|done]. intros q Hq. simpl.
    rewrite list_lookup_insert_ne; [done|]. by intros ->. }
  destruct fuel as [|fuel]; [lia|].
  specialize (Hloop (fuel - steps ch)).
  replace (steps ch + (fuel - steps ch)) with fuel in Hloop by lia.
  eexists. unfold jemi_emit.
  rewrite (emit_loop_step g fuel a e e1 (first ch) Hstep1 eq_refl).
  destruct (first ch) as [c|] eqn:Hf; [|by apply first_Nil in Hf].
  rewrite Hloop. simpl. split; [done|]. rewrite Hout. simpl.
  rewrite <- Hk, !append_assoc. done.
Qed.

(** A container without parent links.  When the children of a container
    are scalars whose [parent] is null, [jemi_emit] writes the key, the
    opening bracket and the children, and returns the null pointer after
    the last child: the closing bracket is not written, nor are the
    siblings of the container. *)
Theorem orphaned_container_is_left_open g a k b ch rest e fuel :
  orphaned (mem e) (Box a k b ch rest) → flat ch → ch ≠ Nil →
  NoDup (a :: addrs ch) →
  overflows (output e) (key_text 22 k +:+ opening b +:+ render ch) = false →
  full (output e) = false → 1 + steps ch ≤ fuel →
  ∃ e',
    jemi_emit g fuel (Some a) e = Some (e', None) ∧
    buf (output e') =
      buf (output e) +:+ key_text 22 k +:+ opening b +:+ render ch ∧
    full (output e') = false.
Proof. apply orphan_left_open. Qed.

(** A copy of a container is emitted without its closing bracket.  Let
    a container with scalar children lie in the store, with fresh slots
    for a copy.  [jemi_copy] returns a copy whose emission, into an empty
    sink with room for it, is the opening bracket and the children without
    their keys; [jemi_emit] then returns the null pointer. *)
Theorem copied_container_is_left_open g fuel a k b ch par m s cap :
  laid s par (Box a k b ch Nil) → flat ch → ch ≠ Nil →
  fresh_chain m s → S (length (addrs ch)) ≤ m →
  (∀ q, q ∈ a :: addrs ch → m ≤ q) →
  overflows (mk_out "" cap false)
    (opening b +:+ render (clone (m - 1) ch)) = false →
  3 + steps ch ≤ fuel →
  ∃ s' e',
    jemi_copy fuel (Some a) s = Some (s', Some (m - 1)) ∧
    jemi_emit g fuel (Some (m - 1)) (start s' cap) = Some (e', None) ∧
    buf (output e') = opening b +:+ render (clone (m - 1) ch).
Proof.
  intros Hl Hfl Hne Hfr Hlen Hab Hov Hfuel.
  destruct (copy_loop_clones (Box a k b ch Nil) s par m fuel None None Hl Hfr)
    as (s' & Hloop & _ & Horph & _); [| |simpl; lia|done|].
  { simpl. rewrite app_nil_r. lia. }
  { simpl. intros q Hq. rewrite app_nil_r in Hq. by apply Hab. }
  exists s'. simpl in Hloop, Horph.
  destruct (orphan_left_open g (m - 1) None b (clone (m - 1) ch)
              (clone (m - 1 - length (addrs ch)) Nil) (start s' cap) fuel)
    as (e' & Hemit & Hbuf & _).
  - exact Horph.
  - by apply flat_clone.
  - by apply clone_not_Nil.
  - apply NoDup_cons. split.
    + intros Hq. apply addrs_clone in Hq; lia.
    + apply NoDup_clone. lia.
  - simpl. rewrite append_nil_l. exact Hov.
  - done.
  - rewrite steps_clone. lia.
  - exists e'. split_and!; [done|done|].
    rewrite Hbuf. simpl. by rewrite !append_nil_l.
Qed.

Lemma orphaned_container_is_left_open_witness :
  ∃ e',
    jemi_emit no_update 20 (Some 3) (start object_ab_copied 100)
      = Some (e', None) ∧
    buf (output e') =
      buf (output (start object_ab_copied 100)) +:+ key_text 22 None +:+
      opening Obj +:+ render (clone 3 members_ab) ∧
    full (output e') = false.
Proof.
  apply (orphaned_container_is_left_open no_update 3 None Obj
           (clone 3 members_ab) Nil (start object_ab_copied 100) 20).
  - simpl. split_and!; try done;
      eexists; (split; [reflexivity|]); unfold holds; split_and!; reflexivity.
  - simpl. done.
  - discriminate.
  - apply (bool_decide_unpack _). vm_compute. reflexivity.
  - vm_compute. reflexivity.
  - reflexivity.
  - simpl. lia.
Defined.

Lemma copied_container_is_left_open_witness :
  ∃ s' e',
    jemi_copy 20 (Some 4) object_ab_roomy = Some (s', Some (4 - 1)) ∧
    jemi_emit no_update 20 (Some (4 - 1)) (start s' 100) = Some (e', None) ∧
    buf (output e') = opening Obj +:+ render (clone (4 - 1) members_ab).
Proof.
  apply (copied_container_is_left_open no_update 20 4 None Obj members_ab
           None 4 object_ab_roomy 100).
  - simpl. split_and!; try done;
      eexists; (split; [reflexivity|]); unfold holds; split_and!; reflexivity.
  - simpl. done.
  - discriminate.
  - split; [reflexivity|]. intros [|[|[|[|j]]]] Hj; [reflexivity..|lia].
  - simpl. lia.
  - simpl. intros q Hq.
    repeat (apply elem_of_cons in Hq as [->|Hq]; [lia|]).
    by apply elem_of_nil in Hq.
  - vm_compute. reflexivity.
  - simpl. lia.
Defined.

(** The text of the copy: no keys, no closing brace. *)
Lemma render_copied_members :
  opening Obj +:+ render (clone (4 - 1) members_ab) = "{1,2".
Proof. vm_compute. reflexivity. Qed.

(** ** What emission changes *)

Section Preserved.

(** A relation between the frame a piece of [emit_aux] starts with and the
    frame it leaves, which holds for every elementary step. *)
Variable R : frame → frame → Prop.
Hypothesis R_refl : ∀ f, R f f.
Hypothesis R_trans : ∀ f1 f2 f3, R f1 f2 → R f2 f3 → R f1 f3.
Hypothesis R_goto : ∀ st f, R f (goto st f).
Hypothesis R_emit : ∀ d f, R f (emit_string d f).1.
Hypothesis R_left : ∀ f l, R f (mk_frame (addr f) (nd f) l (out f) (tr f)).

Lemma attempt_R text st f : R f (attempt text st f).
Proof.
  unfold attempt. pose proof (R_emit text f) as H.
  destruct (emit_string text f) as [f' []]; simpl in *; eauto.
Qed.

Lemma key_block_R n f f' : key_block n f = Some f' → R f f'.
Proof.
  unfold key_block, on_state. case_decide; [|by intros [= <-]].
  destruct (key (nd f)); intros [= <-]; auto using attempt_R.
Qed.

Lemma comma_block_R f f' : comma_block f = Some f' → R f f'.
Proof.
  unfold comma_block, on_state. case_decide; [|by intros [= <-]].
  destruct (sibling (nd f)); intros [= <-]; auto using attempt_R.
Qed.

Lemma scalar_case_R (body : frame → option frame) n f f' :
  (∀ f f', body f = Some f' → ∃ text st, f' = attempt text st f) →
  (f1 ← key_block n f; f2 ← on_state JEMI_KEY_USED body f1; comma_block f2)
    = Some f' →
  R f f'.
Proof.
  intros Hbody H.
  apply bind_Some in H as (f1 & H1 & H).
  apply bind_Some in H as (f2 & H2 & H3).
  apply (R_trans _ f1); [by apply (key_block_R n)|].
  apply (R_trans _ f2); [|by apply comma_block_R].
  unfold on_state in H2. case_decide; [|by injection H2 as <-].
  apply Hbody in H2 as (text & st & ->). apply attempt_R.
Qed.

Lemma open_block_R c f f' :
  on_state JEMI_KEY_USED (λ f, Some (attempt c JEMI_CONTAINER_BEGUN f)) f
    = Some f' →
  R f f'.
Proof.
  unfold on_state. case_decide; intros [= <-]; auto using attempt_R.
Qed.

Lemma case_object_R f f' fl : case_object f = Some (f', fl) → R f f'.
Proof.
  unfold case_object. intros H.
  apply bind_Some in H as (f1 & H1 & H).
  apply bind_Some in H as (f2 & H2 & H).
  apply (R_trans _ f1); [by apply (key_block_R 22)|].
  apply (R_trans _ f2); [by apply (open_block_R "{")|].
  case_decide.
  - simpl in H. apply bind_Some in H as (c & _ & [= <- <-]). apply R_goto.
  - unfold on_state in H. simpl in H. case_decide; injection H as <- <-.
    + apply attempt_R.
    + apply R_refl.
Qed.

Lemma case_array_R f f' fl : case_array f = Some (f', fl) → R f f'.
Proof.
  unfold case_array. intros H.
  apply bind_Some in H as (f1 & H1 & H).
  apply bind_Some in H as (f2 & H2 & H).
  apply (R_trans _ f1); [by apply (key_block_R 22)|].
  apply (R_trans _ f2); [by apply (open_block_R "[")|].
  case_decide.
  - simpl in H. apply bind_Some in H as (c & _ & [= <- <-]). apply R_goto.
  - case_decide; [|injection H as <- <-; apply R_refl].
    destruct (update (nd f2)) as [u|].
    + case_decide.
      * pose proof (R_emit "," f2) as He.
        destruct (emit_string "," f2) as [f3 []]; by injection H as <- <-.
      * injection H as <- <-.
        eapply R_trans; [apply (R_left f2 (-1)%Z)|]. apply attempt_R.
    + injection H as <- <-. apply attempt_R.
Qed.

Lemma switch_type_R f f' fl : switch_type f = Some (f', fl) → R f f'.
Proof.
  unfold switch_type, case_null, case_integer, case_float, case_string,
    case_bool.
  intros H. destruct (type (nd f)).
  - apply bind_Some in H as (f1 & H1 & [= <- <-]).
    refine (scalar_case_R _ 22 f f1 _ H1); body_tac.
  - by apply (case_object_R f f' fl).
  - by apply (case_array_R f f' fl).
  - apply bind_Some in H as (f1 & H1 & [= <- <-]).
    refine (scalar_case_R _ 22 f f1 _ H1); body_tac.
  - apply bind_Some in H as (f1 & H1 & H).
    apply bind_Some in H as (f2 & H2 & [= <- <-]).
    apply (R_trans _ f1).
    + refine (scalar_case_R _ 22 f f1 _ H1); body_tac.
    + refine (scalar_case_R _ 30 f1 f2 _ H2); body_tac.
  - apply bind_Some in H as (f1 & H1 & [= <- <-]).
    refine (scalar_case_R _ 30 f f1 _ H1); body_tac.
  - apply bind_Some in H as (f1 & H1 & [= <- <-]).
    refine (scalar_case_R _ 22 f f1 _ H1); body_tac.
  - apply bind_Some in H as (f1 & H1 & [= <- <-]).
    refine (scalar_case_R _ 22 f f1 _ H1); body_tac.
Qed.

End Preserved.

Lemma marked_refl x : marked x x.
Proof. exists (state x). by destruct x. Qed.

Lemma marked_trans x y z : marked x y → marked y z → marked x z.
Proof. intros [s1 ->] [s2 ->]. exists s2. by destruct x. Qed.

Lemma switch_type_marked f f' fl :
  switch_type f = Some (f', fl) →
  addr f' = addr f ∧ marked (nd f) (nd f').
Proof.
  apply (switch_type_R (λ f f', addr f' = addr f ∧ marked (nd f) (nd f'))).
  - intros ?. split; [done|apply marked_refl].
  - intros f1 f2 f3 [H1 H2] [H3 H4]. split; [congruence|].
    by apply (marked_trans _ (nd f2)).
  - intros st f0. split; [done|]. by exists st.
  - intros d f0. rewrite emit_string_spec.
    destruct (overflows _ _); simpl; (split; [done|apply marked_refl]).
  - intros f0 l. simpl. split; [done|apply marked_refl].
Qed.

Lemma emit_aux_marked g p e e' nx x :
  peek p (mem e) = Some x → update x = None →
  emit_aux g p e = Some (e', nx) →
  ∃ st, mem e' = mk_store (<[p := set_state st x]> (pool (mem e)))
                   (s_jemi_freelist (mem e)).
Proof.
  intros Hx Hu. unfold emit_aux, load. rewrite Hx. simpl. intros H.
  apply bind_Some in H as ([f' fl] & Hs & H).
  destruct (switch_type_marked _ _ _ Hs) as [Ha [st Hn]]. simpl in *.
  destruct fl as [|r|u].
  - injection H as <- _. exists st. unfold unload. simpl. by rewrite Ha, Hn.
  - injection H as <- _. exists st. unfold unload. simpl. by rewrite Ha, Hn.
  - apply switch_type_generate in Hs as (_ & _ & Hup & _). simpl in Hup.
    congruence.
Qed.

Lemma emit_loop_marked g fuel : ∀ node e e' nx,
  Forall (λ x, update x = None) (pool (mem e)) →
  emit_loop g fuel node e = Some (e', nx) →
  s_jemi_freelist (mem e') = s_jemi_freelist (mem e) ∧
  Forall2 marked (pool (mem e)) (pool (mem e')).
Proof.
  induction fuel as [|fuel IH]; intros node e e' nx Hall H; [done|].
  simpl in H. apply bind_Some in H as (n & -> & H).
  apply bind_Some in H as ([e1 n1] & H1 & H).
  assert (∃ x, peek n (mem e) = Some x) as [x Hx].
  { unfold emit_aux, load in H1. destruct (peek n (mem e)); [eauto|done]. }
  assert (update x = None) as Hu.
  { by apply (Forall_lookup_1 _ _ _ _ Hall Hx). }
  destruct (emit_aux_marked g n e e1 n1 x Hx Hu H1) as [st Hm].
  assert (Forall2 marked (pool (mem e)) (pool (mem e1))) as H12.
  { rewrite Hm. simpl. rewrite <- (list_insert_id (pool (mem e)) n x Hx) at 1.
    apply Forall2_insert; [|by exists st].
    apply Forall_Forall2_diag, Forall_forall. intros ? _. apply marked_refl. }
  assert (s_jemi_freelist (mem e1) = s_jemi_freelist (mem e)) as Hf1
    by (by rewrite Hm).
  match type of H with (if ?c then _ else _) = _ => destruct c end.
  - destruct (IH n1 e1 e' nx) as [Hf2 H23]; [|done|].
    + rewrite Hm. simpl. by apply Forall_insert.
    + split; [congruence|].
      eapply Forall2_trans; [|exact H12|exact H23].
      intros ???. apply marked_trans.
  - by injection H as <- <-.
Qed.

(** Emission changes progress markers only.  When no node of the pool
    has a generator, a call of [jemi_emit] leaves the freelist as it was and
    every node of the pool as it was except for its [state]: links, keys,
    types and values are those the tree was built with. *)
Theorem emission_changes_markers_only g fuel root e e' nx :
  Forall (λ x, update x = None) (pool (mem e)) →
  jemi_emit g fuel root e = Some (e', nx) →
  s_jemi_freelist (mem e') = s_jemi_freelist (mem e) ∧
  Forall2 marked (pool (mem e)) (pool (mem e')).
Proof.
  intros Hall H. unfold jemi_emit in H.
  apply bind_Some in H as ([e1 n1] & H1 & [= <- <-]). simpl.
  by apply (emit_loop_marked g fuel root e e1 n1).
Qed.

Lemma emission_changes_markers_only_witness :
  s_jemi_freelist (mem object_ab_single)
    = s_jemi_freelist (mem (refill object_ab_start 100)) ∧
  Forall2 marked (pool (mem (refill object_ab_start 100)))
    (pool (mem object_ab_single)).
Proof.
  apply (emission_changes_markers_only no_update 20 (Some 1)
           (refill object_ab_start 100) object_ab_single None).
  - repeat constructor.
  - vm_compute. reflexivity.
Defined.
